(** * Tic-Tac-Toe: a shallow embedding of [src/index.ts]

    The program is a game engine ([class TicTacToe]) written against a view
    interface ([interface Display]) with one implementation over the browser
    document ([class DOM]).  The embedding keeps that split:

    - JavaScript values, arrays and exceptions, as a state and error monad;
    - the [Display] interface as a type class;
    - the engine, [Section Engine], generic in the display;
    - a model of the document tree and the [DOM] instance, [Module DOM];
    - the running game: the script's two statements and the event loop.

    The definitions come first, then the notions the statements use, then
    the proofs: what the engine does for any display, what the selectors
    find in a tree, that the document follows the state, that every
    reachable state is consistent, and the claims on the running game.
    After them come further properties: the edges and the frame of the
    engine, the invariants of a round, rounds move by move up to the limit
    of the count, and what the [DOM] methods do on any page.  The theorems
    are put to work on sample games at the end. *)

From stdpp Require Import base strings gmap list pretty.
From Stdlib Require Import ZArith Lia.

Open Scope string_scope.
Open Scope Z_scope.

(** ** JavaScript values, arrays and exceptions *)

(** The exceptions the program can raise: a property access on [undefined]
    or [null], and the token check of [classList.add].  [Unparsed] is none
    of the program's: it ends a run that hands the browser a selector string
    which this model does not read, so that what the program does from
    there on is not described. *)
Inductive error := TypeError | InvalidCharacterError | Unparsed.

Inductive outcome (A : Type) :=
| Return (a : A)
| Throw (e : error).
Arguments Return {A} a.
Arguments Throw {A} e.

(** A computation over a mutable state [S].  A throw keeps the state as it
    was when the exception left the computation: nothing is rolled back. *)
Definition js (S A : Type) : Type := S → outcome A * S.

Definition ret {S A} (a : A) : js S A := λ s, (Return a, s).

Definition throw {S A} (e : error) : js S A := λ s, (Throw e, s).

Definition bind {S A B} (m : js S A) (k : A → js S B) : js S B :=
  λ s, match m s with
       | (Return a, s') => k a s'
       | (Throw e, s') => (Throw e, s')
       end.

Definition gets {S A} (f : S → A) : js S A := λ s, (Return (f s), s).

Definition modify {S} (f : S → S) : js S unit := λ s, (Return tt, f s).

Declare Scope js_scope.
Delimit Scope js_scope with js.
Notation "'let*' x ':=' m 'in' k" := (bind m (λ x, k))
  (at level 10, x name, m at level 100, k at level 200) : js_scope.
Notation "m ';;' k" := (bind m (λ _, k))
  (at level 100, k at level 200, right associativity) : js_scope.
Open Scope js_scope.

(** [a && b] and [a || b] on computations: the right operand runs only when
    the left one does not decide the result. *)
Definition andM {S} (a b : js S bool) : js S bool :=
  let* l := a in if l then b else ret false.

Definition orM {S} (a b : js S bool) : js S bool :=
  let* l := a in if l then ret true else b.

Infix "&&&" := andM (at level 40, left associativity) : js_scope.
Infix "|||" := orM (at level 50, left associativity) : js_scope.

(** What a board cell read can yield: a string, or [undefined] for an index
    that names no element. *)
Inductive jsval :=
| undefined
| str (s : string).

Global Instance jsval_eq_dec : EqDecision jsval.
Proof. solve_decision. Defined.

(** [v === s] for a string [s]. *)
Definition strict_eq (v : jsval) (s : string) : bool := bool_decide (v = str s).

(** [a[i]]: the element, or [None] for [undefined]. *)
Definition index {A} (a : list A) (i : Z) : option A :=
  if bool_decide (0 ≤ i) then a !! Z.to_nat i else None.

(** [a[i] = v].  Inside the array the element is replaced.  Past the end the
    array grows up to [i], the skipped positions reading as [undefined].  A
    negative key names a property and leaves the elements alone. *)
Definition assign (a : list jsval) (i : Z) (v : jsval) : list jsval :=
  if bool_decide (i < 0) then a
  else if bool_decide (i < Z.of_nat (length a)) then <[Z.to_nat i := v]> a
  else a ++ replicate (Z.to_nat i - length a) undefined ++ [v].

(** A number of the program is a double.  The model holds the integers
    from [-2^53] to [2^53], each of which is a double, and [NaN], which is
    what [undefined + 1] gives: a count starts at 0 and changes by [+= 1]
    only, which never leaves that range.  A [Num] outside it stands for no
    number of the program. *)
Inductive number :=
| Num (z : Z)
| NaN.

Global Instance number_eq_dec : EqDecision number.
Proof. solve_decision. Defined.

(** The largest count: [2^53 + 1] is no double. *)
Definition max_exact : Z := 2 ^ 53.

(** The numbers the model holds. *)
Definition exact (n : number) : Prop :=
  match n with
  | Num z => - max_exact ≤ z ≤ max_exact
  | NaN => True
  end.

(** What a property read gives is a number of the model, if it is one. *)
Definition exact_read (n : option number) : Prop :=
  match n with
  | Some v => exact v
  | None => True
  end.

(** [n + 1] where [n] is the result of a property read.  Below [2^53] the
    sum is a double.  At [2^53] it is not: it lies half way between the
    doubles [2^53] and [2^53 + 2] and is rounded to the even one, [2^53],
    so that [+= 1] leaves the count as it is. *)
Definition plus_one (n : option number) : number :=
  match n with
  | Some (Num z) => if bool_decide (z < max_exact) then Num (z + 1) else Num z
  | Some NaN | None => NaN
  end.

(** [`${n}`] for the result of a property read: for a number of the model,
    all its decimal digits (an exponent appears only from [10^21] on, and
    digits are rounded away only above [2^53]). *)
Definition show (n : option number) : string :=
  match n with
  | Some (Num z) => pretty z
  | Some NaN => "NaN"
  | None => "undefined"
  end.

(** ** The data of the game *)

Definition Board : Type := list (list jsval).

(** [interface PlayerMark { x: string; o: string }] *)
Record PlayerMark := { mark_x : string; mark_o : string }.

(** [interface Score]: an object indexed by the player's mark. *)
Abbreviation Score := (gmap string number).

Section State.
Context {D : Type}.

(** The fields of [class TicTacToe], and [timers]: the delays of the
    [setTimeout] callbacks that have not run yet.  Every one of them is the
    callback of [gameOver]. *)
Record TicTacToe := {
  display : D;
  board : Board;
  players : PlayerMark;
  wait : Z;
  waiting : bool;
  score : Score;
  currentPlayer : string;
  timers : list Z
}.

Definition set_display (d : D) (t : TicTacToe) : TicTacToe :=
  {| display := d; board := board t; players := players t; wait := wait t;
     waiting := waiting t; score := score t;
     currentPlayer := currentPlayer t; timers := timers t |}.

Definition set_board (b : Board) (t : TicTacToe) : TicTacToe :=
  {| display := display t; board := b; players := players t; wait := wait t;
     waiting := waiting t; score := score t;
     currentPlayer := currentPlayer t; timers := timers t |}.

Definition set_waiting (w : bool) (t : TicTacToe) : TicTacToe :=
  {| display := display t; board := board t; players := players t;
     wait := wait t; waiting := w; score := score t;
     currentPlayer := currentPlayer t; timers := timers t |}.

Definition set_score (sc : Score) (t : TicTacToe) : TicTacToe :=
  {| display := display t; board := board t; players := players t;
     wait := wait t; waiting := waiting t; score := sc;
     currentPlayer := currentPlayer t; timers := timers t |}.

Definition set_currentPlayer (p : string) (t : TicTacToe) : TicTacToe :=
  {| display := display t; board := board t; players := players t;
     wait := wait t; waiting := waiting t; score := score t;
     currentPlayer := p; timers := timers t |}.

Definition set_timers (ts : list Z) (t : TicTacToe) : TicTacToe :=
  {| display := display t; board := board t; players := players t;
     wait := wait t; waiting := waiting t; score := score t;
     currentPlayer := currentPlayer t; timers := ts |}.

(** [this.display.m(...)]: a display method runs on the display's state; it
    holds no reference to the game and leaves its fields alone. *)
Definition call {A} (m : js D A) : js TicTacToe A :=
  λ t, match m (display t) with (r, d) => (r, set_display d t) end.

End State.

Arguments TicTacToe D : clear implicits.

(** ** The view interface *)

(** [interface Display], for a view whose state has type [D].  The engine
    calls these methods only; [createElement], [getElement] and
    [getAllElements] are the implementation's own helpers. *)
Class Display (D : Type) := {
  bindHandler : (Z → Z → js (TicTacToe D) unit) → js D unit;
  printGameBoard : Board → js D unit;
  updateBoard : Z → Z → string → js D unit;
  clearGameBoard : js D unit;
  printScoreBoard : Score → js D unit;
  updateScore : Score → string → js D unit;
  printMessage : option string → js D unit;
  clearMessage : js D unit
}.

(** ** The engine *)

Section Engine.
Context {D : Type} `{Display D}.

(** [this.board[row][col]] *)
Definition readCell (row col : Z) : js (TicTacToe D) jsval :=
  let* b := gets board in
  match index b row with
  | None => throw TypeError
  | Some r => ret (default undefined (index r col))
  end.

(** [this.board[row][col] = v] *)
Definition writeCell (row col : Z) (v : jsval) : js (TicTacToe D) unit :=
  let* b := gets board in
  match index b row with
  | None => throw TypeError
  | Some r => modify (set_board (<[Z.to_nat row := assign r col v]> b))
  end.

(** [this.board[row][col] === this.currentPlayer] *)
Definition mine (row col : Z) : js (TicTacToe D) bool :=
  let* v := readCell row col in
  let* p := gets currentPlayer in
  ret (strict_eq v p).

Definition createBoard : Board :=
  [[str ""; str ""; str ""]; [str ""; str ""; str ""]; [str ""; str ""; str ""]].

Definition isGameWon (row col : Z) : js (TicTacToe D) bool :=
  let* won :=
    (* Vertical win *)
    (mine 0 col &&& mine 1 col &&& mine 2 col) |||
    (* Horizontal win *)
    (mine row 0 &&& mine row 1 &&& mine row 2) |||
    (* Diagonal win *)
    ((mine 0 0 &&& mine 1 1 &&& mine 2 2) |||
     (mine 2 0 &&& mine 1 1 &&& mine 0 2)) in
  if won then ret true else ret false.

Definition switchPlayer : js (TicTacToe D) unit :=
  let* p := gets currentPlayer in
  let* ps := gets players in
  modify (set_currentPlayer
            (if bool_decide (p = mark_x ps) then mark_o ps else mark_x ps)).

Definition increaseScore : js (TicTacToe D) unit :=
  let* p := gets currentPlayer in
  let* sc := gets score in
  modify (set_score (<[p := plus_one (sc !! p)]> sc)).

(** [setTimeout(callback, delay)] *)
Definition setTimeout (delay : Z) : js (TicTacToe D) unit :=
  modify (λ t, set_timers (timers t ++ [delay]) t).

Definition gameOver (winner : option string) : js (TicTacToe D) unit :=
  modify (set_waiting true) ;;
  call (printMessage winner) ;;
  let* delay := gets wait in
  setTimeout delay.

Definition resetBoard : js (TicTacToe D) unit :=
  call clearMessage ;;
  call clearGameBoard ;;
  modify (set_board createBoard).

(** The callback [gameOver] hands to [setTimeout]. *)
Definition onTimeout : js (TicTacToe D) unit :=
  resetBoard ;;
  modify (set_waiting false).

(** [board.map(row => row.filter(col => col === '')).filter(row => row.length > 0)] *)
Definition emptyCells (b : Board) : list (list jsval) :=
  List.filter (λ row, bool_decide (0 < Z.of_nat (length row)))
    (List.map (List.filter (λ col, strict_eq col "")) b).

Definition clickCell (row col : Z) : js (TicTacToe D) unit :=
  let* cell := readCell row col in
  let canContinue := strict_eq cell "" in
  let* w := gets waiting in
  if canContinue && negb w then
    let* p := gets currentPlayer in
    writeCell row col (str p) ;;
    let* p := gets currentPlayer in
    call (updateBoard row col p) ;;
    let* win := isGameWon row col in
    let* b := gets board in
    let stalemate := emptyCells b in
    let* w := gets waiting in
    if negb w then
      if win then
        increaseScore ;;
        (let* sc := gets score in
         let* p := gets currentPlayer in
         call (updateScore sc p)) ;;
        let* p := gets currentPlayer in
        gameOver (Some p)
      else if bool_decide (Z.of_nat (length stalemate) < 1) then
        gameOver None
      else
        switchPlayer
    else ret tt
  else ret tt.

(** [clickCell] with the inner [if (!this.waiting)] taken out. *)
Definition clickCell_unguarded (row col : Z) : js (TicTacToe D) unit :=
  let* cell := readCell row col in
  let canContinue := strict_eq cell "" in
  let* w := gets waiting in
  if canContinue && negb w then
    let* p := gets currentPlayer in
    writeCell row col (str p) ;;
    let* p := gets currentPlayer in
    call (updateBoard row col p) ;;
    let* win := isGameWon row col in
    let* b := gets board in
    let stalemate := emptyCells b in
    if win then
      increaseScore ;;
      (let* sc := gets score in
       let* p := gets currentPlayer in
       call (updateScore sc p)) ;;
      let* p := gets currentPlayer in
      gameOver (Some p)
    else if bool_decide (Z.of_nat (length stalemate) < 1) then
      gameOver None
    else
      switchPlayer
  else ret tt.

Definition startGame : js (TicTacToe D) unit :=
  (let* sc := gets score in call (printScoreBoard sc)) ;;
  let* b := gets board in call (printGameBoard b).

(** [new TicTacToe(display)] *)
Definition constructor (d : D) : outcome unit * TicTacToe D :=
  let ps := {| mark_x := "x"; mark_o := "o" |} in
  call (bindHandler clickCell)
    {| display := d; board := createBoard; players := ps;
       wait := 2500; waiting := false;
       score := <["o" := Num 0]> (<["x" := Num 0]> ∅);
       currentPlayer := mark_x ps; timers := [] |}.

End Engine.

(** ** A model of the browser document *)

#[local] Set Warnings "-register-all".

(** A node of the document tree: a text node, or an element with its tag,
    class list, [id], [data-*] attributes and children. *)
Inductive Node :=
| Text (data : string)
| Element (tag : string) (classList : list string) (id : option string)
          (dataset : list (string * string)) (children : list Node).

(** The selectors the program uses, parsed: ['#id'], ['.class'] and
    ['[data-key="value"]']. *)
Inductive selector :=
| ById (id : string)
| ByClass (class : string)
| ByData (key value : string).

(** A reference to an element attached to the document: the child indices
    leading to it from the root. *)
Definition path : Type := list nat.

Definition matches (sel : selector) (n : Node) : bool :=
  match n with
  | Text _ => false
  | Element _ cls id ds _ =>
      match sel with
      | ById i => bool_decide (id = Some i)
      | ByClass c => bool_decide (c ∈ cls)
      | ByData k v => bool_decide ((k, v) ∈ ds)
      end
  end.

(** The first node of a forest, in document order, that passes [test] or
    has a descendant found by [inside]. *)
Fixpoint first_match (test : Node → bool) (inside : Node → option path)
    (i : nat) (l : list Node) : option path :=
  match l with
  | [] => None
  | c :: l' =>
      if test c then Some [i]
      else match inside c with
           | Some p => Some (i :: p)
           | None => first_match test inside (S i) l'
           end
  end.

(** [n.querySelector(sel)]: the first descendant of [n] matching [sel] in
    document order, or [None] for [null]. *)
Fixpoint querySelector (sel : selector) (n : Node) : option path :=
  match n with
  | Text _ => None
  | Element _ _ _ _ ch => first_match (matches sel) (querySelector sel) 0 ch
  end.

Fixpoint all_matches (test : Node → bool) (inside : Node → list path)
    (i : nat) (l : list Node) : list path :=
  match l with
  | [] => []
  | c :: l' =>
      (if test c then [[i]] else []) ++ List.map (cons i) (inside c)
        ++ all_matches test inside (S i) l'
  end.

(** [n.querySelectorAll(sel)]: every descendant matching [sel], in document
    order. *)
Fixpoint querySelectorAll (sel : selector) (n : Node) : list path :=
  match n with
  | Text _ => []
  | Element _ _ _ _ ch => all_matches (matches sel) (querySelectorAll sel) 0 ch
  end.

Fixpoint node_at (p : path) (n : Node) : option Node :=
  match p with
  | [] => Some n
  | i :: p' =>
      match n with
      | Text _ => None
      | Element _ _ _ _ ch => ch !! i ≫= node_at p'
      end
  end.

(** The tree with [f] applied to the node at [p]. *)
Fixpoint alter_at (f : Node → Node) (p : path) (n : Node) : Node :=
  match p with
  | [] => f n
  | i :: p' =>
      match n with
      | Text _ => n
      | Element tag cls id ds ch => Element tag cls id ds (alter (alter_at f p') i ch)
      end
  end.

(** The tree without the node at [p]. *)
Fixpoint remove_at (p : path) (n : Node) : Node :=
  match p, n with
  | [i], Element tag cls id ds ch => Element tag cls id ds (delete i ch)
  | i :: p', Element tag cls id ds ch =>
      Element tag cls id ds (alter (remove_at p') i ch)
  | _, _ => n
  end.

Definition childCount (n : Node) : nat :=
  match n with
  | Text _ => 0
  | Element _ _ _ _ ch => length ch
  end.

(** [parent.append(child)] on a node. *)
Definition appendChild (child : Node) (parent : Node) : Node :=
  match parent with
  | Text _ => parent
  | Element tag cls id ds ch => Element tag cls id ds (ch ++ [child])%list
  end.

(** [n.textContent = s]: the children give way to one text node, or to
    none when [s] is empty. *)
Definition setTextContent (s : string) (n : Node) : Node :=
  match n with
  | Text _ => Text s
  | Element tag cls id ds _ =>
      Element tag cls id ds (if bool_decide (s = "") then [] else [Text s])
  end.

(** [n.id = s] *)
Definition setId (s : string) (n : Node) : Node :=
  match n with
  | Text _ => n
  | Element tag cls _ ds ch => Element tag cls (Some s) ds ch
  end.

(** ASCII whitespace, which [classList.add] refuses in a token. *)
Definition isSpace (c : Ascii.ascii) : bool :=
  bool_decide (Ascii.nat_of_ascii c ∈ [9; 10; 12; 13; 32]%nat).

Fixpoint hasSpace (s : string) : bool :=
  match s with
  | EmptyString => false
  | String c s' => isSpace c || hasSpace s'
  end.

(** The names with which the model reads [`#score-${name}`]: those made of
    lower-case letters, digits, [-] and [_].  With such a name the string is
    one id selector, for the id [score-] followed by the name.  With other
    characters it can be a list of selectors, a selector with a combinator,
    or no selector at all. *)
Definition isNameChar (c : Ascii.ascii) : bool :=
  let n := Ascii.nat_of_ascii c in
  bool_decide (97 ≤ n ≤ 122)%nat || bool_decide (48 ≤ n ≤ 57)%nat
  || bool_decide (n = 45%nat ∨ n = 95%nat).

Fixpoint isName (s : string) : bool :=
  match s with
  | EmptyString => true
  | String c s' => isNameChar c && isName s'
  end.

(** The document: the document node with its children, in a page the one
    root element.  The document node is no element: no selector matches it,
    no element reference denotes it, and what is searched is everything
    below it, the root element included. *)
Record Document := Doc { childNodes : list Node }.

Module Document.

(** [document.querySelector(sel)]: the first element of the document
    matching [sel] in document order, or [None] for [null]. *)
Definition querySelector (sel : selector) (d : Document) : option path :=
  first_match (matches sel) (querySelector sel) 0 (childNodes d).

(** [document.querySelectorAll(sel)]: every element of the document
    matching [sel], in document order. *)
Definition querySelectorAll (sel : selector) (d : Document) : list path :=
  all_matches (matches sel) (querySelectorAll sel) 0 (childNodes d).

(** The element a reference denotes, from the document node down. *)
Definition node_at (p : path) (d : Document) : option Node :=
  match p with
  | [] => None
  | i :: p' => childNodes d !! i ≫= node_at p'
  end.

(** The document with [f] applied to the element at [p]. *)
Definition alter_at (f : Node → Node) (p : path) (d : Document) : Document :=
  match p with
  | [] => d
  | i :: p' => Doc (alter (alter_at f p') i (childNodes d))
  end.

(** The document without the element at [p]; [element.remove()] on the
    root element leaves the document empty. *)
Definition remove_at (p : path) (d : Document) : Document :=
  match p with
  | [] => d
  | [i] => Doc (delete i (childNodes d))
  | i :: p' => Doc (alter (remove_at p') i (childNodes d))
  end.

End Document.

Arguments Document.querySelector sel !d /.
Arguments Document.querySelectorAll sel !d /.
Arguments Document.node_at !p !d /.
Arguments Document.alter_at f !p !d /.
Arguments Document.remove_at !p !d /.

Module DOM.

(** [createElement(tag, className?, dataset?)].  The element is not yet
    in the document, so it is returned as a value.  A class name is added
    when it is truthy, that is a non-empty string; the callers pass as
    [dataset] a name and an index. *)
Definition createElement (tag : string) (className : option string)
    (dataset : option (string * Z)) : js Document Node :=
  let* cls :=
    match className with
    | Some c =>
        if bool_decide (c = "") then ret []
        else if hasSpace c then throw InvalidCharacterError
        else ret [c]
    | None => ret []
    end in
  let ds :=
    match dataset with
    | Some (k, v) => [(k, pretty v)]
    | None => []
    end in
  ret (Element tag cls None ds []).

(** [document.querySelector(selector)] *)
Definition getElement (sel : selector) : js Document (option path) :=
  gets (Document.querySelector sel).

(** [document.querySelectorAll(selector)] *)
Definition getAllElements (sel : selector) : js Document (list path) :=
  gets (Document.querySelectorAll sel).

(** [parent.querySelector(selector)] on an element reference, [null]
    included. *)
Definition querySelectorIn (parent : option path) (sel : selector)
    : js Document (option path) :=
  match parent with
  | None => throw TypeError
  | Some p =>
      let* doc := gets id in
      ret (app p <$> (Document.node_at p doc ≫= querySelector sel))
  end.

(** [parent.append(child)] on an element reference, [null] included.  The
    result is the reference by which the child is known from then on. *)
Definition append (parent : option path) (child : Node) : js Document path :=
  match parent with
  | None => throw TypeError
  | Some p =>
      let* doc := gets id in
      let k := default 0%nat (childCount <$> Document.node_at p doc) in
      modify (Document.alter_at (appendChild child) p) ;;
      ret (p ++ [k])%list
  end.

(** [array.forEach((item, i) => body)] *)
Fixpoint forEach {A} (body : A → Z → js Document unit) (i : Z) (l : list A)
    : js Document unit :=
  match l with
  | [] => ret tt
  | a :: l' => body a i ;; forEach body (i + 1) l'
  end.

(** [bindHandler(clickHandler)] registers a listener and leaves the
    document as it is.  What the listener does (a click on the cell element
    of row [r] and column [c] calls [clickHandler(r, c)], any other click
    is ignored) is the [Click] event of the event loop below. *)
Definition bindHandler (clickHandler : Z → Z → js (TicTacToe Document) unit)
    : js Document unit :=
  ret tt.

Definition printGameBoard (boardData : Board) : js Document unit :=
  let* game := getElement (ById "game") in
  let* gameBoard := createElement "div" (Some "board") None in
  let* gameBoard := append game gameBoard in
  forEach (λ row i,
    let* boardRow := createElement "div" (Some "row") (Some ("row", i)) in
    let* boardRow := append (Some gameBoard) boardRow in
    forEach (λ col j,
      let* boardCol := createElement "div" (Some "col") (Some ("col", j)) in
      append (Some boardRow) boardCol ;;
      ret tt) 0 row) 0 boardData.

Definition updateBoard (row col : Z) (currentPlayer : string)
    : js Document unit :=
  let* PlayerMark := createElement "span" (Some currentPlayer) None in
  let PlayerMark := setTextContent currentPlayer PlayerMark in
  let* boardRow := getElement (ByData "row" (pretty row)) in
  let* cell := querySelectorIn boardRow (ByData "col" (pretty col)) in
  append cell PlayerMark ;;
  ret tt.

Definition clearGameBoard : js Document unit :=
  let* cells := getAllElements (ByClass "col") in
  modify (λ doc,
    foldl (λ d cell, Document.alter_at (setTextContent "") cell d) doc cells).

Definition printScoreBoard (scoreData : Score) : js Document unit :=
  let* game := getElement (ById "game") in
  let* scoreBoard := createElement "div" (Some "score") None in
  let* scoreBoard := append game scoreBoard in
  let* playerOneScore := createElement "div" (Some "x") None in
  let playerOneScore :=
    setTextContent ("Player 1: " +:+ show (scoreData !! "x")) playerOneScore in
  let playerOneScore := setId "score-x" playerOneScore in
  let* playerTwoScore := createElement "div" (Some "o") None in
  let playerTwoScore :=
    setTextContent ("Player 2: " +:+ show (scoreData !! "o")) playerTwoScore in
  let playerTwoScore := setId "score-o" playerTwoScore in
  append (Some scoreBoard) playerOneScore ;;
  append (Some scoreBoard) playerTwoScore ;;
  ret tt.

(** [updateScore(currentScore, currentPlayer)].  The player is pasted into
    the selector string; the model reads the string when the player is a
    name, see [isName]. *)
Definition updateScore (currentScore : Score) (currentPlayer : string)
    : js Document unit :=
  let* currentPlayerScore :=
    if isName currentPlayer then getElement (ById ("score-" +:+ currentPlayer))
    else throw Unparsed in
  let player := if bool_decide (currentPlayer = "x") then "Player 1" else "Player 2" in
  let d := currentScore !! currentPlayer in
  match currentPlayerScore with
  | None => throw TypeError
  | Some e =>
      modify (Document.alter_at (setTextContent (player +:+ ": " +:+ show d)) e)
  end.

(** [printMessage(winner)]; [winner] is truthy when it is a non-empty
    string. *)
Definition printMessage (winner : option string) : js Document unit :=
  let* message := createElement "div" (Some "message") None in
  let player := if bool_decide (winner = Some "x") then "Player 1" else "Player 2" in
  let truthy := match winner with Some w => negb (bool_decide (w = "")) | None => false end in
  let message :=
    setTextContent (if truthy then player +:+ " wins!" else "Nobody wins!") message in
  let* game := getElement (ById "game") in
  append game message ;;
  ret tt.

Definition clearMessage : js Document unit :=
  let* message := getElement (ByClass "message") in
  match message with
  | None => throw TypeError
  | Some e => modify (Document.remove_at e)
  end.

End DOM.

(** [class DOM implements Display] *)
Global Instance DOM_Display : Display Document := {
  bindHandler := DOM.bindHandler;
  printGameBoard := DOM.printGameBoard;
  updateBoard := DOM.updateBoard;
  clearGameBoard := DOM.clearGameBoard;
  printScoreBoard := DOM.printScoreBoard;
  updateScore := DOM.updateScore;
  printMessage := DOM.printMessage;
  clearMessage := DOM.clearMessage
}.

(** ** The running game *)

(** Modelled from the spec: the page that loads the script is not part of
    the sources; the spec places the whole output under a root container
    [#game], here an empty element of the page's body.  What else the page
    holds is left out. *)
Definition page : Document :=
  Doc [Element "html" [] None []
         [Element "body" [] None [] [Element "div" [] (Some "game") [] []]]].

(** The two statements of the script, [new TicTacToe(new DOM())] and
    [ticTacToe.startGame()], run on a page; the second runs when the first
    has returned. *)
Definition script (pg : Document) : outcome unit * TicTacToe Document :=
  match constructor pg with
  | (Return _, t) => startGame t
  | (Throw e, t) => (Throw e, t)
  end.

(** The game as the script leaves it. *)
Definition boot : TicTacToe Document := (script page).2.

(** What the browser delivers: a click for which the listener calls
    [clickCell(row, col)], and the expiry of the oldest pending timer.  The
    listener reads [row] and [col] off a cell element; the loop takes them
    for any two integers, the cells' included. *)
Inductive event :=
| Click (row col : Z)
| Timeout.

(** One turn of the event loop.  An exception ends the handler; the state
    stays as the handler left it. *)
Definition handle (e : event) (t : TicTacToe Document) : TicTacToe Document :=
  match e with
  | Click row col => (clickCell row col t).2
  | Timeout =>
      match timers t with
      | [] => t
      | _ :: ts => (onTimeout (set_timers ts t)).2
      end
  end.

Definition run (es : list event) (t : TicTacToe Document) : TicTacToe Document :=
  foldl (λ t e, handle e t) t es.

Definition reachable (t : TicTacToe Document) : Prop := ∃ es, t = run es boot.

(** ** Notions used in the statements *)

(** The cell [board[row][col]] as a value, when both indices name an
    element. *)
Definition cellAt (b : Board) (row col : Z) : option jsval :=
  index b row ≫= λ r, index r col.

(** The eight winning lines: three rows, three columns, two diagonals. *)
Definition lines : list (list (Z * Z)) :=
  [ [(0, 0); (0, 1); (0, 2)]; [(1, 0); (1, 1); (1, 2)]; [(2, 0); (2, 1); (2, 2)];
    [(0, 0); (1, 0); (2, 0)]; [(0, 1); (1, 1); (2, 1)]; [(0, 2); (1, 2); (2, 2)];
    [(0, 0); (1, 1); (2, 2)]; [(2, 0); (1, 1); (0, 2)] ].

(** Whether no cell of the board reads as the empty string. *)
Definition full (b : Board) : bool :=
  forallb (forallb (λ v, negb (strict_eq v ""))) b.

(** The board after [board[row][col] = v]. *)
Definition written (b : Board) (row col : Z) (v : jsval) : Board :=
  match index b row with
  | Some r => <[Z.to_nat row := assign r col v]> b
  | None => b
  end.

(** The four line checks of [isGameWon] on a board, for a mark. *)
Definition wonAt (b : Board) (p : string) (row col : Z) : bool :=
  let has i j := bool_decide (cellAt b i j = Some (str p)) in
  has 0 col && has 1 col && has 2 col
  || has row 0 && has row 1 && has row 2
  || (has 0 0 && has 1 1 && has 2 2 || has 2 0 && has 1 1 && has 0 2).

Section EngineNotions.
Context {D : Type} `{Display D}.
Implicit Types (t : TicTacToe D) (row col : Z).

(** Whether the cell holds the current player's mark. *)
Definition owned t (i j : Z) : bool :=
  bool_decide (cellAt (board t) i j = Some (str (currentPlayer t))).

Definition readonly {S A} (m : js S A) : Prop := ∀ s, (m s).2 = s.

(** The mark is written to the board and drawn. *)
Definition place row col : js (TicTacToe D) unit :=
  let* p := gets currentPlayer in
  writeCell row col (str p) ;;
  let* p := gets currentPlayer in
  call (updateBoard row col p).

(** What follows once the round's result is known. *)
Definition conclude (win : bool) (b : Board) : js (TicTacToe D) unit :=
  if win then
    increaseScore ;;
    (let* sc := gets score in
     let* p := gets currentPlayer in
     call (updateScore sc p)) ;;
    let* p := gets currentPlayer in
    gameOver (Some p)
  else if bool_decide (Z.of_nat (length (emptyCells b)) < 1) then
    gameOver None
  else
    switchPlayer.

Definition settle row col : js (TicTacToe D) unit :=
  let* win := isGameWon row col in
  let* b := gets board in
  let* w := gets waiting in
  if negb w then conclude win b else ret tt.

Definition settle_unguarded row col : js (TicTacToe D) unit :=
  let* win := isGameWon row col in
  let* b := gets board in
  conclude win b.

(** Whether the current player's mark fills the line. *)
Definition filled t (line : list (Z * Z)) : bool :=
  forallb (λ '(i, j), owned t i j) line.

End EngineNotions.

(** *** The document the game draws *)

(** The mark of a player in a cell, as [updateBoard] builds it. *)
Definition mark (p : string) : Node := Element "span" [p] None [] [Text p].

(** The message element, as [printMessage] builds it. *)
Definition messageEl (m : string) : Node :=
  Element "div" ["message"] None [] [Text m].

(** The children of the cell element that shows a board cell. *)
Definition marks (v : jsval) : list Node :=
  match v with
  | str EmptyString | undefined => []
  | str p => [mark p]
  end.

(** The page once the score board and the game board are drawn: the two
    score texts, the children of each of the nine cells, and what follows
    the board under [#game]. *)
Definition drawn (tx to : string) (m : nat → nat → list Node) (msgs : list Node)
    : Document :=
  let cell i j := Element "div" ["col"] None [("col", pretty (Z.of_nat j))] (m i j) in
  let row i :=
    Element "div" ["row"] None [("row", pretty (Z.of_nat i))]
      [cell i 0%nat; cell i 1%nat; cell i 2%nat] in
  Doc [Element "html" [] None []
         [Element "body" [] None []
            [Element "div" [] (Some "game") []
               (Element "div" ["score"] None []
                  [Element "div" ["x"] (Some "score-x") [] [Text tx];
                   Element "div" ["o"] (Some "score-o") [] [Text to]]
                :: Element "div" ["board"] None []
                     [row 0%nat; row 1%nat; row 2%nat]
                :: msgs)]]].

(** The document as a function of the game's state. *)
Definition view (b : Board) (sc : Score) (msgs : list Node) : Document :=
  drawn ("Player 1: " +:+ show (sc !! "x")) ("Player 2: " +:+ show (sc !! "o"))
    (λ i j, marks (default undefined (cellAt b (Z.of_nat i) (Z.of_nat j)))) msgs.

(** The text [printMessage] shows. *)
Definition messageText (winner : option string) : string :=
  if match winner with Some w => negb (bool_decide (w = "")) | None => false end
  then (if bool_decide (winner = Some "x") then "Player 1" else "Player 2") +:+ " wins!"
  else "Nobody wins!".

(** Cell children with one more node in the cell at [(r, c)]. *)
Definition add (m : nat → nat → list Node) (r c : nat) (x : Node)
    : nat → nat → list Node :=
  λ i j, if bool_decide (i = r ∧ j = c) then (m i j ++ [x])%list else m i j.

(** A node that neither matches a selector nor holds a match. *)
Definition silent (sel : selector) (n : Node) : Prop :=
  matches sel n = false ∧ querySelector sel n = None ∧ querySelectorAll sel n = [].

(** The cells of a board in play. *)
Definition cell_ok (v : jsval) : Prop := v = str "" ∨ v = str "x" ∨ v = str "o".

Definition board_ok (b : Board) : Prop :=
  length b = 3%nat ∧ Forall (λ r, length r = 3%nat ∧ Forall cell_ok r) b.

(** What holds of every state the game can be in: the board is three by
    three with cells that are empty or hold a mark, the current player is
    one of the two marks, both win counts are integers from 0 to [2^53],
    the document shows the board and the score, and a message is shown and
    a reset is pending exactly while [waiting] is true. *)
Record consistent (t : TicTacToe Document) : Prop := {
  ok_board : board_ok (board t);
  ok_players : players t = {| mark_x := "x"; mark_o := "o" |};
  ok_wait : wait t = 2500;
  ok_player : currentPlayer t = "x" ∨ currentPlayer t = "o";
  ok_score : ∃ nx no, score t !! "x" = Some (Num nx) ∧ score t !! "o" = Some (Num no)
                      ∧ 0 ≤ nx ≤ max_exact ∧ 0 ≤ no ≤ max_exact;
  ok_display :
    if waiting t
    then timers t = [2500] ∧ ∃ m, display t = view (board t) (score t) [messageEl m]
    else timers t = [] ∧ display t = view (board t) (score t) []
}.

(** Cell children that no selector of the program can find: it uses
    none on the classes of the marks. *)
Definition quiet (m : nat → nat → list Node) : Prop :=
  ∀ sel i j, sel ≠ ByClass "x" → sel ≠ ByClass "o" → Forall (silent sel) (m i j).

(** The state in which an accepted click leaves the game, given the state
    [t1] in which the mark is placed, whether the move won and whether the
    board is full. *)
Definition concluded (win stale : bool) (t1 : TicTacToe Document)
    : TicTacToe Document :=
  let p := currentPlayer t1 in
  if win then
    let sc := <[p := plus_one (score t1 !! p)]> (score t1) in
    {| display := view (board t1) sc [messageEl (messageText (Some p))];
       board := board t1; players := players t1; wait := wait t1;
       waiting := true; score := sc; currentPlayer := p;
       timers := [2500] |}
  else if stale then
    {| display := view (board t1) (score t1) [messageEl (messageText None)];
       board := board t1; players := players t1; wait := wait t1;
       waiting := true; score := score t1; currentPlayer := p;
       timers := [2500] |}
  else set_currentPlayer (if bool_decide (p = "x") then "o" else "x") t1.

(** The state after the reset. *)
Definition afterReset (t : TicTacToe Document) : TicTacToe Document :=
  {| display := view createBoard (score t) []; board := createBoard;
     players := players t; wait := wait t; waiting := false;
     score := score t; currentPlayer := currentPlayer t; timers := [] |}.

(** [n.textContent]: the text of the node and of its descendants. *)
Fixpoint textContent (n : Node) : string :=
  match n with
  | Text s => s
  | Element _ _ _ _ ch => String.concat "" (List.map textContent ch)
  end.

(** The texts of the message elements of the document, in document order. *)
Definition messages (d : Document) : list string :=
  omap (λ p, textContent <$> Document.node_at p d)
    (Document.querySelectorAll (ByClass "message") d).

(** ** What the engine does, for any display *)

(** Unfolds the monad's combinators. *)
Ltac js_simpl :=
  cbv beta iota zeta delta [bind ret throw gets modify call andM orM].

Section EngineFacts.
Context {D : Type} `{Display D}.
Implicit Types (t : TicTacToe D) (row col : Z).

Lemma index_Some_range {A} (a : list A) i x :
  index a i = Some x → 0 ≤ i < Z.of_nat (length a).
Proof.
  unfold index. case_bool_decide; [|done].
  intros Hx%lookup_lt_Some. lia.
Qed.

Lemma index_None_range {A} (a : list A) i :
  index a i = None ↔ ¬ (0 ≤ i < Z.of_nat (length a)).
Proof.
  unfold index. case_bool_decide.
  - rewrite lookup_ge_None. lia.
  - split; [lia|done].
Qed.

Lemma readCell_row t row col r :
  index (board t) row = Some r →
  readCell row col t = (Return (default undefined (index r col)), t).
Proof. intros Hr. unfold readCell, bind, gets. simpl. by rewrite Hr. Qed.

Lemma readCell_no_row t row col :
  index (board t) row = None → readCell row col t = (Throw TypeError, t).
Proof. intros Hr. unfold readCell, bind, gets. simpl. by rewrite Hr. Qed.

Lemma readCell_cellAt t row col v :
  cellAt (board t) row col = Some v → readCell row col t = (Return v, t).
Proof.
  unfold cellAt. destruct (index (board t) row) as [r|] eqn:Hr; [|done].
  simpl. intros Hv. rewrite (readCell_row _ _ _ r Hr). by rewrite Hv.
Qed.

(** Reading never changes the state. *)
Lemma readCell_state t row col : (readCell row col t).2 = t.
Proof.
  destruct (index (board t) row) as [r|] eqn:Hr.
  - by rewrite (readCell_row _ _ _ r Hr).
  - by rewrite (readCell_no_row _ _ _ Hr).
Qed.

Lemma mine_row t i j r :
  index (board t) i = Some r → mine i j t = (Return (owned t i j), t).
Proof.
  intros Hr. unfold mine, bind. rewrite (readCell_row _ _ _ r Hr).
  unfold gets, ret, owned, cellAt, strict_eq. rewrite Hr. simpl.
  do 2 f_equal. apply bool_decide_ext.
  destruct (index r j) as [v|]; simpl; split; congruence.
Qed.

Lemma andM_pure {S} (a b : js S bool) s x y :
  a s = (Return x, s) → b s = (Return y, s) →
  (a &&& b) s = (Return (x && y), s).
Proof. intros Ha Hb. unfold andM, bind. rewrite Ha. destruct x; auto. Qed.

Lemma orM_pure {S} (a b : js S bool) s x y :
  a s = (Return x, s) → b s = (Return y, s) →
  (a ||| b) s = (Return (x || y), s).
Proof. intros Ha Hb. unfold orM, bind. rewrite Ha. destruct x; auto. Qed.

(** On a board of three rows, and for a row index inside it, the win
    check is the disjunction of the four line checks. *)
Lemma isGameWon_checks t row col :
  length (board t) = 3%nat → 0 ≤ row ≤ 2 →
  isGameWon row col t =
    (Return (owned t 0 col && owned t 1 col && owned t 2 col
             || owned t row 0 && owned t row 1 && owned t row 2
             || (owned t 0 0 && owned t 1 1 && owned t 2 2
                 || owned t 2 0 && owned t 1 1 && owned t 0 2)), t).
Proof.
  intros Hlen Hrow.
  assert (Hget : ∀ i, 0 ≤ i ≤ 2 → ∃ r, index (board t) i = Some r).
  { intros i Hi. destruct (index (board t) i) as [r|] eqn:Hr; [eauto|].
    apply index_None_range in Hr. lia. }
  assert (Hmine : ∀ i j, 0 ≤ i ≤ 2 → mine i j t = (Return (owned t i j), t)).
  { intros i j Hi. destruct (Hget i Hi) as [r Hr]. eapply mine_row, Hr. }
  unfold isGameWon, bind.
  erewrite orM_pure; [| |].
  2:{ apply orM_pure; (apply andM_pure; [apply andM_pure|]); apply Hmine; lia. }
  2:{ apply orM_pure; (apply andM_pure; [apply andM_pure|]); apply Hmine; lia. }
  match goal with |- (if ?b then _ else _) _ = _ => by destruct b end.
Qed.

(** *** Computations that only read *)

Lemma readonly_ret {S A} (a : A) : readonly (S:=S) (ret a).
Proof. done. Qed.

Lemma readonly_throw {S A} e : readonly (S:=S) (A:=A) (throw e).
Proof. done. Qed.

Lemma readonly_gets {S A} (f : S → A) : readonly (gets f).
Proof. done. Qed.

Lemma readonly_bind {S A B} (m : js S A) (k : A → js S B) :
  readonly m → (∀ a, readonly (k a)) → readonly (bind m k).
Proof.
  intros Hm Hk s. unfold bind. specialize (Hm s).
  destruct (m s) as [[a|e] s']; simpl in *; subst; [apply Hk|done].
Qed.

Lemma readonly_andM {S} (a b : js S bool) :
  readonly a → readonly b → readonly (a &&& b).
Proof.
  intros Ha Hb. apply readonly_bind; [done|].
  intros []; [done|apply readonly_ret].
Qed.

Lemma readonly_orM {S} (a b : js S bool) :
  readonly a → readonly b → readonly (a ||| b).
Proof.
  intros Ha Hb. apply readonly_bind; [done|].
  intros []; [apply readonly_ret|done].
Qed.

Lemma readonly_readCell row col : readonly (S:=TicTacToe D) (readCell row col).
Proof. intros t. apply readCell_state. Qed.

Lemma readonly_mine row col : readonly (S:=TicTacToe D) (mine row col).
Proof.
  apply readonly_bind; [apply readonly_readCell|]. intros v.
  apply readonly_bind; [apply readonly_gets|]. intros p. apply readonly_ret.
Qed.

Lemma readonly_isGameWon row col : readonly (S:=TicTacToe D) (isGameWon row col).
Proof.
  apply readonly_bind.
  - repeat first [apply readonly_orM | apply readonly_andM | apply readonly_mine].
  - intros []; apply readonly_ret.
Qed.

(** *** The two halves of an accepted click *)

Lemma bind_assoc {S A B C} (m : js S A) (f : A → js S B) (g : B → js S C) s :
  bind (bind m f) g s = bind m (λ a, bind (f a) g) s.
Proof. unfold bind. by destruct (m s) as [[a|e] s']. Qed.

Lemma bind_ext {S A B} (m : js S A) (k1 k2 : A → js S B) s :
  (∀ a s', m s = (Return a, s') → k1 a s' = k2 a s') →
  bind m k1 s = bind m k2 s.
Proof. intros Hk. unfold bind. destruct (m s) as [[a|e] s']; auto. Qed.

Lemma clickCell_unfold row col t :
  clickCell row col t =
    (let* cell := readCell row col in
     let* w := gets waiting in
     if strict_eq cell "" && negb w then place row col ;; settle row col
     else ret tt) t.
Proof.
  unfold clickCell. apply bind_ext; intros v t' _. apply bind_ext; intros w t'' _.
  destruct (strict_eq v "" && negb w); [|done].
  unfold place. rewrite !bind_assoc. apply bind_ext; intros p t1 _.
  rewrite !bind_assoc. apply bind_ext; intros [] t2 _.
  rewrite !bind_assoc. apply bind_ext; intros p' t3 _. done.
Qed.

Lemma clickCell_unguarded_unfold row col t :
  clickCell_unguarded row col t =
    (let* cell := readCell row col in
     let* w := gets waiting in
     if strict_eq cell "" && negb w then place row col ;; settle_unguarded row col
     else ret tt) t.
Proof.
  unfold clickCell_unguarded. apply bind_ext; intros v t' _.
  apply bind_ext; intros w t'' _.
  destruct (strict_eq v "" && negb w); [|done].
  unfold place. rewrite !bind_assoc. apply bind_ext; intros p t1 _.
  rewrite !bind_assoc. apply bind_ext; intros [] t2 _.
  rewrite !bind_assoc. apply bind_ext; intros p' t3 _. done.
Qed.

(** A click on a cell that does not read as empty, or during the wait,
    returns at once. *)
Lemma clickCell_rejected t row col v :
  readCell row col t = (Return v, t) →
  strict_eq v "" && negb (waiting t) = false →
  clickCell row col t = (Return tt, t).
Proof.
  intros Hv Hg. rewrite clickCell_unfold. unfold bind at 1. rewrite Hv.
  unfold bind, gets. by rewrite Hg.
Qed.

(** An accepted click is the placing of the mark followed by the
    settling of the round. *)
Lemma clickCell_accepted t row col :
  cellAt (board t) row col = Some (str "") → waiting t = false →
  clickCell row col t = (place row col ;; settle row col) t.
Proof.
  intros Hv Hw. rewrite clickCell_unfold. unfold bind at 1.
  rewrite (readCell_cellAt _ _ _ _ Hv). unfold bind at 1, gets at 1.
  by rewrite Hw.
Qed.

(** Placing the mark leaves every field but [board] and [display] alone. *)
Lemma place_frame t row col :
  let t' := (place row col t).2 in
  players t' = players t ∧ wait t' = wait t ∧ waiting t' = waiting t ∧
  score t' = score t ∧ currentPlayer t' = currentPlayer t ∧
  timers t' = timers t.
Proof.
  unfold place, writeCell. js_simpl.
  destruct (index (board t) row) as [r|]; simpl; [|done].
  by destruct (updateBoard _ _ _ _) as [[[]|e] d].
Qed.

Lemma gets_inv {S A} (f : S → A) s a s' :
  gets f s = (Return a, s') → a = f s ∧ s' = s.
Proof. unfold gets. by intros [= <- <-]. Qed.

Lemma settle_not_waiting t row col :
  waiting t = false → settle row col t = settle_unguarded row col t.
Proof.
  intros Hw. unfold settle, settle_unguarded.
  apply bind_ext; intros win t1 Hwin.
  assert (t1 = t) as ->.
  { pose proof (readonly_isGameWon row col t) as Hro. by rewrite Hwin in Hro. }
  apply bind_ext; intros b t2 [-> ->]%gets_inv.
  unfold bind, gets. by rewrite Hw.
Qed.

(** C1.  On a board of three rows the win check, pivoted on a cell
    [(row, col)] with [row] in 0..2, is exactly the disjunction of four
    checks: column [col], row [row] and the two diagonals.  Hence, for
    each of the eight winning lines filled with the mark of the current
    player [p] and each cell [(row, col)] of that line taken as the move
    just played, [isGameWon row col] returns true. *)
Theorem isGameWon_winning_lines t p :
  length (board t) = 3%nat → currentPlayer t = p →
  (∀ row col, 0 ≤ row ≤ 2 →
     isGameWon row col t =
       (Return (filled t [(0, col); (1, col); (2, col)]
                || filled t [(row, 0); (row, 1); (row, 2)]
                || (filled t [(0, 0); (1, 1); (2, 2)]
                    || filled t [(2, 0); (1, 1); (0, 2)])), t))
  ∧ (∀ line row col,
       line ∈ lines → (row, col) ∈ line →
       (∀ i j, (i, j) ∈ line → cellAt (board t) i j = Some (str p)) →
       isGameWon row col t = (Return true, t)).
Proof.
  intros Hlen <-.
  assert (Hchk : ∀ row col, 0 ≤ row ≤ 2 →
    isGameWon row col t =
      (Return (filled t [(0, col); (1, col); (2, col)]
               || filled t [(row, 0); (row, 1); (row, 2)]
               || (filled t [(0, 0); (1, 1); (2, 2)]
                   || filled t [(2, 0); (1, 1); (0, 2)])), t)).
  { intros row col Hrow. rewrite isGameWon_checks by done.
    unfold filled. simpl. by rewrite !andb_true_r, !andb_assoc. }
  split; [done|].
  intros line row col Hline Hcell Hown.
  assert (Hf : filled t line = true).
  { apply forallb_forall. intros [i j] Hij%list_elem_of_In.
    apply bool_decide_eq_true_2. auto. }
  clear Hown. unfold lines in Hline.
  rewrite !elem_of_cons, elem_of_nil in Hline.
  destruct_or!; try done; subst line;
    rewrite !elem_of_cons, elem_of_nil in Hcell;
    destruct_or!; try done; simplify_eq;
    (rewrite Hchk by lia); rewrite Hf; by rewrite ?orb_true_r.
Qed.

(** C2.  A click on a cell that holds anything but the empty string
    returns normally and leaves the whole state as it was: the board, the
    current player, the score and the waiting flag in particular. *)
Theorem clickCell_occupied_noop t row col v :
  cellAt (board t) row col = Some v → v ≠ str "" →
  clickCell row col t = (Return tt, t).
Proof.
  intros Hv Hne. apply (clickCell_rejected _ _ _ v).
  - by apply readCell_cellAt.
  - unfold strict_eq. by rewrite bool_decide_eq_false_2.
Qed.

(** C3.  While [waiting] is true a click changes nothing, whatever the
    cell: the state after [clickCell] is the state before it. *)
Theorem clickCell_waiting_noop t row col :
  waiting t = true → (clickCell row col t).2 = t.
Proof.
  intros Hw. destruct (index (board t) row) as [r|] eqn:Hr.
  - erewrite clickCell_rejected; [done|by apply readCell_row|].
    rewrite Hw. apply andb_false_r.
  - rewrite clickCell_unfold. unfold bind at 1.
    by rewrite (readCell_no_row _ _ _ Hr).
Qed.

(** C9.  [clickCell] does not check its indices.  On a board of three
    rows, a row index outside 0..2 makes its first read
    [board[row][col]] throw, and the click ends there with the state
    untouched; a row index inside 0..2 makes that read return. *)
Theorem clickCell_faults_outside_rows t col :
  length (board t) = 3%nat →
  (∀ row, ¬ (0 ≤ row ≤ 2) →
     readCell row col t = (Throw TypeError, t) ∧
     clickCell row col t = (Throw TypeError, t))
  ∧ (∀ row, 0 ≤ row ≤ 2 → ∃ v, readCell row col t = (Return v, t)).
Proof.
  intros Hlen. split.
  - intros row Hrow.
    assert (Hr : index (board t) row = None) by (apply index_None_range; lia).
    split; [by apply readCell_no_row|].
    rewrite clickCell_unfold. unfold bind at 1.
    by rewrite (readCell_no_row _ _ _ Hr).
  - intros row Hrow. destruct (index (board t) row) as [r|] eqn:Hr.
    + eexists. by apply readCell_row.
    + apply index_None_range in Hr. lia.
Qed.

(** C10.  The second test of [waiting] inside [clickCell] never fails:
    with that test removed the function yields the same result and the
    same final state, from every state and for every argument. *)
Theorem clickCell_inner_check_redundant row col t :
  clickCell row col t = clickCell_unguarded row col t.
Proof.
  rewrite clickCell_unfold, clickCell_unguarded_unfold.
  apply bind_ext; intros v t1 _. apply bind_ext; intros w t2 [-> ->]%gets_inv.
  destruct (strict_eq v "" && negb (waiting t1)) eqn:Hg; [|done].
  apply andb_true_iff in Hg as [_ Hw%negb_true_iff].
  apply bind_ext; intros [] t3 Hplace. apply settle_not_waiting.
  destruct (place_frame t1 row col) as (_ & _ & Hw' & _).
  rewrite Hplace in Hw'. simpl in Hw'. congruence.
Qed.

Lemma isGameWon_wonAt t row col :
  length (board t) = 3%nat → 0 ≤ row ≤ 2 →
  isGameWon row col t = (Return (wonAt (board t) (currentPlayer t) row col), t).
Proof. intros Hl Hr. rewrite isGameWon_checks by done. reflexivity. Qed.

Lemma stalemate_full (b : Board) :
  bool_decide (Z.of_nat (length (emptyCells b)) < 1) = full b.
Proof.
  unfold emptyCells, full. induction b as [|r b IH]; [done|].
  simpl. rewrite <- IH. clear IH.
  assert (Hr : bool_decide (0 < Z.of_nat (length (List.filter (λ v : jsval, strict_eq v "") r)))
               = negb (forallb (λ v, negb (strict_eq v "")) r)).
  { induction r as [|v r IHr]; [done|]. simpl.
    destruct (strict_eq v ""); simpl; [|done].
    first [done | apply bool_decide_eq_true_2; lia]. }
  rewrite Hr. destruct (forallb _ r); simpl; [done|].
  first [done | apply bool_decide_eq_false_2; lia].
Qed.

End EngineFacts.

(** ** Facts about trees and selectors *)

#[local] Set Warnings "-clear-no-such-hyp".

Section Trees.
Implicit Types (sel : selector) (n c : Node) (l ch : list Node) (p : path).

(** Induction on a node with the hypothesis for every child. *)
Lemma Node_forest_ind (P : Node → Prop) :
  (∀ s, P (Text s)) →
  (∀ tag cls i ds ch, Forall P ch → P (Element tag cls i ds ch)) →
  ∀ n, P n.
Proof.
  intros HT HE. fix IH 1. intros [s|tag cls i ds ch]; [apply HT|].
  apply HE. induction ch as [|c ch IHch]; constructor; [apply IH|apply IHch].
Qed.

Lemma first_match_None sel l i :
  first_match (matches sel) (querySelector sel) i l = None ↔
  Forall (λ c, matches sel c = false ∧ querySelector sel c = None) l.
Proof.
  revert i. induction l as [|c l IH]; intros i; simpl.
  - split; [constructor|done].
  - rewrite Forall_cons. destruct (matches sel c); [naive_solver|].
    destruct (querySelector sel c); [naive_solver|]. rewrite IH. naive_solver.
Qed.

Lemma all_matches_nil sel l i :
  all_matches (matches sel) (querySelectorAll sel) i l = [] ↔
  Forall (λ c, matches sel c = false ∧ querySelectorAll sel c = []) l.
Proof.
  revert i. induction l as [|c l IH]; intros i; simpl.
  - split; [constructor|done].
  - rewrite Forall_cons, <- (IH (S i)).
    destruct (matches sel c); simpl; [naive_solver|].
    destruct (querySelectorAll sel c); simpl; naive_solver.
Qed.

(** [querySelector] finds nothing exactly when [querySelectorAll] does. *)
Lemma querySelector_None sel n :
  querySelector sel n = None ↔ querySelectorAll sel n = [].
Proof.
  induction n as [s|tag cls i ds ch IH] using Node_forest_ind; [done|].
  simpl. rewrite first_match_None, all_matches_nil.
  induction IH as [|c ch Hc _ IHch]; [done|].
  rewrite !Forall_cons, Hc, IHch. done.
Qed.

Lemma first_match_is_Some sel l i j c :
  l !! j = Some c →
  matches sel c = true ∨ is_Some (querySelector sel c) →
  is_Some (first_match (matches sel) (querySelector sel) i l).
Proof.
  intros Hj Hc. destruct (first_match _ _ i l) eqn:E; [done|].
  apply first_match_None in E. eapply Forall_lookup_1 in E as [E1 E2]; [|done].
  destruct Hc as [Hc | [q Hc]]; congruence.
Qed.

Lemma first_match_Some sel l i p :
  first_match (matches sel) (querySelector sel) i l = Some p →
  ∃ j c q, l !! j = Some c ∧ p = (i + j)%nat :: q ∧
           (q = [] ∧ matches sel c = true ∨ querySelector sel c = Some q).
Proof.
  revert i. induction l as [|c l IH]; intros i Hp; [done|].
  simpl in Hp. destruct (matches sel c) eqn:Hm.
  { injection Hp as <-. exists 0%nat, c, []. rewrite Nat.add_0_r. auto. }
  destruct (querySelector sel c) as [q|] eqn:Hq.
  { injection Hp as <-. exists 0%nat, c, q. rewrite Nat.add_0_r. auto. }
  destruct (IH _ Hp) as (j & c' & q & Hj & -> & Hq').
  exists (S j), c', q. split; [done|]. split; [f_equal; lia|done].
Qed.

(** The path [querySelector] returns leads to an element that matches. *)
Lemma querySelector_node_at sel n p :
  querySelector sel n = Some p →
  ∃ tag cls i ds ch,
    node_at p n = Some (Element tag cls i ds ch) ∧
    matches sel (Element tag cls i ds ch) = true.
Proof.
  revert p. induction n as [s|tag cls i ds ch IH] using Node_forest_ind; [done|].
  simpl. intros p (j & c & q & Hj & -> & Hq)%first_match_Some. simpl. rewrite Hj. simpl.
  destruct Hq as [[-> Hm] | Hq].
  - destruct c as [s|tag' cls' i' ds' ch']; [done|]. simpl. eauto 10.
  - eapply Forall_lookup_1 in IH; [|done]. by apply IH.
Qed.

Lemma matches_appendChild sel c n : matches sel (appendChild c n) = matches sel n.
Proof. by destruct n. Qed.

Lemma matches_alter_at sel c p n :
  matches sel (alter_at (appendChild c) p n) = matches sel n.
Proof. destruct p, n; simpl; try done. Qed.

(** After a matching child is appended somewhere, the selector finds an
    element. *)
Lemma querySelector_append sel c p n tag cls i ds ch :
  node_at p n = Some (Element tag cls i ds ch) → matches sel c = true →
  is_Some (querySelector sel (alter_at (appendChild c) p n)).
Proof.
  intros Hp Hc. revert n Hp. induction p as [|j p IH]; intros n Hp.
  - injection Hp as ->. simpl.
    apply (first_match_is_Some _ _ _ (length ch) c); [|auto].
    apply (list_lookup_middle ch [] c). reflexivity.
  - destruct n as [s|tag' cls' i' ds' ch']; [done|]. simpl in *.
    destruct (ch' !! j) as [cj|] eqn:Hj; [|done]. simpl in Hp.
    apply (first_match_is_Some _ _ _ j (alter_at (appendChild c) p cj)).
    + by rewrite list_lookup_alter_eq, Hj.
    + right. by apply IH.
Qed.

Lemma first_match_app sel l1 l2 i :
  first_match (matches sel) (querySelector sel) i l1 = None →
  first_match (matches sel) (querySelector sel) i (l1 ++ l2)%list
  = first_match (matches sel) (querySelector sel) (i + length l1) l2.
Proof.
  revert i. induction l1 as [|c l1 IH]; intros i; simpl.
  - by rewrite Nat.add_0_r.
  - destruct (matches sel c); [done|]. destruct (querySelector sel c); [done|].
    intros H. rewrite IH by done. f_equal. lia.
Qed.

(** In a tree where the selector finds nothing, it finds the matching
    child just appended. *)
Lemma querySelector_appended sel c p n tag cls i ds ch :
  node_at p n = Some (Element tag cls i ds ch) → matches sel c = true →
  querySelector sel c = None →
  querySelector sel n = None →
  querySelector sel (alter_at (appendChild c) p n) = Some (p ++ [length ch])%list.
Proof.
  intros Hp Hc Hcq. revert n Hp. induction p as [|j p IH]; intros n Hp Hn.
  - injection Hp as ->. simpl in *. rewrite first_match_app by done. simpl.
    by rewrite Hc.
  - destruct n as [s|tag' cls' i' ds' ch']; [done|]. simpl in *.
    destruct (ch' !! j) as [cj|] eqn:Hj; [|done]. simpl in Hp.
    apply first_match_None in Hn.
    pose proof (Forall_lookup_1 _ _ _ _ Hn Hj) as [Hmj Hqj].
    rewrite <- (take_drop_middle _ _ _ Hj) in Hn |- *.
    apply Forall_app in Hn as [Hbefore _].
    assert (Hlen : length (take j ch') = j).
    { apply length_take_le. apply lookup_lt_Some in Hj. lia. }
    rewrite alter_app_r_alt by (rewrite Hlen; lia).
    rewrite first_match_app by (by apply first_match_None).
    rewrite Hlen, Nat.sub_diag. simpl.
    by rewrite matches_alter_at, Hmj, IH.
Qed.

Lemma remove_appended c p n tag cls i ds ch :
  node_at p n = Some (Element tag cls i ds ch) →
  remove_at (p ++ [length ch])%list (alter_at (appendChild c) p n) = n.
Proof.
  revert n. induction p as [|j p IH]; intros n Hp.
  - injection Hp as ->. simpl. f_equal.
    by rewrite (delete_middle ch [] c), app_nil_r.
  - destruct n as [s|tag' cls' i' ds' ch']; [done|]. simpl in Hp.
    destruct (ch' !! j) as [cj|] eqn:Hj; [|done]. simpl in Hp.
    assert (E : remove_at (j :: p ++ [length ch])%list
                  (alter_at (appendChild c) (j :: p) (Element tag' cls' i' ds' ch'))
                = Element tag' cls' i' ds'
                    (alter (remove_at (p ++ [length ch])%list) j
                       (alter (alter_at (appendChild c) p) j ch'))).
    { simpl. by destruct p. }
    simpl app. rewrite E. f_equal. rewrite list_alter_alter_eq.
    rewrite <- (take_drop_middle _ _ _ Hj) at 2.
    rewrite <- (take_drop_middle _ _ _ Hj) at 1.
    assert (Hlen : length (take j ch') = j).
    { apply length_take_le. apply lookup_lt_Some in Hj. lia. }
    rewrite alter_app_r_alt by (rewrite Hlen; lia).
    rewrite Hlen, Nat.sub_diag. simpl. by rewrite IH.
Qed.
End Trees.

Section DomFacts.
Implicit Types (sel : selector) (n : Node) (l : list Node) (d : Document).

Lemma first_match_silent sel l i :
  Forall (silent sel) l →
  first_match (matches sel) (querySelector sel) i l = None.
Proof.
  intros Hl. revert i. induction Hl as [|n l (Hm & Hq & _) _ IH]; intros i; [done|].
  simpl. by rewrite Hm, Hq.
Qed.

Lemma all_matches_silent sel l i :
  Forall (silent sel) l →
  all_matches (matches sel) (querySelectorAll sel) i l = [].
Proof.
  intros Hl. revert i. induction Hl as [|n l (Hm & _ & Hq) _ IH]; intros i; [done|].
  simpl. by rewrite Hm, Hq, IH.
Qed.

Lemma silent_mark sel p :
  sel ≠ ByClass p → silent sel (mark p).
Proof.
  intros Hsel. unfold silent, mark. simpl. split; [|done].
  destruct sel as [i|c|k v]; simpl.
  - done.
  - apply bool_decide_eq_false_2. rewrite list_elem_of_singleton. congruence.
  - done.
Qed.

Lemma silent_marks sel v :
  cell_ok v → sel ≠ ByClass "x" → sel ≠ ByClass "o" →
  Forall (silent sel) (marks v).
Proof.
  intros [-> | [-> | ->]] Hx Ho; simpl; repeat constructor; by apply silent_mark.
Qed.

Ltac dom_eval Hm :=
  js_simpl; unfold drawn; simpl;
  repeat (rewrite ?first_match_silent, ?all_matches_silent by (apply Hm; done);
          simpl).

Lemma updateBoard_drawn tx to m msgs (r c : nat) p :
  (r < 3)%nat → (c < 3)%nat → p = "x" ∨ p = "o" → quiet m →
  DOM.updateBoard (Z.of_nat r) (Z.of_nat c) p (drawn tx to m msgs)
  = (Return tt, drawn tx to (add m r c (mark p)) msgs).
Proof.
  intros Hr Hc Hp Hm.
  unfold DOM.updateBoard, DOM.createElement, DOM.getElement,
    DOM.querySelectorIn, DOM.append.
  destruct r as [|[|[|]]]; [| | |lia];
    (destruct c as [|[|[|]]]; [| | |lia]);
    destruct Hp as [-> | ->]; dom_eval Hm; reflexivity.
Qed.

Lemma updateScore_drawn sc p tx to m msgs :
  p = "x" ∨ p = "o" →
  DOM.updateScore sc p (drawn tx to m msgs)
  = (Return tt,
     drawn (if bool_decide (p = "x") then "Player 1: " +:+ show (sc !! "x") else tx)
           (if bool_decide (p = "x") then to else "Player 2: " +:+ show (sc !! "o"))
           m msgs).
Proof.
  intros [-> | ->]; unfold DOM.updateScore, DOM.getElement; js_simpl;
    unfold drawn; simpl; reflexivity.
Qed.

Lemma printMessage_drawn w tx to m msgs :
  DOM.printMessage w (drawn tx to m msgs)
  = (Return tt, drawn tx to m (msgs ++ [messageEl (messageText w)])).
Proof.
  unfold DOM.printMessage, DOM.createElement, DOM.getElement, DOM.append,
    messageText.
  js_simpl; unfold drawn; simpl.
  destruct w as [w|]; simpl;
    [destruct (bool_decide (w = "")), (bool_decide (Some w = Some "x"))|];
    reflexivity.
Qed.

Lemma clearMessage_drawn s tx to m msgs :
  quiet m →
  DOM.clearMessage (drawn tx to m (messageEl s :: msgs))
  = (Return tt, drawn tx to m msgs).
Proof.
  intros Hm. unfold DOM.clearMessage, DOM.getElement. dom_eval Hm. reflexivity.
Qed.

Lemma clearMessage_drawn_none tx to m :
  quiet m →
  DOM.clearMessage (drawn tx to m []) = (Throw TypeError, drawn tx to m []).
Proof.
  intros Hm. unfold DOM.clearMessage, DOM.getElement. dom_eval Hm. reflexivity.
Qed.

Lemma clearGameBoard_drawn tx to m msgs :
  quiet m → Forall (silent (ByClass "col")) msgs →
  DOM.clearGameBoard (drawn tx to m msgs)
  = (Return tt, drawn tx to (λ _ _, []) msgs).
Proof.
  intros Hm Hmsgs. unfold DOM.clearGameBoard, DOM.getAllElements. dom_eval Hm.
  rewrite all_matches_silent by done. simpl. reflexivity.
Qed.

Lemma drawn_ext tx to m1 m2 msgs :
  (∀ i j, (i < 3)%nat → (j < 3)%nat → m1 i j = m2 i j) →
  drawn tx to m1 msgs = drawn tx to m2 msgs.
Proof.
  intros E. unfold drawn.
  by rewrite !(E 0%nat), !(E 1%nat), !(E 2%nat) by lia.
Qed.

End DomFacts.

(** ** The document follows the state *)

Section ViewFacts.
Implicit Types (b : Board) (sc : Score) (msgs : list Node).

Lemma board_ok_grid b :
  board_ok b →
  ∃ a0 a1 a2 a3 a4 a5 a6 a7 a8,
    b = [[a0; a1; a2]; [a3; a4; a5]; [a6; a7; a8]] ∧
    Forall cell_ok [a0; a1; a2; a3; a4; a5; a6; a7; a8].
Proof.
  intros [Hlen Hrows].
  destruct b as [|r0 [|r1 [|r2 [|]]]]; try done.
  apply Forall_cons in Hrows as [[L0 C0] Hrows].
  apply Forall_cons in Hrows as [[L1 C1] Hrows].
  apply Forall_cons in Hrows as [[L2 C2] _].
  destruct r0 as [|a0 [|a1 [|a2 [|]]]]; try done.
  destruct r1 as [|a3 [|a4 [|a5 [|]]]]; try done.
  destruct r2 as [|a6 [|a7 [|a8 [|]]]]; try done.
  exists a0, a1, a2, a3, a4, a5, a6, a7, a8. split; [done|].
  rewrite !Forall_cons in C0, C1, C2. rewrite !Forall_cons, Forall_nil. tauto.
Qed.

Lemma grid_board_ok a0 a1 a2 a3 a4 a5 a6 a7 a8 :
  Forall cell_ok [a0; a1; a2; a3; a4; a5; a6; a7; a8] →
  board_ok [[a0; a1; a2]; [a3; a4; a5]; [a6; a7; a8]].
Proof.
  rewrite !Forall_cons. intros H. split; [done|].
  rewrite !Forall_cons, !Forall_nil. simpl. tauto.
Qed.

Lemma cellAt_grid_range a0 a1 a2 a3 a4 a5 a6 a7 a8 row col v :
  cellAt [[a0; a1; a2]; [a3; a4; a5]; [a6; a7; a8]] row col = Some v →
  (row = 0 ∨ row = 1 ∨ row = 2) ∧ (col = 0 ∨ col = 1 ∨ col = 2).
Proof.
  unfold cellAt. destruct (index _ row) as [r|] eqn:Hr; [|done]. simpl.
  intros Hc. pose proof (index_Some_range _ _ _ Hr) as Hrow. 
  pose proof (index_Some_range _ _ _ Hc) as Hcol. simpl in Hrow.
  assert (length r = 3%nat).
  { unfold index in Hr. case_bool_decide; [|done].
    assert (row = 0 ∨ row = 1 ∨ row = 2) as [-> | [-> | ->]] by lia; simpl in Hr; by simplify_eq. }
  lia.
Qed.

Lemma cellAt_ok b i j v : board_ok b → cellAt b i j = Some v → cell_ok v.
Proof.
  intros [_ Hrows]. unfold cellAt.
  destruct (index b i) as [r|] eqn:Hr; simpl; [|done]. intros Hv.
  unfold index in Hr, Hv. repeat case_bool_decide; try done.
  eapply Forall_lookup_1 in Hrows as [_ Hcells]; [|done].
  by eapply Forall_lookup_1 in Hcells.
Qed.

Lemma quiet_view b :
  board_ok b →
  quiet (λ i j, marks (default undefined (cellAt b (Z.of_nat i) (Z.of_nat j)))).
Proof.
  intros Hb sel i j Hx Ho.
  destruct (cellAt b (Z.of_nat i) (Z.of_nat j)) as [v|] eqn:Hv; simpl; [|constructor].
  apply silent_marks; [|done..]. by eapply cellAt_ok.
Qed.

Lemma updateBoard_view b sc msgs row col p :
  board_ok b → p = "x" ∨ p = "o" → cellAt b row col = Some (str "") →
  DOM.updateBoard row col p (view b sc msgs)
    = (Return tt, view (written b row col (str p)) sc msgs)
  ∧ board_ok (written b row col (str p)).
Proof.
  intros Hb Hp Hcell. pose proof (quiet_view b Hb) as Hq.
  destruct (board_ok_grid b Hb) as (a0&a1&a2&a3&a4&a5&a6&a7&a8&->&Hok).
  destruct (cellAt_grid_range _ _ _ _ _ _ _ _ _ _ _ _ Hcell) as [Hrow Hcol].
  assert (Hpok : cell_ok (str p)) by (destruct Hp as [-> | ->]; unfold cell_ok; auto).
  rewrite !Forall_cons in Hok.
  destruct Hrow as [-> | [-> | ->]], Hcol as [-> | [-> | ->]];
    injection Hcell as ->.
  all: split; [|apply grid_board_ok; rewrite !Forall_cons, Forall_nil; tauto].
  all: unfold view.
  all: match goal with
       | |- DOM.updateBoard ?r ?c _ _ = _ =>
           rewrite (updateBoard_drawn _ _ _ _ (Z.to_nat r) (Z.to_nat c))
             by (done || lia)
       end.
  all: f_equal; apply drawn_ext.
  all: destruct Hp as [-> | ->].
  all: intros [|[|[|]]] [|[|[|]]] ??; try lia; reflexivity.
Qed.

Lemma updateScore_view b sc msgs p n :
  p = "x" ∨ p = "o" →
  DOM.updateScore (<[p := n]> sc) p (view b sc msgs)
  = (Return tt, view b (<[p := n]> sc) msgs).
Proof.
  intros Hp. unfold view. rewrite updateScore_drawn by done.
  destruct Hp as [-> | ->]; simpl bool_decide; cbv iota.
  - by rewrite (lookup_insert_ne _ "x" "o").
  - by rewrite (lookup_insert_ne _ "o" "x").
Qed.

Lemma printMessage_view w b sc msgs :
  DOM.printMessage w (view b sc msgs)
  = (Return tt, view b sc (msgs ++ [messageEl (messageText w)])).
Proof. apply printMessage_drawn. Qed.

Lemma clearMessage_view s b sc msgs :
  board_ok b →
  DOM.clearMessage (view b sc (messageEl s :: msgs)) = (Return tt, view b sc msgs).
Proof. intros Hb. apply clearMessage_drawn, quiet_view, Hb. Qed.

Lemma clearGameBoard_view b sc :
  board_ok b →
  DOM.clearGameBoard (view b sc []) = (Return tt, view createBoard sc []).
Proof.
  intros Hb. unfold view. rewrite clearGameBoard_drawn; [|by apply quiet_view|done].
  reflexivity.
Qed.

End ViewFacts.

(** ** Every reachable state is consistent *)

Section Reachable.
Implicit Types (t : TicTacToe Document) (row col : Z).

Ltac state_simpl :=
  unfold set_display, set_board, set_waiting, set_score, set_currentPlayer,
    set_timers;
  cbn [display board players wait waiting score currentPlayer timers
       fst snd mark_x mark_o app].

Lemma place_consistent t row col :
  consistent t → waiting t = false →
  cellAt (board t) row col = Some (str "") →
  let b := written (board t) row col (str (currentPlayer t)) in
  place row col t = (Return tt, set_display (view b (score t) []) (set_board b t))
  ∧ board_ok b ∧ 0 ≤ row ≤ 2 ∧ 0 ≤ col ≤ 2.
Proof.
  intros [Hb Hps Hwt Hp Hsc Hd] Hw Hcell b. rewrite Hw in Hd. destruct Hd as [Hts Hd].
  destruct (updateBoard_view (board t) (score t) [] row col (currentPlayer t) Hb Hp Hcell)
    as [Hupd Hb'].
  assert (Hrange : 0 ≤ row ≤ 2 ∧ 0 ≤ col ≤ 2).
  { destruct (board_ok_grid _ Hb) as (a0&a1&a2&a3&a4&a5&a6&a7&a8&Hg&_).
    rewrite Hg in Hcell. apply cellAt_grid_range in Hcell. lia. }
  split; [|done].
  unfold place, writeCell. js_simpl. subst b. unfold written.
  unfold cellAt in Hcell. destruct (index (board t) row) as [r|] eqn:Hr; [|done].
  simpl. rewrite Hd. unfold written in Hupd. rewrite Hr in Hupd.
  change (@updateBoard Document DOM_Display) with DOM.updateBoard.
  rewrite Hupd. reflexivity.
Qed.

Lemma clickCell_consistent t row col :
  consistent t → waiting t = false →
  cellAt (board t) row col = Some (str "") →
  ∃ t1 win,
    place row col t = (Return tt, t1) ∧
    isGameWon row col t1 = (Return win, t1) ∧
    clickCell row col t = (Return tt, concluded win (full (board t1)) t1) ∧
    consistent (concluded win (full (board t1)) t1).
Proof.
  intros Ht Hw Hcell.
  destruct (place_consistent t row col Ht Hw Hcell) as (Hplace & Hb' & Hrow & Hcol).
  destruct Ht as [Hb Hps Hwt Hp Hsc Hd]. rewrite Hw in Hd. destruct Hd as [Hts Hd].
  set (b := written (board t) row col (str (currentPlayer t))) in *.
  set (t1 := set_display _ _) in Hplace.
  exists t1, (wonAt b (currentPlayer t) row col).
  assert (Hwin : isGameWon row col t1 = (Return (wonAt b (currentPlayer t) row col), t1)).
  { apply (isGameWon_wonAt t1); [apply Hb'|done]. }
  split; [done|]. split; [done|].
  assert (Hclick : clickCell row col t
                   = (Return tt, concluded (wonAt b (currentPlayer t) row col) (full b) t1)).
  { rewrite clickCell_accepted by done. unfold bind at 1. rewrite Hplace.
    unfold settle. unfold bind at 1. rewrite Hwin.
    unfold bind at 1, gets at 1. unfold bind at 1, gets at 1.
    replace (waiting t1) with false by (symmetry; exact Hw).
    cbn [negb]. cbv beta iota.
    unfold conclude, concluded. rewrite stalemate_full.
    change (board t1) with b. clear Hplace Hwin. subst t1.
    destruct (wonAt b (currentPlayer t) row col).
    - unfold increaseScore, gameOver, setTimeout. js_simpl. state_simpl.
      change (@updateScore Document DOM_Display) with DOM.updateScore.
      rewrite updateScore_view by done. state_simpl.
      change (@printMessage Document DOM_Display) with DOM.printMessage.
      rewrite printMessage_view. state_simpl. rewrite Hts, Hwt. reflexivity.
    - destruct (full b).
      + unfold gameOver, setTimeout. js_simpl. state_simpl.
        change (@printMessage Document DOM_Display) with DOM.printMessage.
        rewrite printMessage_view. state_simpl. rewrite Hts, Hwt. reflexivity.
      + unfold switchPlayer. js_simpl. state_simpl. rewrite Hps. reflexivity. }
  split; [done|].
  unfold concluded. change (board t1) with b. subst t1.
  destruct Hsc as (nx & no & Hx & Ho & Hnx & Hno).
  destruct (wonAt b (currentPlayer t) row col); [|destruct (full b)];
    split; state_simpl; rewrite ?Hw; try done; try (by eauto 10).
  - destruct Hp as [E | E]; rewrite E.
    + rewrite Hx, lookup_insert_eq, lookup_insert_ne by done. simpl.
      case_bool_decide; [exists (nx + 1), no|exists nx, no];
        repeat split; (done || lia).
    + rewrite Ho, lookup_insert_eq, lookup_insert_ne by done. simpl.
      case_bool_decide; [exists nx, (no + 1)|exists nx, no];
        repeat split; (done || lia).
  - destruct Hp as [E | E]; rewrite E; simpl; auto.
Qed.

Lemma createBoard_ok : board_ok createBoard.
Proof. apply grid_board_ok. repeat constructor. Qed.

Lemma onTimeout_consistent t :
  consistent t → waiting t = true →
  timers t = [2500] ∧
  onTimeout (set_timers [] t) = (Return tt, afterReset t) ∧
  consistent (afterReset t).
Proof.
  intros [Hb Hps Hwt Hp Hsc Hd] Hw. rewrite Hw in Hd. destruct Hd as (Hts & m & Hd).
  split; [done|]. split.
  - unfold onTimeout, resetBoard. js_simpl. state_simpl. rewrite Hd.
    change (@clearMessage Document DOM_Display) with DOM.clearMessage.
    rewrite clearMessage_view by done. state_simpl.
    change (@clearGameBoard Document DOM_Display) with DOM.clearGameBoard.
    rewrite clearGameBoard_view by done. reflexivity.
  - split; simpl; auto using createBoard_ok.
Qed.

Lemma script_returns : script page = (Return tt, boot).
Proof. by vm_compute. Qed.

Lemma boot_consistent : consistent boot.
Proof.
  assert (E : boot = {| display := view createBoard (<["o" := Num 0]> (<["x" := Num 0]> ∅)) [];
            board := createBoard;
            players := {| mark_x := "x"; mark_o := "o" |};
            wait := 2500; waiting := false;
            score := <["o" := Num 0]> (<["x" := Num 0]> ∅);
            currentPlayer := "x"; timers := [] |}) by (vm_compute; reflexivity).
  rewrite E. split; simpl; auto using createBoard_ok.
  exists 0, 0. split; [by vm_compute|]. split; [by vm_compute|].
  unfold max_exact. lia.
Qed.

Lemma handle_consistent e t : consistent t → consistent (handle e t).
Proof.
  intros Ht. destruct e as [row col|]; simpl.
  - destruct (index (board t) row) as [r|] eqn:Hr.
    + destruct (strict_eq (default undefined (index r col)) "" && negb (waiting t)) eqn:Hg.
      * apply andb_true_iff in Hg as [Hv Hw%negb_true_iff].
        apply bool_decide_eq_true_1 in Hv.
        assert (Hcell : cellAt (board t) row col = Some (str "")).
        { unfold cellAt. rewrite Hr. simpl. by destruct (index r col); simplify_eq/=. }
        destruct (clickCell_consistent t row col Ht Hw Hcell) as (t1 & win & _ & _ & -> & Hc).
        done.
      * erewrite clickCell_rejected; [done|by apply readCell_row|done].
    + rewrite clickCell_unfold. unfold bind at 1. by rewrite (readCell_no_row _ _ _ Hr).
  - destruct (timers t) as [|d ts] eqn:Hts; [done|].
    destruct (waiting t) eqn:Hw.
    + destruct (onTimeout_consistent t Ht Hw) as (Hts' & Hrun & Hc).
      rewrite Hts' in Hts. injection Hts as <- <-. by rewrite Hrun.
    + destruct Ht as [_ _ _ _ _ Hd]. rewrite Hw in Hd. destruct Hd as [Hd _]. congruence.
Qed.

Theorem reachable_consistent t : reachable t → consistent t.
Proof.
  intros [es ->]. unfold run. induction es as [|e es IH] using rev_ind.
  - apply boot_consistent.
  - rewrite foldl_app. simpl. by apply handle_consistent.
Qed.

End Reachable.

(** ** The elements a selector matches *)

(** The descendants of a node that match a selector, in document order. *)
Fixpoint matching (sel : selector) (n : Node) : list Node :=
  match n with
  | Text _ => []
  | Element _ _ _ _ ch =>
      flat_map (λ c, (if matches sel c then [c] else []) ++ matching sel c)%list ch
  end.

(** A node that matches, and its descendants that do. *)
Definition matchingFrom (sel : selector) (c : Node) : list Node :=
  ((if matches sel c then [c] else []) ++ matching sel c)%list.

(** The document node as a node of the tree: a container that no selector
    matches. *)
Definition docNode (d : Document) : Node :=
  Element "#document" [] None [] (childNodes d).

(** The elements of the document that match a selector, in document
    order. *)
Definition elements (sel : selector) (d : Document) : list Node :=
  matching sel (docNode d).

Section Documents.
#[local] Open Scope list_scope.
Implicit Types (sel : selector) (n c m : Node) (l : list Node) (d : Document)
  (p q : path).

Lemma matching_children sel tag cls i ds ch :
  matching sel (Element tag cls i ds ch) = flat_map (matchingFrom sel) ch.
Proof. reflexivity. Qed.

Lemma docNode_inj d1 d2 : docNode d1 = docNode d2 → d1 = d2.
Proof. destruct d1, d2. unfold docNode. simpl. by intros [= ->]. Qed.

Lemma doc_querySelector sel d :
  Document.querySelector sel d = querySelector sel (docNode d).
Proof. by destruct d. Qed.

Lemma doc_querySelectorAll sel d :
  Document.querySelectorAll sel d = querySelectorAll sel (docNode d).
Proof. by destruct d. Qed.

Lemma doc_node_at i p d : Document.node_at (i :: p) d = node_at (i :: p) (docNode d).
Proof. by destruct d. Qed.

Lemma doc_alter_at f i p d :
  docNode (Document.alter_at f (i :: p) d) = alter_at f (i :: p) (docNode d).
Proof. by destruct d. Qed.

Lemma doc_remove_at i p d :
  docNode (Document.remove_at (i :: p) d) = remove_at (i :: p) (docNode d).
Proof. destruct d, p; reflexivity. Qed.

(** A reference a selector finds is never the node searched from. *)
Lemma querySelector_below sel n p : querySelector sel n = Some p → ∃ i q, p = i :: q.
Proof.
  destruct n as [|tag cls i0 ds ch]; [done|]. simpl.
  intros (j & c & q & _ & -> & _)%first_match_Some. eauto.
Qed.

Lemma doc_querySelector_below sel d p :
  Document.querySelector sel d = Some p → ∃ i q, p = i :: q.
Proof. rewrite doc_querySelector. apply querySelector_below. Qed.

(** The nodes at the references [querySelectorAll] gives are the matching
    nodes. *)
Lemma all_matches_nodes sel tag cls i ds (seen l : list Node) :
  Forall (λ c, omap (λ p, node_at p c) (querySelectorAll sel c) = matching sel c) l →
  omap (λ p, node_at p (Element tag cls i ds (seen ++ l)))
    (all_matches (matches sel) (querySelectorAll sel) (length seen) l)
  = flat_map (matchingFrom sel) l.
Proof.
  intros Hl. revert seen. induction Hl as [|c l Hc _ IH]; intros seen; [done|].
  cbn [all_matches flat_map]. rewrite !omap_app. unfold matchingFrom at 1.
  rewrite <- app_assoc. f_equal; [|f_equal].
  - destruct (matches sel c); [|done]. simpl. by rewrite list_lookup_middle.
  - rewrite <- Hc. apply list_omap_ext, Forall2_fmap_l, Forall_Forall2_diag, Forall_forall.
    intros q _. simpl. by rewrite list_lookup_middle.
  - specialize (IH (seen ++ [c])). rewrite length_app, Nat.add_1_r in IH.
    by rewrite <- app_assoc in IH.
Qed.

Lemma querySelectorAll_nodes sel n :
  omap (λ p, node_at p n) (querySelectorAll sel n) = matching sel n.
Proof.
  induction n as [s|tag cls i ds ch IH] using Node_forest_ind; [done|].
  apply (all_matches_nodes sel tag cls i ds [] ch IH).
Qed.

Lemma doc_querySelectorAll_nodes sel d :
  omap (λ p, Document.node_at p d) (Document.querySelectorAll sel d) = elements sel d.
Proof.
  unfold elements. rewrite <- querySelectorAll_nodes, doc_querySelectorAll.
  apply list_omap_ext. apply Forall2_same_length_lookup. split; [done|].
  intros k p p' Hp Hp'. simplify_eq.
  assert (p ∈ querySelectorAll sel (docNode d)) as Hin by by eapply list_elem_of_lookup_2.
  destruct p as [|j q]; [|by rewrite doc_node_at].
  exfalso. clear -Hin. unfold docNode in Hin. simpl in Hin.
  revert Hin. generalize 0%nat. induction (childNodes d) as [|c l IH]; intros k Hin.
  - by apply elem_of_nil in Hin.
  - simpl in Hin. rewrite !elem_of_app in Hin. destruct Hin as [Hin|[Hin|Hin]].
    + destruct (matches sel c); [|by apply elem_of_nil in Hin].
      by apply list_elem_of_singleton in Hin.
    + by apply list_elem_of_fmap in Hin as (? & ? & _).
    + by apply IH in Hin.
Qed.

Lemma omap_then {A B C} (f : A → option B) (g : B → C) (l : list A) :
  omap (λ a, g <$> f a) l = g <$> omap f l.
Proof.
  induction l as [|a l IH]; [done|]. simpl.
  destruct (f a); simpl; [f_equal|]; exact IH.
Qed.

(** The texts of the messages are the texts of the elements of class
    [message]. *)
Lemma messages_elements d :
  messages d = textContent <$> elements (ByClass "message") d.
Proof.
  unfold messages. rewrite <- doc_querySelectorAll_nodes. apply omap_then.
Qed.

(** What comes before the first match holds no match. *)
Lemma first_match_split sel l k i q :
  first_match (matches sel) (querySelector sel) k l = Some (i :: q) →
  ∃ l1 c l2,
    l = l1 ++ c :: l2 ∧ i = (k + length l1)%nat ∧
    Forall (λ c', matches sel c' = false ∧ querySelector sel c' = None) l1 ∧
    (q = [] ∧ matches sel c = true
     ∨ matches sel c = false ∧ querySelector sel c = Some q).
Proof.
  revert k. induction l as [|c l IH]; intros k Hfirst; [done|]. simpl in Hfirst.
  destruct (matches sel c) eqn:Hc.
  - injection Hfirst as <- <-. exists [], c, l. simpl. rewrite Nat.add_0_r.
      split; [done|]. split; [done|]. split; [constructor|auto].
  - destruct (querySelector sel c) as [q'|] eqn:Hq.
    + injection Hfirst as <- <-. exists [], c, l. simpl. rewrite Nat.add_0_r.
      split; [done|]. split; [done|]. split; [constructor|auto].
    + destruct (IH _ Hfirst) as (l1 & c' & l2 & -> & -> & Hl1 & Hc').
      exists (c :: l1), c', l2. simpl. repeat split; [lia|by constructor|done].
Qed.

Lemma matching_None sel n : querySelector sel n = None → matching sel n = [].
Proof.
  intros Hq%querySelector_None. by rewrite <- querySelectorAll_nodes, Hq.
Qed.

Lemma matching_before sel l :
  Forall (λ c, matches sel c = false ∧ querySelector sel c = None) l →
  flat_map (matchingFrom sel) l = [].
Proof.
  induction 1 as [|c l [Hc Hq] _ IH]; [done|]. simpl. unfold matchingFrom at 1.
  by rewrite Hc, (matching_None _ _ Hq), IH.
Qed.

Lemma remove_at_last i tag cls i0 ds ch :
  remove_at [i] (Element tag cls i0 ds ch) = Element tag cls i0 ds (delete i ch).
Proof. reflexivity. Qed.

Lemma remove_at_below i j q tag cls i0 ds ch :
  remove_at (i :: j :: q) (Element tag cls i0 ds ch)
  = Element tag cls i0 ds (alter (remove_at (j :: q)) i ch).
Proof. reflexivity. Qed.

Lemma matches_remove_at sel i q n : matches sel (remove_at (i :: q) n) = matches sel n.
Proof. destruct n, q; reflexivity. Qed.

(** Removing the first match takes away that element and what it holds,
    and nothing else: the matching elements were the first match, then its
    matching descendants, then those that are left. *)
Lemma matching_remove_first sel e n m :
  querySelector sel n = Some e → node_at e n = Some m →
  matches sel m = true ∧
  matching sel n = m :: matching sel m ++ matching sel (remove_at e n).
Proof.
  revert n. induction e as [|i q IH]; intros n Hq Hm.
  { by apply querySelector_below in Hq as (? & ? & ?). }
  destruct n as [|tag cls i0 ds ch]; [done|]. cbn [querySelector] in Hq.
  destruct (first_match_split _ _ _ _ _ Hq) as (l1 & c & l2 & -> & -> & Hl1 & Hc).
  cbn [node_at] in Hm. simpl in Hm. rewrite list_lookup_middle in Hm by done.
  simpl in Hm. rewrite !matching_children, flat_map_app, (matching_before _ _ Hl1).
  cbn [flat_map app]. unfold matchingFrom at 1.
  destruct Hc as [[-> Hc] | [Hc Hqc]].
  - injection Hm as ->. split; [done|]. rewrite Hc.
    rewrite remove_at_last. cbn [Nat.add app]. rewrite delete_middle.
    rewrite matching_children, flat_map_app, (matching_before _ _ Hl1).
    reflexivity.
  - destruct (IH c Hqc Hm) as [Hmm E]. split; [done|]. rewrite Hc, E.
    destruct (querySelector_below _ _ _ Hqc) as (j & q' & ->).
    rewrite remove_at_below. cbn [Nat.add app]. rewrite matching_children.
    rewrite alter_app_r_alt by lia. rewrite Nat.sub_diag. cbn [alter list_alter].
    rewrite flat_map_app, (matching_before _ _ Hl1). cbn [flat_map app].
    assert (matchingFrom sel (remove_at (j :: q') c)
            = matching sel (remove_at (j :: q') c)) as ->.
    { unfold matchingFrom. by rewrite matches_remove_at, Hc. }
    by rewrite <- !app_assoc.
Qed.

(** An appended child adds itself, if it matches, and its matching
    descendants to the matching elements. *)
Lemma matching_append_length sel c p n tag cls i ds ch :
  node_at p n = Some (Element tag cls i ds ch) →
  length (matching sel (alter_at (appendChild c) p n))
  = (length (matching sel n) + length (matchingFrom sel c))%nat.
Proof.
  revert n. induction p as [|j q IH]; intros n Hn.
  - injection Hn as ->. simpl. rewrite flat_map_app, length_app. simpl.
    by rewrite app_nil_r.
  - destruct n as [|tag' cls' i' ds' ch']; [done|]. simpl in Hn.
    destruct (ch' !! j) as [x|] eqn:Hx; [|done]. simpl in Hn.
    cbn [alter_at]. rewrite !matching_children.
    rewrite <- (take_drop_middle _ _ _ Hx).
    rewrite alter_app_r_alt by (rewrite length_take; apply lookup_lt_Some in Hx; lia).
    replace (j - length (take j ch'))%nat with 0%nat
      by (rewrite length_take; apply lookup_lt_Some in Hx; lia).
    cbn [alter list_alter]. rewrite !flat_map_app. cbn [flat_map].
    pose proof (IH x Hn) as E. unfold matchingFrom in *.
    rewrite matches_alter_at, !length_app, E, !length_app.
    destruct (matches sel x); simpl; lia.
Qed.

Lemma matching_append_elem sel c p n tag cls i ds ch :
  node_at p n = Some (Element tag cls i ds ch) → matches sel c = true →
  c ∈ matching sel (alter_at (appendChild c) p n).
Proof.
  intros Hn Hc. revert n Hn. induction p as [|j q IH]; intros n Hn.
  - injection Hn as ->. simpl. rewrite flat_map_app. simpl.
    rewrite Hc. set_solver.
  - destruct n as [|tag' cls' i' ds' ch']; [done|]. simpl in Hn.
    destruct (ch' !! j) as [x|] eqn:Hx; [|done]. simpl in Hn.
    cbn [alter_at]. rewrite matching_children.
    rewrite <- (take_drop_middle _ _ _ Hx).
    rewrite alter_app_r_alt by (rewrite length_take; apply lookup_lt_Some in Hx; lia).
    replace (j - length (take j ch'))%nat with 0%nat
      by (rewrite length_take; apply lookup_lt_Some in Hx; lia).
    cbn [alter list_alter]. rewrite flat_map_app. cbn [flat_map].
    specialize (IH x Hn). unfold matchingFrom. set_solver.
Qed.

(** *** The same for the document *)

Lemma doc_querySelector_None sel d :
  Document.querySelector sel d = None ↔ elements sel d = [].
Proof.
  rewrite doc_querySelector. split; [apply matching_None|].
  intros Hnone. destruct (querySelector sel (docNode d)) as [e|] eqn:Hq; [|done].
  destruct (querySelector_node_at _ _ _ Hq) as (tag & cls & i & ds & ch & Hm & _).
  destruct (matching_remove_first _ _ _ _ Hq Hm) as [_ E].
  unfold elements in Hnone. by rewrite Hnone in E.
Qed.

Lemma doc_querySelector_node_at sel d p :
  Document.querySelector sel d = Some p →
  ∃ tag cls i ds ch,
    Document.node_at p d = Some (Element tag cls i ds ch) ∧
    node_at p (docNode d) = Some (Element tag cls i ds ch) ∧
    matches sel (Element tag cls i ds ch) = true.
Proof.
  intros Hq. destruct (doc_querySelector_below _ _ _ Hq) as (j & q & ->).
  rewrite doc_querySelector in Hq.
  destruct (querySelector_node_at _ _ _ Hq) as (tag & cls & i & ds & ch & Hm & Hc).
  exists tag, cls, i, ds, ch. by rewrite doc_node_at.
Qed.

Lemma doc_remove_first sel d e :
  Document.querySelector sel d = Some e →
  ∃ m, Document.node_at e d = Some m ∧ matches sel m = true ∧
       elements sel d = m :: matching sel m ++ elements sel (Document.remove_at e d).
Proof.
  intros Hq. destruct (doc_querySelector_below _ _ _ Hq) as (j & q & ->).
  destruct (doc_querySelector_node_at _ _ _ Hq) as (tag & cls & i & ds & ch & Hm & Hm' & _).
  rewrite doc_querySelector in Hq.
  destruct (matching_remove_first _ _ _ _ Hq Hm') as [Hc E].
  eexists. split; [done|]. split; [done|].
  unfold elements. by rewrite doc_remove_at.
Qed.

Lemma doc_append_length sel c p d tag cls i ds ch :
  Document.node_at p d = Some (Element tag cls i ds ch) →
  length (elements sel (Document.alter_at (appendChild c) p d))
  = (length (elements sel d) + length (matchingFrom sel c))%nat.
Proof.
  destruct p as [|j q]; [done|]. rewrite doc_node_at. intros Hn.
  unfold elements. rewrite doc_alter_at. by eapply matching_append_length.
Qed.

Lemma doc_append_elem sel c p d tag cls i ds ch :
  Document.node_at p d = Some (Element tag cls i ds ch) → matches sel c = true →
  c ∈ elements sel (Document.alter_at (appendChild c) p d).
Proof.
  destruct p as [|j q]; [done|]. rewrite doc_node_at. intros Hn Hc.
  unfold elements. rewrite doc_alter_at. by eapply matching_append_elem.
Qed.

(** A message appended where there was none is the first match, and
    removing it gives back the document. *)
Lemma doc_remove_appended sel c p d tag cls i ds ch :
  Document.node_at p d = Some (Element tag cls i ds ch) →
  matches sel c = true → querySelector sel c = None →
  Document.querySelector sel d = None →
  ∃ e, Document.querySelector sel (Document.alter_at (appendChild c) p d) = Some e ∧
       Document.remove_at e (Document.alter_at (appendChild c) p d) = d.
Proof.
  destruct p as [|j q]; [done|]. rewrite doc_node_at. intros Hn Hc Hin Hnone.
  rewrite doc_querySelector in Hnone.
  exists ((j :: q) ++ [length ch]). split.
  - rewrite doc_querySelector, doc_alter_at. by eapply querySelector_appended.
  - apply docNode_inj. change ((j :: q) ++ [length ch]) with (j :: (q ++ [length ch])).
    rewrite doc_remove_at, doc_alter_at.
    exact (remove_appended c (j :: q) _ _ _ _ _ _ Hn).
Qed.

End Documents.

(** ** The claims about the running game and the document *)

Section Claims.
Implicit Types (t : TicTacToe Document) (row col : Z) (d : Document).

Lemma messages_view b sc :
  board_ok b →
  messages (view b sc []) = [] ∧
  ∀ m, messages (view b sc [messageEl m]) = [m].
Proof.
  intros Hb. pose proof (quiet_view b Hb) as Hq. unfold messages, view, drawn.
  split; [|intros m]; simpl;
    repeat (rewrite ?all_matches_silent by (apply Hq; done); simpl); done.
Qed.

Lemma concluded_score win stale t1 :
  score (concluded win stale t1)
  = if win
    then <[currentPlayer t1 := plus_one (score t1 !! currentPlayer t1)]> (score t1)
    else score t1.
Proof. unfold concluded. by destruct win, stale. Qed.

Lemma concluded_board win stale t1 : board (concluded win stale t1) = board t1.
Proof. unfold concluded. by destruct win, stale. Qed.

(** What an accepted click does in a reachable state, in terms of the
    state [t1] in which the win check runs. *)
Lemma clickCell_reachable t row col :
  reachable t → waiting t = false →
  cellAt (board t) row col = Some (str "") →
  ∃ win,
    let t1 := (place row col t).2 in
    isGameWon row col t1 = (Return win, t1) ∧
    clickCell row col t = (Return tt, concluded win (full (board t1)) t1) ∧
    board_ok (board t1) ∧
    display t1 = view (board t1) (score t1) [] ∧
    waiting t1 = false ∧ score t1 = score t ∧
    currentPlayer t1 = currentPlayer t.
Proof.
  intros Ht%reachable_consistent Hw Hcell.
  destruct (place_consistent t row col Ht Hw Hcell) as (Hplace' & Hb' & _).
  destruct (clickCell_consistent t row col Ht Hw Hcell)
    as (t1 & win & Hplace & Hwin & Hclick & _).
  rewrite Hplace' in Hplace. injection Hplace as <-.
  exists win. rewrite Hplace'. simpl. done.
Qed.

(** C4.  In a reachable state, an accepted click (empty cell, not
    waiting) returns normally.  If the win check then returns true, the
    count [n] of the player who moved, a number from 0 to [2^53], goes to
    [n + 1] when it is below [2^53] and stays as it is at [2^53], and every
    other entry of the score is as before; if the win check returns false,
    whether the board is now full or not, the score is as before. *)
Theorem clickCell_score t row col :
  reachable t → waiting t = false →
  cellAt (board t) row col = Some (str "") →
  let p := currentPlayer t in
  let t' := (clickCell row col t).2 in
  (clickCell row col t).1 = Return tt ∧
  ∃ win, (isGameWon row col (place row col t).2).1 = Return win ∧
    if win
    then (∃ n, 0 ≤ n ≤ max_exact ∧ score t !! p = Some (Num n) ∧
               score t' !! p
               = Some (Num (if bool_decide (n < max_exact) then n + 1 else n)))
         ∧ ∀ q, q ≠ p → score t' !! q = score t !! q
    else score t' = score t.
Proof.
  intros Ht Hw Hcell p t'.
  destruct (clickCell_reachable t row col Ht Hw Hcell)
    as (win & Hwin & Hclick & _ & _ & _ & Hsc & Hp).
  subst t'. rewrite Hclick. simpl. split; [done|].
  exists win. rewrite Hwin. split; [done|].
  rewrite concluded_score, Hsc, Hp. fold p. destruct win; [|done].
  apply reachable_consistent in Ht.
  destruct Ht as [_ _ _ Hpl (nx & no & Hx & Ho & Hnx & Hno) _].
  split.
  - destruct Hpl as [E | E]; fold p in E; rewrite E.
    + exists nx. rewrite lookup_insert_eq, Hx. simpl.
      split; [done|]. split; [done|]. by case_bool_decide.
    + exists no. rewrite lookup_insert_eq, Ho. simpl.
      split; [done|]. split; [done|]. by case_bool_decide.
  - intros q Hq. by rewrite lookup_insert_ne.
Qed.

(** C5.  In a reachable state, after an accepted click whose win check
    returns false and which leaves an empty cell on the board, the current
    player is the other one of ["x"] and ["o"], and the game is still not
    waiting. *)
Theorem clickCell_alternates t row col :
  reachable t → waiting t = false →
  cellAt (board t) row col = Some (str "") →
  let t1 := (place row col t).2 in
  let t' := (clickCell row col t).2 in
  (isGameWon row col t1).1 = Return false → full (board t1) = false →
  (currentPlayer t = "x" ∧ currentPlayer t' = "o"
   ∨ currentPlayer t = "o" ∧ currentPlayer t' = "x")
  ∧ waiting t' = false.
Proof.
  intros Ht Hw Hcell t1 t' Hlost Hfull.
  destruct (clickCell_reachable t row col Ht Hw Hcell)
    as (win & Hwin & Hclick & _ & _ & Hw1 & _ & Hp).
  fold t1 in Hwin, Hclick, Hw1, Hp. rewrite Hwin in Hlost. injection Hlost as ->.
  subst t'. rewrite Hclick, Hfull. unfold concluded. simpl. rewrite Hp.
  apply reachable_consistent in Ht. destruct Ht as [_ _ _ Hpl _ _].
  split; [|done]. destruct Hpl as [E | E]; rewrite E; auto.
Qed.


(** The reset of a round that is over.  In a reachable state that waits,
    one reset is pending; when it runs it returns normally, the board is the
    empty board again, no message is shown, [waiting] is false, and the
    current player and the score are those of the state in which the round
    ended.  That player is the one whose mark the next accepted click
    places. *)
Lemma reset_restores t :
  reachable t → waiting t = true →
  let t' := handle Timeout t in
  timers t = [2500] ∧
  onTimeout (set_timers [] t) = (Return tt, t') ∧
  board t' = createBoard ∧
  (∀ i j, 0 ≤ i ≤ 2 → 0 ≤ j ≤ 2 → cellAt (board t') i j = Some (str "")) ∧
  waiting t' = false ∧ timers t' = [] ∧ messages (display t') = [] ∧
  currentPlayer t' = currentPlayer t ∧ score t' = score t ∧
  (∀ i j, 0 ≤ i ≤ 2 → 0 ≤ j ≤ 2 →
     cellAt (board (handle (Click i j) t')) i j = Some (str (currentPlayer t))).
Proof.
  intros Ht Hw t'. pose proof (reachable_consistent t Ht) as Hc.
  destruct (onTimeout_consistent t Hc Hw) as (Hts & Hrun & Hc').
  assert (Et : t' = afterReset t).
  { subst t'. simpl. by rewrite Hts, Hrun. }
  rewrite Et. split; [done|]. split; [done|].
  assert (Hcells : ∀ i j, 0 ≤ i ≤ 2 → 0 ≤ j ≤ 2 →
            cellAt createBoard i j = Some (str "")).
  { intros i j Hi Hj.
    assert (i = 0 ∨ i = 1 ∨ i = 2) as [-> | [-> | ->]] by lia;
      assert (j = 0 ∨ j = 1 ∨ j = 2) as [-> | [-> | ->]] by lia; done. }
  repeat split; try done.
  intros i j Hi Hj. simpl handle.
  destruct (clickCell_consistent (afterReset t) i j Hc' eq_refl (Hcells i j Hi Hj))
    as (t1 & win & Hplace & _ & -> & _).
  simpl. rewrite concluded_board.
  destruct (place_consistent (afterReset t) i j Hc' eq_refl (Hcells i j Hi Hj))
    as (Hplace' & _). rewrite Hplace' in Hplace. injection Hplace as <-.
  simpl.
  assert (i = 0 ∨ i = 1 ∨ i = 2) as [-> | [-> | ->]] by lia;
    assert (j = 0 ∨ j = 1 ∨ j = 2) as [-> | [-> | ->]] by lia; done.
Qed.

(** What [printMessage] does to any document: it fails without [#game],
    and otherwise appends the message element under it. *)
Lemma printMessage_run w d :
  DOM.printMessage w d =
    match Document.querySelector (ById "game") d with
    | None => (Throw TypeError, d)
    | Some p =>
        (Return tt, Document.alter_at (appendChild (messageEl (messageText w))) p d)
    end.
Proof.
  unfold DOM.printMessage, DOM.createElement, DOM.getElement, DOM.append.
  js_simpl. simpl. destruct (Document.querySelector (ById "game") d) as [p|]; [|done].
  unfold messageText, messageEl.
  destruct w as [w|]; simpl;
    [destruct (bool_decide (w = "")), (bool_decide (Some w = Some "x"))|];
    reflexivity.
Qed.

(** What [clearMessage] does to any document: it fails when no element
    has class [message], and otherwise removes the first one. *)
Lemma clearMessage_run d :
  DOM.clearMessage d =
    match Document.querySelector (ByClass "message") d with
    | None => (Throw TypeError, d)
    | Some e => (Return tt, Document.remove_at e d)
    end.
Proof.
  unfold DOM.clearMessage, DOM.getElement. js_simpl.
  by destruct (Document.querySelector _ d).
Qed.

(** C8.  On any document, with the message elements those of class
    [message] in document order: [clearMessage] throws exactly when there
    is none, and then leaves the document as it is.  When there is one it
    returns, having removed the first message element from the place where
    it was: that one is gone, with the message elements inside it, while
    every other one is still there.  A
    [printMessage] that returns adds one message element, the one with its
    text; [clearMessage] then returns, and if no message was shown before
    that [printMessage], it takes the document back to what it was. *)
Theorem clearMessage_throws_iff_no_message d :
  let shown := elements (ByClass "message") in
  ((DOM.clearMessage d).1 = Throw TypeError ↔ shown d = [])
  ∧ (shown d = [] → DOM.clearMessage d = (Throw TypeError, d))
  ∧ (∀ m ms, shown d = m :: ms →
       ∃ e, Document.node_at e d = Some m ∧
            DOM.clearMessage d = (Return tt, Document.remove_at e d) ∧
            ms = (matching (ByClass "message") m
                  ++ shown (Document.remove_at e d))%list)
  ∧ (∀ w d1, DOM.printMessage w d = (Return tt, d1) →
       length (shown d1) = S (length (shown d)) ∧
       messageEl (messageText w) ∈ shown d1 ∧
       (DOM.clearMessage d1).1 = Return tt ∧
       (shown d = [] → DOM.clearMessage d1 = (Return tt, d))).
Proof.
  intros shown. subst shown. split; [|split; [|split]].
  - rewrite clearMessage_run, <- doc_querySelector_None.
    by destruct (Document.querySelector _ d).
  - intros Hnone%doc_querySelector_None. by rewrite clearMessage_run, Hnone.
  - intros m ms Hshown. rewrite clearMessage_run.
    destruct (Document.querySelector (ByClass "message") d) as [e|] eqn:Hq.
    + destruct (doc_remove_first _ _ _ Hq) as (m' & Hm' & _ & E).
      rewrite Hshown in E. injection E as -> ->. by exists e.
    + apply doc_querySelector_None in Hq. by rewrite Hq in Hshown.
  - intros w d1. rewrite printMessage_run.
    destruct (Document.querySelector (ById "game") d) as [p|] eqn:Hgame; [|done].
    intros [= <-].
    destruct (doc_querySelector_node_at _ _ _ Hgame)
      as (tag & cls & i & ds & ch & Hp & _ & _).
    pose proof (doc_append_length (ByClass "message") (messageEl (messageText w))
                  p d _ _ _ _ _ Hp) as Hlen.
    pose proof (doc_append_elem (ByClass "message") (messageEl (messageText w))
                  p d _ _ _ _ _ Hp eq_refl) as Hin.
    split; [by rewrite Hlen, Nat.add_1_r|]. split; [done|]. split.
    + rewrite clearMessage_run.
      destruct (Document.querySelector (ByClass "message") _) as [e|] eqn:Hq; [done|].
      apply doc_querySelector_None in Hq. rewrite Hq in Hin. by apply elem_of_nil in Hin.
    + intros Hnone%doc_querySelector_None. rewrite clearMessage_run.
      destruct (doc_remove_appended (ByClass "message") (messageEl (messageText w))
                  p d _ _ _ _ _ Hp eq_refl eq_refl Hnone) as (e & -> & ->).
      done.
Qed.

End Claims.

(** ** Edges of the engine, for any display *)

Section Cells.
Implicit Types (b : Board) (row col : Z).

Lemma index_insert {A} (a : list A) (i k : Z) (x y : A) :
  index a k = Some y →
  index (<[Z.to_nat k := x]> a) i = if bool_decide (i = k) then Some x else index a i.
Proof.
  intros Hk. pose proof (index_Some_range _ _ _ Hk) as Hr. unfold index.
  destruct (decide (i = k)) as [->|Hik].
  - rewrite !bool_decide_eq_true_2 by lia.
    apply list_lookup_insert_eq. lia.
  - rewrite (bool_decide_eq_false_2 (i = k)) by done.
    case_bool_decide; [|done]. apply list_lookup_insert_ne. lia.
Qed.

Lemma assign_in_range (a : list jsval) (i : Z) (v w : jsval) :
  index a i = Some w → assign a i v = <[Z.to_nat i := v]> a.
Proof.
  intros Hi%index_Some_range. unfold assign.
  rewrite bool_decide_eq_false_2 by lia. by rewrite bool_decide_eq_true_2 by lia.
Qed.

(** Reading a board after a write to one of its cells. *)
Lemma cellAt_written b row col v w i j :
  cellAt b row col = Some w →
  cellAt (written b row col v) i j
  = if bool_decide (i = row ∧ j = col) then Some v else cellAt b i j.
Proof.
  unfold cellAt, written. destruct (index b row) as [r|] eqn:Hr; [|done]. simpl.
  intros Hc. rewrite (index_insert _ _ _ _ r Hr), (assign_in_range _ _ _ w Hc).
  destruct (decide (i = row)) as [->|Hi].
  - rewrite bool_decide_eq_true_2 by done. simpl.
    rewrite (index_insert _ _ _ _ w Hc).
    destruct (decide (j = col)) as [->|Hj].
    + by rewrite !bool_decide_eq_true_2.
    + rewrite !bool_decide_eq_false_2 by tauto. by rewrite Hr.
  - rewrite !bool_decide_eq_false_2 by tauto. done.
Qed.
End Cells.

Section EngineEdges.
Context {D : Type} `{Display D}.
Implicit Types (t : TicTacToe D) (row col : Z).

(** While the game waits a click leaves the state as it is. *)
Lemma clickCell_waiting_state t row col :
  waiting t = true → (clickCell row col t).2 = t.
Proof.
  intros Hw. destruct (index (board t) row) as [r|] eqn:Hr.
  - erewrite clickCell_rejected; [done|by apply readCell_row|].
    rewrite Hw. apply andb_false_r.
  - rewrite clickCell_unfold. unfold bind at 1.
    by rewrite (readCell_no_row _ _ _ Hr).
Qed.

(** The mark is written before it is drawn: what [place] returns is what
    [updateBoard] returns, on the board already written. *)
Lemma place_run t row col w :
  cellAt (board t) row col = Some w →
  place row col t =
    let b := written (board t) row col (str (currentPlayer t)) in
    let (o, d) := updateBoard row col (currentPlayer t) (display t) in
    (o, set_display d (set_board b t)).
Proof.
  unfold cellAt, written, place, writeCell. js_simpl.
  destruct (index (board t) row) as [r|]; [|done]. intros _. simpl.
  by destruct (updateBoard _ _ _ _).
Qed.

(** X1.  A column index that names no cell of an existing row is not an
    error: the read gives [undefined], which is not the empty string, and
    the click returns normally with the state as it was. *)
Theorem clickCell_outside_columns t row col r :
  index (board t) row = Some r → ¬ (0 ≤ col < Z.of_nat (length r)) →
  clickCell row col t = (Return tt, t).
Proof.
  intros Hr Hcol%index_None_range. apply (clickCell_rejected _ _ _ undefined).
  - rewrite (readCell_row _ _ _ r Hr). by rewrite Hcol.
  - done.
Qed.

(** X2.  Nothing is rolled back when the view fails to draw the mark: the
    click ends with the view's exception, the board cell already holds the
    mark, and the player, the score, the waiting flag and the timers are as
    before.  The cell then counts as taken: the same click again is
    rejected. *)
Theorem clickCell_failed_draw t row col e d' :
  waiting t = false → cellAt (board t) row col = Some (str "") →
  updateBoard row col (currentPlayer t) (display t) = (Throw e, d') →
  let p := currentPlayer t in
  let t' := (clickCell row col t).2 in
  (clickCell row col t).1 = Throw e ∧
  cellAt (board t') row col = Some (str p) ∧ display t' = d' ∧
  currentPlayer t' = p ∧ score t' = score t ∧ waiting t' = false ∧
  timers t' = timers t ∧
  (p ≠ "" → clickCell row col t' = (Return tt, t')).
Proof.
  intros Hw Hcell Hdraw p t'.
  assert (Hclick : clickCell row col t
            = (Throw e, set_display d' (set_board (written (board t) row col (str p)) t))).
  { rewrite clickCell_accepted by done. unfold bind at 1.
    rewrite (place_run _ _ _ _ Hcell). simpl. by rewrite Hdraw. }
  subst t'. rewrite Hclick. simpl.
  assert (Hnow : cellAt (written (board t) row col (str p)) row col = Some (str p)).
  { rewrite (cellAt_written _ _ _ _ _ _ _ Hcell). by rewrite bool_decide_eq_true_2. }
  repeat split; try done.
  intros Hp. apply (clickCell_rejected _ _ _ (str p)).
  - by apply readCell_cellAt.
  - unfold strict_eq. rewrite bool_decide_eq_false_2; [done|]. congruence.
Qed.

(** X3.  When the view fails to show the message, [gameOver] ends with the
    view's exception after [waiting] is set and before the reset is
    scheduled: the game waits with no more timers than before, and every
    later click leaves it as it is. *)
Theorem gameOver_failed_message t w e d' :
  printMessage w (display t) = (Throw e, d') →
  let t' := (gameOver w t).2 in
  (gameOver w t).1 = Throw e ∧
  waiting t' = true ∧ timers t' = timers t ∧ board t' = board t ∧
  display t' = d' ∧
  ∀ row col, (clickCell row col t').2 = t'.
Proof.
  intros Hmsg t'.
  assert (Hrun : gameOver w t = (Throw e, set_display d' (set_waiting true t))).
  { unfold gameOver. js_simpl. simpl. by rewrite Hmsg. }
  subst t'. rewrite Hrun. simpl. repeat split; try done.
  intros row col. by apply clickCell_waiting_state.
Qed.

(** X4.  Switching twice gives back the state, whenever the current
    player is one of the two marks of [players]. *)
Theorem switchPlayer_twice t :
  currentPlayer t = mark_x (players t) ∨ currentPlayer t = mark_o (players t) →
  (switchPlayer ;; switchPlayer) t = (Return tt, t).
Proof.
  intros Hp. unfold switchPlayer. js_simpl. simpl. f_equal.
  destruct t as [d b [px po] wt w sc p ts]. unfold set_currentPlayer. simpl in *.
  f_equal. repeat case_bool_decide; destruct Hp; congruence.
Qed.

End EngineEdges.

Section Stalemate.
Implicit Types (b : Board).

Lemma full_no_empty_cell b :
  full b = true ↔ ∀ i j, cellAt b i j ≠ Some (str "").
Proof.
  unfold full. rewrite forallb_forall. split.
  - intros Hb i j Hij. unfold cellAt in Hij.
    destruct (index b i) as [r|] eqn:Hr; [|done]. simpl in Hij.
    unfold index in Hr, Hij. repeat case_bool_decide; try done.
    apply list_elem_of_lookup_2, list_elem_of_In, Hb in Hr.
    rewrite forallb_forall in Hr.
    apply list_elem_of_lookup_2, list_elem_of_In, Hr in Hij. done.
  - intros Hb r Hr%list_elem_of_In. apply forallb_forall.
    intros v Hv%list_elem_of_In.
    apply list_elem_of_lookup_1 in Hr as [i Hi], Hv as [j Hj].
    destruct (strict_eq v "") eqn:E; [|done]. apply bool_decide_eq_true_1 in E. subst v.
    destruct (Hb (Z.of_nat i) (Z.of_nat j)). unfold cellAt, index.
    rewrite !bool_decide_eq_true_2, !Nat2Z.id by lia. by rewrite Hi.
Qed.

(** X5.  The stalemate test of [clickCell], [stalemate.length < 1] for the
    rows filtered down to their empty cells, holds exactly when no cell of
    the board is the empty string, whatever the shape of the board. *)
Theorem stalemate_iff_no_empty_cell b :
  Z.of_nat (length (emptyCells b)) < 1 ↔ ∀ i j, cellAt b i j ≠ Some (str "").
Proof.
  rewrite <- full_no_empty_cell, <- stalemate_full.
  split; [apply bool_decide_eq_true_2|apply bool_decide_eq_true_1].
Qed.
End Stalemate.

(** ** Winning lines *)

(** Whether a mark fills a line of the board. *)
Definition lineOf (b : Board) (q : string) (line : list (Z * Z)) : bool :=
  forallb (λ '(i, j), bool_decide (cellAt b i j = Some (str q))) line.

(** Whether a mark fills one of the eight winning lines. *)
Definition hasLine (b : Board) (q : string) : bool := existsb (lineOf b q) lines.

Section Lines.
Implicit Types (b : Board) (row col : Z) (p q : string).

Lemma in_range_cases (i : Z) : 0 ≤ i ≤ 2 → i = 0 ∨ i = 1 ∨ i = 2.
Proof. lia. Qed.

(** A win found by the four checks is one of the eight lines. *)
Lemma wonAt_hasLine b p row col :
  0 ≤ row ≤ 2 → 0 ≤ col ≤ 2 → wonAt b p row col = true → hasLine b p = true.
Proof.
  intros Hr%in_range_cases Hc%in_range_cases.
  unfold wonAt, hasLine, lines, lineOf. cbn [existsb forallb].
  intros Hwon.
  repeat (apply orb_prop in Hwon as [Hwon | Hwon]).
  all: apply andb_prop in Hwon as [Hwon H3]; apply andb_prop in Hwon as [H1 H2].
  all: destruct Hr as [-> | [-> | ->]], Hc as [-> | [-> | ->]].
  all: rewrite H1, H2, H3; simpl; rewrite ?orb_true_r; reflexivity.
Qed.

(** A filled line through the cell just played is found by the four
    checks. *)
Lemma lineOf_wonAt b p line row col :
  line ∈ lines → (row, col) ∈ line → lineOf b p line = true →
  wonAt b p row col = true.
Proof.
  intros Hline Hcell. unfold lines in Hline.
  rewrite !elem_of_cons, elem_of_nil in Hline.
  destruct_or!; try done; subst line;
    rewrite !elem_of_cons, elem_of_nil in Hcell;
    destruct_or!; try done; simplify_eq;
    unfold lineOf, wonAt; cbn [forallb];
    intros H; apply andb_prop in H as [H1 H]; apply andb_prop in H as [H2 H];
    apply andb_prop in H as [H3 _];
    rewrite H1, H2, H3; simpl; rewrite ?orb_true_r; reflexivity.
Qed.

(** A move completes no line of a mark that had none, unless the four
    checks count it as a win of the mover. *)
Lemma hasLine_written b p q row col :
  cellAt b row col = Some (str "") →
  hasLine b q = false →
  (q = p → wonAt (written b row col (str p)) p row col = false) →
  hasLine (written b row col (str p)) q = false.
Proof.
  intros Hcell Hq Hwon. apply not_true_is_false. intros Hline.
  unfold hasLine in Hline. apply existsb_exists in Hline as (line & Hin & Hl).
  apply list_elem_of_In in Hin.
  destruct (decide ((row, col) ∈ line)) as [Hon | Hoff].
  - assert (q = p) as ->.
    { unfold lineOf in Hl. rewrite forallb_forall in Hl.
      apply list_elem_of_In, Hl, bool_decide_eq_true_1 in Hon.
      rewrite (cellAt_written _ _ _ _ _ _ _ Hcell) in Hon.
      rewrite bool_decide_eq_true_2 in Hon by done. congruence. }
    rewrite (lineOf_wonAt _ _ _ _ _ Hin Hon Hl) in Hwon. by specialize (Hwon eq_refl).
  - assert (lineOf b q line = true) as Hl'.
    { unfold lineOf in *. rewrite forallb_forall in *.
      intros [i j] Hij. specialize (Hl _ Hij). simpl in *.
      rewrite (cellAt_written _ _ _ _ _ _ _ Hcell) in Hl.
      rewrite (bool_decide_eq_false_2 (i = row ∧ j = col)) in Hl; [done|].
      intros [-> ->]. by apply Hoff, list_elem_of_In. }
    assert (hasLine b q = true); [|congruence].
    apply existsb_exists. exists line. by rewrite <- list_elem_of_In.
Qed.

End Lines.

(** ** The three kinds of step of the running game *)

Section Steps.
Implicit Types (t : TicTacToe Document) (row col : Z).

(** The state in which the win check of an accepted click runs. *)
Definition placed t row col : TicTacToe Document :=
  let b := written (board t) row col (str (currentPlayer t)) in
  set_display (view b (score t) []) (set_board b t).

(** What an event does to a consistent state: nothing, or it is an
    accepted move, or it is the reset. *)
Inductive step t : event → TicTacToe Document → Prop :=
| step_none e : step t e t
| step_move row col :
    waiting t = false →
    cellAt (board t) row col = Some (str "") →
    0 ≤ row ≤ 2 → 0 ≤ col ≤ 2 →
    board_ok (board (placed t row col)) →
    step t (Click row col)
      (concluded (wonAt (board (placed t row col)) (currentPlayer t) row col)
         (full (board (placed t row col))) (placed t row col))
| step_reset :
    waiting t = true → step t Timeout (afterReset t).

Lemma handle_step e t : consistent t → step t e (handle e t).
Proof.
  intros Ht. destruct e as [row col|]; simpl.
  - destruct (index (board t) row) as [r|] eqn:Hr.
    + destruct (strict_eq (default undefined (index r col)) "" && negb (waiting t)) eqn:Hg.
      * apply andb_true_iff in Hg as [Hv Hw%negb_true_iff].
        apply bool_decide_eq_true_1 in Hv.
        assert (Hcell : cellAt (board t) row col = Some (str "")).
        { unfold cellAt. rewrite Hr. simpl. by destruct (index r col); simplify_eq/=. }
        destruct (place_consistent t row col Ht Hw Hcell) as (Hplace & Hb' & Hrow & Hcol).
        destruct (clickCell_consistent t row col Ht Hw Hcell)
          as (t1 & win & Hplace' & Hwin & -> & _).
        rewrite Hplace in Hplace'. injection Hplace' as <-.
        fold (placed t row col) in Hwin |- *.
        rewrite (isGameWon_wonAt (placed t row col)) in Hwin; [|apply Hb'|done].
        injection Hwin as <-. simpl. by constructor.
      * erewrite clickCell_rejected; [constructor|by apply readCell_row|done].
    + rewrite clickCell_unfold. unfold bind at 1. rewrite (readCell_no_row _ _ _ Hr).
      constructor.
  - destruct (timers t) as [|d ts] eqn:Hts; [constructor|].
    destruct (waiting t) eqn:Hw.
    + destruct (onTimeout_consistent t Ht Hw) as (Hts' & Hrun & Hc).
      rewrite Hts' in Hts. injection Hts as <- <-. rewrite Hrun. by constructor.
    + destruct Ht as [_ _ _ _ _ Hd]. rewrite Hw in Hd. destruct Hd as [Hd _]. congruence.
Qed.

(** Induction over the games that can be played. *)
Lemma reachable_ind (P : TicTacToe Document → Prop) :
  P boot →
  (∀ t e t', reachable t → consistent t → P t → step t e t' → P t') →
  ∀ t, reachable t → P t.
Proof.
  intros Hboot Hstep t [es ->]. unfold run.
  induction es as [|e es IH] using rev_ind; [done|].
  rewrite foldl_app. simpl.
  assert (reachable (foldl (λ t e, handle e t) boot es)) as Hr by by exists es.
  eapply Hstep; [done|by apply reachable_consistent|done|].
  by apply handle_step, reachable_consistent.
Qed.

End Steps.

(** ** Rounds *)

(** The other mark. *)
Definition opponent (p : string) : string := if bool_decide (p = "x") then "o" else "x".

(** How a round stands: while it is played no mark fills a line; once it
    is over, the current player fills a line and is named by the message, or
    nobody fills a line, the board is full and the message says so.  The
    other player never fills a line. *)
Definition standing (t : TicTacToe Document) : Prop :=
  let p := currentPlayer t in
  hasLine (board t) (opponent p) = false ∧
  if waiting t then
    hasLine (board t) p = true ∧ messages (display t) = [messageText (Some p)]
    ∨ hasLine (board t) p = false ∧ full (board t) = true
      ∧ messages (display t) = ["Nobody wins!"]
  else hasLine (board t) p = false.

Section Rounds.
Implicit Types (t : TicTacToe Document) (row col : Z).

Lemma step_standing t e t' : consistent t → standing t → step t e t' → standing t'.
Proof.
  intros Ht [Ho Hs] Hstep. destruct Hstep as [e | row col Hw Hcell Hrow Hcol Hb' | Hw].
  - done.
  - rewrite Hw in Hs.
    destruct (messages_view (board (placed t row col))
                (score (concluded (wonAt (board (placed t row col)) (currentPlayer t) row col)
                          (full (board (placed t row col))) (placed t row col))) Hb')
      as [_ Hmsg].
    assert (Hother : hasLine (board (placed t row col)) (opponent (currentPlayer t)) = false).
    { apply hasLine_written; [done..|].
      unfold opponent. case_bool_decide; congruence. }
    assert (Hlost : wonAt (board (placed t row col)) (currentPlayer t) row col = false →
                    hasLine (board (placed t row col)) (currentPlayer t) = false).
    { intros Hwon. by apply hasLine_written. }
    assert (Hwon : wonAt (board (placed t row col)) (currentPlayer t) row col = true →
                   hasLine (board (placed t row col)) (currentPlayer t) = true).
    { by apply wonAt_hasLine. }
    assert (Hopp : opponent (opponent (currentPlayer t)) = currentPlayer t).
    { by destruct (ok_player _ Ht) as [-> | ->]. }
    unfold standing, concluded in *.
    destruct (wonAt _ _ row col); [|destruct (full _) eqn:Hfull]; simpl in *.
    + rewrite Hmsg. split; [done|]. left. auto.
    + rewrite Hmsg. split; [done|]. right. auto.
    + rewrite Hw. fold (opponent (currentPlayer t)). rewrite Hopp. auto.
  - unfold standing, afterReset. simpl. split; [|].
    + destruct (ok_player _ Ht) as [-> | ->]; by vm_compute.
    + destruct (ok_player _ Ht) as [-> | ->]; by vm_compute.
Qed.

Lemma reachable_standing t : reachable t → standing t.
Proof.
  intros Ht. induction Ht as [|t e t' _ Hc IH Hstep] using reachable_ind.
  - by vm_compute.
  - by eapply step_standing.
Qed.

(** X6.  In every reachable state in which a move can be made, no line of
    the board is filled by either mark: checking only the lines through the
    cell just played, and only for the mover's mark, misses no win. *)
Theorem playing_no_line t :
  reachable t → waiting t = false →
  hasLine (board t) "x" = false ∧ hasLine (board t) "o" = false.
Proof.
  intros Ht Hw. destruct (reachable_standing t Ht) as [Ho Hs].
  rewrite Hw in Hs. 
  destruct (ok_player _ (reachable_consistent _ Ht)) as [Hp | Hp];
    rewrite Hp in *; by vm_compute in Ho.
Qed.

(** X7.  In every reachable state in which the round is over, either the
    player whose turn it was fills a line and the message names that player,
    or no mark fills a line, the board is full and the message is "Nobody
    wins!"; the other player never fills a line. *)
Theorem round_over_result t :
  reachable t → waiting t = true →
  let p := currentPlayer t in
  hasLine (board t) (opponent p) = false ∧
  (hasLine (board t) p = true ∧ messages (display t) = [messageText (Some p)]
   ∨ hasLine (board t) p = false ∧ full (board t) = true
     ∧ messages (display t) = ["Nobody wins!"]).
Proof.
  intros Ht Hw p. destruct (reachable_standing t Ht) as [Ho Hs].
  by rewrite Hw in Hs.
Qed.

End Rounds.

(** ** Turns *)

(** How many cells of a row, and of the board, hold a mark. *)
Definition countRow (q : string) (r : list jsval) : nat :=
  length (List.filter (λ v, strict_eq v q) r).

Definition count (q : string) (b : Board) : nat := sum_list (countRow q <$> b).

Section Turns.
Implicit Types (t : TicTacToe Document) (b : Board) (row col : Z) (p q : string).

Lemma countRow_middle q (l1 l2 : list jsval) (x : jsval) :
  countRow q (l1 ++ x :: l2)
  = (countRow q l1 + (if strict_eq x q then 1 else 0) + countRow q l2)%nat.
Proof.
  unfold countRow. rewrite List.filter_app, length_app. simpl.
  destruct (strict_eq x q); simpl; lia.
Qed.

Lemma countRow_insert q p (r : list jsval) (j : nat) :
  r !! j = Some (str "") → q ≠ "" →
  countRow q (<[j := str p]> r)
  = (countRow q r + if bool_decide (p = q) then 1 else 0)%nat.
Proof.
  intros Hj Hq.
  pose proof (f_equal (countRow q) (take_drop_middle r j _ Hj)) as E.
  rewrite insert_take_drop by eauto using lookup_lt_Some.
  rewrite countRow_middle in E |- *. rewrite <- E.
  assert (strict_eq (str "") q = false) as ->.
  { apply bool_decide_eq_false_2. congruence. }
  assert (strict_eq (str p) q = bool_decide (p = q)) as ->.
  { apply bool_decide_ext. split; congruence. }
  lia.
Qed.

Lemma count_insert q b (i : nat) (r r' : list jsval) :
  b !! i = Some r →
  (count q (<[i := r']> b) + countRow q r = count q b + countRow q r')%nat.
Proof.
  unfold count. revert i. induction b as [|a b IH]; intros [|i] Hi; simplify_eq/=.
  - lia.
  - rewrite <- !Nat.add_assoc. f_equal. exact (IH i Hi).
Qed.

(** A move adds one to the count of the mover's mark and leaves the other
    count as it was. *)
Lemma count_written q b row col p :
  cellAt b row col = Some (str "") → q ≠ "" →
  count q (written b row col (str p))
  = (count q b + if bool_decide (p = q) then 1 else 0)%nat.
Proof.
  intros Hcell Hq. unfold cellAt in Hcell. unfold written.
  destruct (index b row) as [r|] eqn:Hr; [|done]. simpl in Hcell.
  rewrite (assign_in_range _ _ _ _ Hcell).
  assert (b !! Z.to_nat row = Some r) as Hr'.
  { unfold index in Hr. by case_bool_decide. }
  assert (r !! Z.to_nat col = Some (str "")) as Hc'.
  { unfold index in Hcell. by case_bool_decide. }
  pose proof (count_insert q b _ r (<[Z.to_nat col := str p]> r) Hr') as E.
  rewrite (countRow_insert q p r _ Hc' Hq) in E. lia.
Qed.

(** Who has moved how often in the round. *)
Definition balanced t : Prop :=
  let mine := count (currentPlayer t) (board t) in
  let theirs := count (opponent (currentPlayer t)) (board t) in
  if waiting t then (theirs ≤ mine ≤ theirs + 1)%nat
  else (mine ≤ theirs ≤ mine + 1)%nat.

Lemma step_balanced t e t' : consistent t → balanced t → step t e t' → balanced t'.
Proof.
  intros Ht Hs Hstep. destruct Hstep as [e | row col Hw Hcell Hrow Hcol Hb' | Hw].
  - done.
  - unfold balanced in Hs. rewrite Hw in Hs.
    assert (Hmine : count (currentPlayer t) (board (placed t row col))
                    = S (count (currentPlayer t) (board t))).
    { unfold placed. simpl. rewrite count_written; [|done|].
      - rewrite bool_decide_eq_true_2 by done. lia.
      - by destruct (ok_player _ Ht) as [-> | ->]. }
    assert (Htheirs : count (opponent (currentPlayer t)) (board (placed t row col))
                      = count (opponent (currentPlayer t)) (board t)).
    { unfold placed. simpl. rewrite count_written; [|done|].
      - rewrite bool_decide_eq_false_2; [lia|].
        by destruct (ok_player _ Ht) as [-> | ->].
      - by destruct (ok_player _ Ht) as [-> | ->]. }
    assert (Hopp : opponent (opponent (currentPlayer t)) = currentPlayer t).
    { by destruct (ok_player _ Ht) as [-> | ->]. }
    unfold balanced, concluded.
    destruct (wonAt _ _ row col); [|destruct (full _)]; simpl.
    + change (board (placed t row col)) with (written (board t) row col (str (currentPlayer t))) in *.
      lia.
    + change (board (placed t row col)) with (written (board t) row col (str (currentPlayer t))) in *.
      lia.
    + rewrite Hw. fold (opponent (currentPlayer t)). rewrite Hopp.
      change (board (placed t row col)) with (written (board t) row col (str (currentPlayer t))) in *.
      lia.
  - unfold balanced, afterReset. simpl.
    destruct (ok_player _ Ht) as [-> | ->]; vm_compute; lia.
Qed.

(** X8.  In every reachable state the two marks on the board differ in
    number by at most one: the player to move has as many marks as the other
    or one less, and once the round is over the player who moved last has as
    many as the other or one more. *)
Theorem turns_alternate t :
  reachable t →
  let mine := count (currentPlayer t) (board t) in
  let theirs := count (opponent (currentPlayer t)) (board t) in
  if waiting t then (theirs ≤ mine ≤ theirs + 1)%nat
  else (mine ≤ theirs ≤ mine + 1)%nat.
Proof.
  intros Ht. change (balanced t).
  induction Ht as [|t e t' _ Hc IH Hstep] using reachable_ind.
  - vm_compute. lia.
  - by eapply step_balanced.
Qed.

End Turns.

(** ** The state and the document of a running game *)

Section Running.
Implicit Types (t : TicTacToe Document) (row col : Z).

(** X9.  In every reachable state the board is three by three with cells
    that hold the empty string or a mark, reads outside it find nothing, the
    marks are "x" and "o", the delay is 2500, the current player is one of
    the marks and both win counts are integers from 0 to [2^53]. *)
Theorem reachable_state t :
  reachable t →
  (∀ row col, 0 ≤ row ≤ 2 → 0 ≤ col ≤ 2 →
     ∃ v, cellAt (board t) row col = Some (str v) ∧ (v = "" ∨ v = "x" ∨ v = "o")) ∧
  (∀ row col, ¬ (0 ≤ row ≤ 2 ∧ 0 ≤ col ≤ 2) → cellAt (board t) row col = None) ∧
  players t = {| mark_x := "x"; mark_o := "o" |} ∧
  wait t = 2500 ∧
  (currentPlayer t = "x" ∨ currentPlayer t = "o") ∧
  ∃ nx no, score t !! "x" = Some (Num nx) ∧ score t !! "o" = Some (Num no)
           ∧ 0 ≤ nx ≤ max_exact ∧ 0 ≤ no ≤ max_exact.
Proof.
  intros [Hb Hps Hwt Hp Hsc _]%reachable_consistent.
  repeat split; try done.
  - intros row col Hrow%in_range_cases Hcol%in_range_cases.
    assert (is_Some (cellAt (board t) row col)) as [v Hv].
    { destruct (board_ok_grid _ Hb) as (a0&a1&a2&a3&a4&a5&a6&a7&a8&Hg&_).
      rewrite Hg. destruct Hrow as [-> | [-> | ->]], Hcol as [-> | [-> | ->]]; vm_compute; eauto. }
    rewrite Hv. destruct (cellAt_ok _ _ _ _ Hb Hv) as [-> | [-> | ->]]; eauto 6.
  - intros row col Hout.
    destruct (cellAt (board t) row col) as [v|] eqn:Hcell; [|done].
    destruct (board_ok_grid _ Hb) as (a0&a1&a2&a3&a4&a5&a6&a7&a8&Hg&_).
    rewrite Hg in Hcell. apply cellAt_grid_range in Hcell. lia.
Qed.

(** X10.  In every reachable state the document is the page drawn from the
    board and the score, followed by the messages it shows; one message is
    shown and one reset is pending while [waiting] is true, none otherwise. *)
Theorem reachable_document t :
  reachable t →
  display t = view (board t) (score t) (messageEl <$> messages (display t)) ∧
  length (messages (display t)) = (if waiting t then 1 else 0)%nat ∧
  timers t = if waiting t then [2500] else [].
Proof.
  intros [Hb _ _ _ _ Hd]%reachable_consistent.
  destruct (messages_view (board t) (score t) Hb) as [Hnone Hone].
  destruct (waiting t).
  - destruct Hd as (Hts & m & Hd). rewrite Hd at 2 3. by rewrite Hone.
  - destruct Hd as (Hts & Hd). rewrite Hd at 2 3. by rewrite Hnone.
Qed.

(** X11.  In every reachable state a click on a row of the board, with any
    column, returns normally, and so does the pending reset: of the
    exceptions the handlers can throw, only the read outside the rows is
    left. *)
Theorem handlers_return t :
  reachable t →
  (∀ row col, 0 ≤ row ≤ 2 → (clickCell row col t).1 = Return tt) ∧
  (∀ d ts, timers t = d :: ts → (onTimeout (set_timers ts t)).1 = Return tt).
Proof.
  intros Ht%reachable_consistent. split.
  - intros row col Hrow.
    assert (is_Some (index (board t) row)) as [r Hr].
    { destruct (index (board t) row) eqn:E; [done|].
      apply index_None_range in E. destruct (ok_board _ Ht) as [Hlen _]. lia. }
    destruct (strict_eq (default undefined (index r col)) "" && negb (waiting t)) eqn:Hg.
    + apply andb_true_iff in Hg as [Hv Hw%negb_true_iff].
      apply bool_decide_eq_true_1 in Hv.
      assert (Hcell : cellAt (board t) row col = Some (str "")).
      { unfold cellAt. rewrite Hr. simpl. by destruct (index r col); simplify_eq/=. }
      by destruct (clickCell_consistent t row col Ht Hw Hcell) as (t1 & win & _ & _ & -> & _).
    + erewrite clickCell_rejected; [done|by apply readCell_row|done].
  - intros d ts Hts. destruct (waiting t) eqn:Hw.
    + destruct (onTimeout_consistent t Ht Hw) as (Hts' & Hrun & _).
      rewrite Hts' in Hts. injection Hts as <- <-. by rewrite Hrun.
    + destruct Ht as [_ _ _ _ _ Hd]. rewrite Hw in Hd. destruct Hd as [Hd _]. congruence.
Qed.

End Running.

(** ** What a click leaves alone, for any display *)

Section EngineFrame.
Context {D : Type} `{Display D}.
Implicit Types (t : TicTacToe D) (row col : Z).

(** What a handler may change: never the marks nor the delay; of the score
    only the entry of the player whose turn it was; of the timers nothing
    but one more at the end, with the delay of the game; the current player
    only to one of the two marks. *)
Definition framed t t' : Prop :=
  players t' = players t ∧ wait t' = wait t ∧
  (∀ k, k ≠ currentPlayer t → score t' !! k = score t !! k) ∧
  (timers t' = timers t ∨ timers t' = (timers t ++ [wait t])%list) ∧
  (currentPlayer t' = currentPlayer t ∨ currentPlayer t' = mark_x (players t)
   ∨ currentPlayer t' = mark_o (players t)).

Lemma framed_refl t : framed t t.
Proof. unfold framed. auto 10. Qed.

Lemma conclude_frame win b t :
  framed t (conclude win b t).2 ∧ board (conclude win b t).2 = board t.
Proof.
  unfold conclude, framed.
  destruct win; [|case_bool_decide];
    unfold increaseScore, gameOver, setTimeout, switchPlayer; js_simpl; simpl.
  - destruct (updateScore _ _ _) as [[[]|e] d]; simpl.
    + destruct (printMessage _ _) as [[[]|e] d']; simpl;
        repeat split; auto; intros k Hk; by rewrite lookup_insert_ne.
    + repeat split; auto; intros k Hk; by rewrite lookup_insert_ne.
  - destruct (printMessage _ _) as [[[]|e] d']; simpl; repeat split; auto.
  - repeat split; auto. case_bool_decide; auto.
Qed.

(** X12.  Whatever the display does, a click changes no cell of the board
    but the one clicked, never changes the marks or the delay, changes the
    score at most for the player whose turn it was, schedules at most one
    timer, with the delay of the game, and leaves as current player the same
    player or one of the two marks. *)
Theorem clickCell_frame t row col :
  let t' := (clickCell row col t).2 in
  framed t t' ∧
  ∀ i j, ¬ (i = row ∧ j = col) → cellAt (board t') i j = cellAt (board t) i j.
Proof.
  intros t'. subst t'.
  destruct (index (board t) row) as [r|] eqn:Hr; cycle 1.
  { assert (clickCell row col t = (Throw TypeError, t)) as ->.
    { rewrite clickCell_unfold. unfold bind at 1.
      by rewrite (readCell_no_row _ _ _ Hr). }
    split; [apply framed_refl|done]. }
  destruct (strict_eq (default undefined (index r col)) "" && negb (waiting t)) eqn:Hg;
    cycle 1.
  { erewrite clickCell_rejected; [|by apply readCell_row|done].
    split; [apply framed_refl|done]. }
  apply andb_true_iff in Hg as [Hv Hw%negb_true_iff].
  apply bool_decide_eq_true_1 in Hv.
  assert (Hcell : cellAt (board t) row col = Some (str "")).
  { unfold cellAt. rewrite Hr. simpl. by destruct (index r col); simplify_eq/=. }
  assert (Hcells : ∀ i j, ¬ (i = row ∧ j = col) →
            cellAt (written (board t) row col (str (currentPlayer t))) i j
            = cellAt (board t) i j).
  { intros i j Hij. rewrite (cellAt_written _ _ _ _ _ _ _ Hcell).
    by rewrite bool_decide_eq_false_2. }
  set (b := written (board t) row col (str (currentPlayer t))) in *.
  assert (Hplaced : ∀ d, framed t (set_display d (set_board b t))).
  { intros d. unfold framed. simpl. auto 10. }
  assert (Hclick : clickCell row col t =
            match updateBoard row col (currentPlayer t) (display t) with
            | (Return _, d) => settle row col (set_display d (set_board b t))
            | (Throw e, d) => (Throw e, set_display d (set_board b t))
            end).
  { rewrite clickCell_accepted by done. unfold bind at 1.
    rewrite (place_run _ _ _ _ Hcell). cbv zeta. fold b.
    by destruct (updateBoard _ _ _ _) as [[[]|e] d]. }
  rewrite Hclick. clear Hclick.
  destruct (updateBoard _ _ _ _) as [[[]|e] d]; [|split; [apply Hplaced|exact Hcells]].
  set (t1 := set_display d _).
  assert (Hsettle : framed t1 (settle row col t1).2 ∧ board (settle row col t1).2 = b).
  { assert (settle row col t1 =
              match isGameWon row col t1 with
              | (Return win, _) => conclude win (board t1) t1
              | (Throw e, _) => (Throw e, t1)
              end) as ->.
    { unfold settle. unfold bind at 1.
      pose proof (readonly_isGameWon row col t1) as Hro.
      destruct (isGameWon row col t1) as [[win|e] t1']; simpl in Hro; subst t1'; [|done].
      unfold bind at 1, gets at 1. unfold bind at 1, gets at 1.
      by replace (waiting t1) with false by (symmetry; exact Hw). }
    destruct (isGameWon row col t1) as [[win|e] t1'];
      [apply conclude_frame|split; [apply framed_refl|reflexivity]]. }
  destruct Hsettle as [Hf Hb]. rewrite Hb. split; [|exact Hcells].
  revert Hf. generalize (settle row col t1).2. intros t2. unfold framed. subst t1. simpl.
  intros (-> & -> & Hsc & Hts & Hp). auto 10.
Qed.

(** X13.  When the view has no message to clear, the reset ends with the
    view's exception before the board is replaced: the board keeps its
    marks, and a game that was waiting goes on waiting, with the timer
    spent. *)
Theorem reset_failed_clear t e d' :
  clearMessage (display t) = (Throw e, d') →
  let t' := (onTimeout t).2 in
  (onTimeout t).1 = Throw e ∧
  board t' = board t ∧ waiting t' = waiting t ∧ timers t' = timers t ∧
  display t' = d' ∧
  (waiting t = true → ∀ row col, (clickCell row col t').2 = t').
Proof.
  intros Hclear t'.
  assert (Hrun : onTimeout t = (Throw e, set_display d' t)).
  { unfold onTimeout, resetBoard. js_simpl. by rewrite Hclear. }
  subst t'. rewrite Hrun. simpl. repeat split; try done.
  intros Hw row col. by apply clickCell_waiting_state.
Qed.

End EngineFrame.

(** ** A round in play has a free cell *)

Section Progress.
Implicit Types (t : TicTacToe Document) (b : Board) (row col : Z).

Lemma row_not_full (r : list jsval) :
  forallb (λ v, negb (strict_eq v "")) r = false → ∃ j : nat, r !! j = Some (str "").
Proof.
  induction r as [|v r IH]; simpl; [done|].
  destruct (strict_eq v "") eqn:E; simpl.
  - intros _. exists 0%nat. apply bool_decide_eq_true_1 in E. by subst.
  - intros [j Hj]%IH. by exists (S j).
Qed.

Lemma not_full_empty_cell b :
  full b = false → ∃ row col, cellAt b row col = Some (str "").
Proof.
  unfold full. induction b as [|r b IH]; simpl; [done|].
  destruct (forallb (λ v, negb (strict_eq v "")) r) eqn:E; simpl.
  - intros (row & col & Hcell)%IH. exists (row + 1), col.
    assert (0 ≤ row) as Hrow.
    { unfold cellAt in Hcell. destruct (index b row) eqn:Hr; [|done].
      apply index_Some_range in Hr. lia. }
    unfold cellAt in *. replace (index (r :: b) (row + 1)) with (index b row); [done|].
    unfold index. rewrite !bool_decide_eq_true_2 by lia.
    by replace (Z.to_nat (row + 1)) with (S (Z.to_nat row)) by lia.
  - intros _. destruct (row_not_full r E) as [j Hj]. exists 0, (Z.of_nat j).
    unfold cellAt, index. simpl. rewrite bool_decide_eq_true_2 by lia.
    by rewrite Nat2Z.id.
Qed.

(** While a round is played the board is not full. *)
Definition playable (t : TicTacToe Document) : Prop :=
  waiting t = false → full (board t) = false.

Lemma step_playable t e t' : playable t → step t e t' → playable t'.
Proof.
  intros Ht Hstep. destruct Hstep as [e | row col Hw Hcell Hrow Hcol Hb' | Hw].
  - done.
  - unfold playable, concluded.
    destruct (wonAt _ _ row col); [done|]. by destruct (full _) eqn:Hfull.
  - intros _. by vm_compute.
Qed.

(** X14.  In every reachable state in which a move can be made the board
    has a cell that holds the empty string: a board filled by the last move
    always ends the round, so the game never stands still with nothing to
    click and no reset pending. *)
Theorem playing_has_free_cell t :
  reachable t → waiting t = false →
  ∃ row col, 0 ≤ row ≤ 2 ∧ 0 ≤ col ≤ 2 ∧ cellAt (board t) row col = Some (str "").
Proof.
  intros Ht Hw.
  assert (playable t) as Hopen.
  { clear Hw. induction Ht as [|t e t' _ Hc IH Hstep] using reachable_ind.
    - intros _. by vm_compute.
    - by eapply step_playable. }
  destruct (not_full_empty_cell _ (Hopen Hw)) as (row & col & Hcell).
  exists row, col.
  destruct (board_ok_grid _ (ok_board _ (reachable_consistent _ Ht)))
    as (a0&a1&a2&a3&a4&a5&a6&a7&a8&Hg&_).
  pose proof Hcell as Hin. rewrite Hg in Hin. apply cellAt_grid_range in Hin.
  split; [lia|]. split; [lia|done].
Qed.

End Progress.

(** ** Rounds, move by move *)

(** A round that [x] wins with the top row in five clicks, and its reset. *)
Definition x_opening : list event := [Click 0 0; Click 1 0; Click 0 1; Click 1 1].

Definition x_round : list event := (x_opening ++ [Click 0 2; Timeout])%list.

(** [n] such rounds, one after the other. *)
Fixpoint x_rounds (n : nat) : list event :=
  match n with
  | O => []
  | S n' => (x_round ++ x_rounds n')%list
  end.

(** The game in which [x] has won [2^53] rounds. *)
Definition game_at_limit : TicTacToe Document :=
  run (x_rounds (Z.to_nat max_exact)) boot.

(** A round is about to begin with [x] to move, whose count is [k]. *)
Definition served (k : Z) (t : TicTacToe Document) : Prop :=
  consistent t ∧ waiting t = false ∧ board t = createBoard ∧
  currentPlayer t = "x" ∧ score t !! "x" = Some (Num k).

Section Moves.
Implicit Types (t : TicTacToe Document) (row col k : Z) (b : Board) (p : string).

Lemma reachable_handle e t : reachable t → reachable (handle e t).
Proof.
  intros [es ->]. exists (es ++ [e])%list. unfold run. by rewrite foldl_app.
Qed.

Lemma reachable_run es t : reachable t → reachable (run es t).
Proof.
  intros [es0 ->]. exists (es0 ++ es)%list. unfold run. by rewrite foldl_app.
Qed.

Lemma run_app es1 es2 t : run (es1 ++ es2) t = run es2 (run es1 t).
Proof. unfold run. by rewrite foldl_app. Qed.

(** An accepted click in a consistent state, in full. *)
Lemma handle_move t row col :
  consistent t → waiting t = false → cellAt (board t) row col = Some (str "") →
  let t1 := placed t row col in
  let win := wonAt (board t1) (currentPlayer t) row col in
  place row col t = (Return tt, t1) ∧
  isGameWon row col t1 = (Return win, t1) ∧
  clickCell row col t = (Return tt, concluded win (full (board t1)) t1) ∧
  consistent (concluded win (full (board t1)) t1) ∧
  cellAt (board t1) row col = Some (str (currentPlayer t)).
Proof.
  intros Ht Hw Hcell t1 win.
  destruct (place_consistent t row col Ht Hw Hcell) as (Hplace & Hb' & Hrow & Hcol).
  destruct (clickCell_consistent t row col Ht Hw Hcell)
    as (t1' & win' & Hplace' & Hwin & Hclick & Hc).
  assert (t1' = t1) as -> by (rewrite Hplace in Hplace'; by injection Hplace').
  assert (Ew : isGameWon row col t1 = (Return win, t1))
    by exact (isGameWon_wonAt t1 row col (proj1 Hb') Hrow).
  assert (win' = win) as -> by congruence.
  split; [exact Hplace|]. split; [exact Ew|]. split; [exact Hclick|].
  split; [exact Hc|].
  subst t1. unfold placed. cbn [board set_display set_board].
  rewrite (cellAt_written _ _ _ _ _ _ _ Hcell). by rewrite bool_decide_eq_true_2.
Qed.

(** A move that neither wins nor fills the board. *)
Lemma move_on t row col b p :
  consistent t → waiting t = false → board t = b → currentPlayer t = p →
  cellAt b row col = Some (str "") →
  wonAt (written b row col (str p)) p row col = false →
  full (written b row col (str p)) = false →
  let t' := handle (Click row col) t in
  consistent t' ∧ waiting t' = false ∧ board t' = written b row col (str p) ∧
  currentPlayer t' = opponent p ∧ score t' = score t.
Proof.
  intros Ht Hw <- <- Hcell Hwin Hfull t'.
  destruct (handle_move t row col Ht Hw Hcell) as (_ & _ & Hclick & Hc & _).
  subst t'. simpl handle. rewrite Hclick in *. simpl snd.
  unfold placed in *. simpl board in *. simpl currentPlayer in *.
  rewrite Hwin, Hfull in *. simpl in *. done.
Qed.

(** A move that wins. *)
Lemma move_wins t row col b p :
  consistent t → waiting t = false → board t = b → currentPlayer t = p →
  cellAt b row col = Some (str "") →
  wonAt (written b row col (str p)) p row col = true →
  let t' := handle (Click row col) t in
  consistent t' ∧ waiting t' = true ∧ board t' = written b row col (str p) ∧
  currentPlayer t' = p ∧ score t' = <[p := plus_one (score t !! p)]> (score t) ∧
  (isGameWon row col (place row col t).2).1 = Return true ∧
  clickCell row col t = (Return tt, t').
Proof.
  intros Ht Hw <- <- Hcell Hwin t'.
  destruct (handle_move t row col Ht Hw Hcell) as (Hplace & Hwon & Hclick & Hc & _).
  subst t'. simpl handle. rewrite Hplace. simpl snd. rewrite Hwon, Hclick in *. simpl snd.
  unfold placed in *. simpl board in *. simpl currentPlayer in *.
  rewrite Hwin in *. simpl in *. done.
Qed.

(** The reset of a consistent state that waits. *)
Lemma handle_reset t :
  consistent t → waiting t = true →
  handle Timeout t = afterReset t ∧ consistent (afterReset t).
Proof.
  intros Ht Hw. destruct (onTimeout_consistent t Ht Hw) as (Hts & Hrun & Hc).
  split; [|done]. simpl. by rewrite Hts, Hrun.
Qed.

(** The first four moves of the round. *)
Lemma x_opening_run k t :
  served k t →
  let t4 := run x_opening t in
  consistent t4 ∧ waiting t4 = false ∧ currentPlayer t4 = "x" ∧
  cellAt (board t4) 0 2 = Some (str "") ∧
  wonAt (written (board t4) 0 2 (str "x")) "x" 0 2 = true ∧
  score t4 = score t.
Proof.
  intros (Hc & Hw & Hb & Hp & Hk) t4. subst t4.
  unfold run, x_opening. cbn [foldl].
  destruct (move_on t 0 0 _ _ Hc Hw Hb Hp) as (Hc1 & Hw1 & Hb1 & Hp1 & Hs1);
    [vm_compute; reflexivity..|].
  destruct (move_on _ 1 0 _ _ Hc1 Hw1 Hb1 Hp1) as (Hc2 & Hw2 & Hb2 & Hp2 & Hs2);
    [vm_compute; reflexivity..|].
  destruct (move_on _ 0 1 _ _ Hc2 Hw2 Hb2 Hp2) as (Hc3 & Hw3 & Hb3 & Hp3 & Hs3);
    [vm_compute; reflexivity..|].
  destruct (move_on _ 1 1 _ _ Hc3 Hw3 Hb3 Hp3) as (Hc4 & Hw4 & Hb4 & Hp4 & Hs4);
    [vm_compute; reflexivity..|].
  split; [exact Hc4|]. split; [exact Hw4|]. split; [exact Hp4|].
  rewrite Hb4. split; [vm_compute; reflexivity|]. split; [vm_compute; reflexivity|].
  congruence.
Qed.

(** One round: the count of [x] goes up by one below [2^53] and stays as
    it is at [2^53]. *)
Lemma x_round_run k t :
  served k t →
  served (if bool_decide (k < max_exact) then k + 1 else k) (run x_round t).
Proof.
  intros Hs. pose proof Hs as (_ & _ & _ & _ & Hk).
  destruct (x_opening_run k t Hs) as (Hc4 & Hw4 & Hp4 & Hcell & Hwin & Hs4).
  unfold x_round. rewrite run_app.
  set (t4 := run x_opening t) in *. clearbody t4.
  unfold run. cbn [foldl].
  destruct (move_wins t4 0 2 _ _ Hc4 Hw4 eq_refl Hp4 Hcell Hwin)
    as (Hc5 & Hw5 & _ & Hp5 & Hs5 & _).
  set (t5 := handle (Click 0 2) t4) in *. clearbody t5.
  destruct (handle_reset t5 Hc5 Hw5) as [-> Hc6].
  split; [exact Hc6|]. split; [done|]. split; [done|]. split; [exact Hp5|].
  simpl. rewrite Hs5, Hs4, lookup_insert_eq, Hk. simpl. by case_bool_decide.
Qed.

Lemma x_rounds_run (n : nat) : ∀ k t,
  0 ≤ k ≤ max_exact → served k t →
  served (Z.min (k + Z.of_nat n) max_exact) (run (x_rounds n) t).
Proof.
  induction n as [|n IH]; intros k t Hk Hs.
  - replace (Z.min (k + Z.of_nat 0) max_exact) with k by lia. exact Hs.
  - cbn [x_rounds]. rewrite run_app.
    pose proof (x_round_run k t Hs) as Hs1.
    case_bool_decide as Hlt.
    + pose proof (IH (k + 1) _ ltac:(lia) Hs1) as Hs2.
      replace (Z.min (k + Z.of_nat (S n)) max_exact)
        with (Z.min (k + 1 + Z.of_nat n) max_exact) by lia.
      exact Hs2.
    + pose proof (IH k _ Hk Hs1) as Hs2.
      replace (Z.min (k + Z.of_nat (S n)) max_exact)
        with (Z.min (k + Z.of_nat n) max_exact) by lia.
      exact Hs2.
Qed.

Lemma boot_served : served 0 boot.
Proof.
  split; [exact boot_consistent|]. repeat split; vm_compute; reflexivity.
Qed.

Lemma game_at_limit_reachable : reachable game_at_limit.
Proof. exists (x_rounds (Z.to_nat max_exact)). reflexivity. Qed.

Lemma game_at_limit_served : served max_exact game_at_limit.
Proof.
  unfold game_at_limit.
  assert (0 ≤ max_exact) as Hpos by (unfold max_exact; lia).
  pose proof (x_rounds_run (Z.to_nat max_exact) 0 boot ltac:(lia) boot_served) as Hs.
  rewrite Z2Nat.id in Hs by exact Hpos.
  replace (Z.min (0 + max_exact) max_exact) with max_exact in Hs by lia.
  exact Hs.
Qed.

(** The winning move of a round that [x], having won [2^53] rounds, is
    about to win. *)
Lemma served_limit_win t :
  served max_exact t →
  let t4 := run x_opening t in
  waiting t4 = false ∧ cellAt (board t4) 0 2 = Some (str "") ∧
  currentPlayer t4 = "x" ∧
  (clickCell 0 2 t4).1 = Return tt ∧
  (isGameWon 0 2 (place 0 2 t4).2).1 = Return true ∧
  score t4 !! "x" = Some (Num max_exact) ∧
  score (clickCell 0 2 t4).2 !! "x" = Some (Num max_exact).
Proof.
  intros Hs. pose proof Hs as (_ & _ & _ & _ & Hk).
  destruct (x_opening_run _ t Hs) as (Hc4 & Hw4 & Hp4 & Hcell & Hwin & Hs4).
  intros t4. fold t4 in Hc4, Hw4, Hp4, Hcell, Hwin, Hs4. clearbody t4.
  destruct (move_wins t4 0 2 _ _ Hc4 Hw4 eq_refl Hp4 Hcell Hwin)
    as (_ & _ & _ & _ & Hs5 & Hwon & Hclick).
  split; [exact Hw4|]. split; [exact Hcell|]. split; [exact Hp4|].
  split; [by rewrite Hclick|]. split; [exact Hwon|].
  split; [by rewrite Hs4|].
  rewrite Hclick. cbn [snd]. rewrite Hs5, lookup_insert_eq, Hs4, Hk.
  unfold plus_one. by rewrite bool_decide_eq_false_2 by lia.
Qed.

(** A state that waits is the state in which the last accepted click left
    the game. *)
Lemma waiting_last_move t :
  reachable t → waiting t = true →
  ∃ t0 row col,
    reachable t0 ∧ waiting t0 = false ∧
    cellAt (board t0) row col = Some (str "") ∧
    handle (Click row col) t0 = t.
Proof.
  intros [es ->]. induction es as [|e es IH] using rev_ind; intros Hw.
  - exfalso. revert Hw. vm_compute. discriminate.
  - rewrite run_app in *. unfold run at 1 in Hw. unfold run at 1.
    cbn [foldl] in *.
    set (s := run es boot) in *.
    assert (Hr : reachable s) by by exists es.
    pose proof (handle_step e s (reachable_consistent s Hr)) as Hs.
    remember (handle e s) as t' eqn:Et. destruct Hs as [e | row col Hws Hcell _ _ _ | Hws].
    + destruct (IH Hw) as (t0 & row & col & H0 & Hw0 & Hc0 & E0).
      exists t0, row, col. by rewrite E0.
    + exists s, row, col. done.
    + simpl in Hw. discriminate.
Qed.

End Moves.

Section Resets.
Implicit Types (t : TicTacToe Document) (row col : Z).

(** C7.  In a reachable state that waits, one reset is pending; when it
    runs it returns normally, the board is the empty board again, no
    message is shown, [waiting] is false, and the current player and the
    score are those of the state in which the round ended.  That player is
    the one who made the last move of the round: the state is the one in
    which an accepted click left a reachable state [t0] that did not wait,
    the mark that click placed is the current player's of [t0], and that
    player is current when the round is over and after the reset.  It is
    not the other player, to whom [switchPlayer] would have passed the
    turn.  The next accepted click places that player's mark again. *)
Theorem reset_keeps_last_mover t :
  reachable t → waiting t = true →
  let t' := handle Timeout t in
  timers t = [2500] ∧
  onTimeout (set_timers [] t) = (Return tt, t') ∧
  board t' = createBoard ∧
  (∀ i j, 0 ≤ i ≤ 2 → 0 ≤ j ≤ 2 → cellAt (board t') i j = Some (str "")) ∧
  waiting t' = false ∧ timers t' = [] ∧ messages (display t') = [] ∧
  currentPlayer t' = currentPlayer t ∧ score t' = score t ∧
  (∀ i j, 0 ≤ i ≤ 2 → 0 ≤ j ≤ 2 →
     cellAt (board (handle (Click i j) t')) i j = Some (str (currentPlayer t))) ∧
  ∃ t0 row col,
    reachable t0 ∧ waiting t0 = false ∧
    cellAt (board t0) row col = Some (str "") ∧
    handle (Click row col) t0 = t ∧
    cellAt (board t) row col = Some (str (currentPlayer t0)) ∧
    currentPlayer t = currentPlayer t0 ∧
    currentPlayer t' = currentPlayer t0 ∧
    currentPlayer t' ≠ opponent (currentPlayer t0) ∧
    currentPlayer t' ≠ currentPlayer (switchPlayer t).2.
Proof.
  intros Ht Hw t'.
  destruct (reset_restores t Ht Hw)
    as (Hts & Hrun & Hb & Hcells & Hw' & Hts' & Hmsg & Hp & Hsc & Hnext).
  fold t' in Hrun, Hb, Hcells, Hw', Hts', Hmsg, Hp, Hsc, Hnext.
  do 10 (split; [assumption|]).
  destruct (waiting_last_move t Ht Hw) as (t0 & row & col & Ht0 & Hw0 & Hcell & Et).
  exists t0, row, col.
  pose proof (reachable_consistent t0 Ht0) as Hc0.
  destruct (handle_move t0 row col Hc0 Hw0 Hcell) as (_ & _ & Hclick & _ & Hmark).
  assert (Hmover : board t = board (placed t0 row col) ∧ currentPlayer t = currentPlayer t0).
  { revert Hw. rewrite <- Et. simpl handle. rewrite Hclick. simpl snd.
    unfold concluded. cbv zeta.
    destruct (wonAt _ _ _ _); [intros _; split; reflexivity|].
    destruct (full _); [intros _; split; reflexivity|].
    simpl. rewrite Hw0. discriminate. }
  destruct Hmover as [Eb Ep].
  assert (Hx : currentPlayer t0 = "x" ∨ currentPlayer t0 = "o") by apply Hc0.
  pose proof (ok_players _ (reachable_consistent t Ht)) as Hps.
  repeat split; try done.
  - by rewrite Eb.
  - congruence.
  - rewrite Hp, Ep. unfold opponent. case_bool_decide; destruct Hx; congruence.
  - rewrite Hp. unfold switchPlayer. js_simpl. rewrite Hps. simpl.
    rewrite Ep. destruct Hx as [-> | ->]; done.
Qed.

End Resets.

(** ** Drawing on any page *)

(** The elements [printGameBoard] builds: a cell, a row with its cells, and
    the board with its rows. *)
Definition colEl (j : Z) : Node := Element "div" ["col"] None [("col", pretty j)] [].

Definition rowEl (i : Z) (cols : list Node) : Node :=
  Element "div" ["row"] None [("row", pretty i)] cols.

Definition boardEl (rows : list Node) : Node := Element "div" ["board"] None [] rows.

(** One cell element for each cell of a row, numbered from [j]. *)
Fixpoint colEls (j : Z) (row : list jsval) : list Node :=
  match row with
  | [] => []
  | _ :: row' => colEl j :: colEls (j + 1) row'
  end.

(** One row element for each row of a board, numbered from [i]. *)
Fixpoint rowEls (i : Z) (b : Board) : list Node :=
  match b with
  | [] => []
  | row :: b' => rowEl i (colEls 0 row) :: rowEls (i + 1) b'
  end.

(** The element [printScoreBoard] builds. *)
Definition scoreEl (sc : Score) : Node :=
  Element "div" ["score"] None []
    [Element "div" ["x"] (Some "score-x") [] [Text ("Player 1: " +:+ show (sc !! "x"))];
     Element "div" ["o"] (Some "score-o") [] [Text ("Player 2: " +:+ show (sc !! "o"))]].

Section Drawing.
#[local] Open Scope list_scope.
Implicit Types (n c : Node) (d : Document) (p q : path) (f g : Node → Node).

Lemma alter_at_app f p q n : alter_at f (p ++ q) n = alter_at (alter_at f q) p n.
Proof.
  revert n. induction p as [|i p IH]; intros n; [done|].
  destruct n as [|tag cls i0 ds ch]; [done|]. simpl. f_equal.
  apply list_alter_ext; [|done]. intros x _. apply IH.
Qed.

Lemma node_at_app p q n : node_at (p ++ q) n = node_at p n ≫= node_at q.
Proof.
  revert n. induction p as [|i p IH]; intros n; [done|].
  destruct n as [|tag cls i0 ds ch]; [done|]. simpl.
  destruct (ch !! i) as [c|]; [apply IH|done].
Qed.

Lemma alter_at_ext f g p n x :
  node_at p n = Some x → f x = g x → alter_at f p n = alter_at g p n.
Proof.
  revert n. induction p as [|i p IH]; intros n Hn Hx; simpl in *; [congruence|].
  destruct n as [|tag cls i0 ds ch]; [done|]. f_equal.
  apply list_alter_ext; [|done]. intros c Hc. rewrite Hc in Hn. by apply IH.
Qed.

Lemma alter_at_alter_at f g p n :
  alter_at g p (alter_at f p n) = alter_at (g ∘ f) p n.
Proof.
  revert n. induction p as [|i p IH]; intros n; [done|].
  destruct n as [|tag cls i0 ds ch]; [done|]. simpl. f_equal.
  rewrite list_alter_alter_eq. apply list_alter_ext; [|done]. intros x _. apply IH.
Qed.

Lemma node_at_alter_at f p n : node_at p (alter_at f p n) = f <$> node_at p n.
Proof.
  revert n. induction p as [|i p IH]; intros n; [done|].
  destruct n as [|tag cls i0 ds ch]; [done|]. simpl.
  rewrite list_lookup_alter_eq. destruct (ch !! i) as [c|]; [apply IH|done].
Qed.

(** Changing the child an [append] has just added is appending the changed
    child. *)
Lemma alter_at_appended f c p q n tag cls i ds ch :
  node_at p n = Some (Element tag cls i ds ch) →
  alter_at f (p ++ length ch :: q) (alter_at (appendChild c) p n)
  = alter_at (appendChild (alter_at f q c)) p n.
Proof.
  intros Hn. rewrite alter_at_app, alter_at_alter_at.
  apply (alter_at_ext _ _ _ _ _ Hn). simpl. f_equal.
  rewrite alter_app_r_alt by lia. by rewrite Nat.sub_diag.
Qed.

Lemma node_at_appended c p q n tag cls i ds ch :
  node_at p n = Some (Element tag cls i ds ch) →
  node_at (p ++ length ch :: q) (alter_at (appendChild c) p n) = node_at q c.
Proof.
  intros Hn. rewrite node_at_app, node_at_alter_at, Hn. simpl.
  by rewrite list_lookup_middle.
Qed.

(** The same on the document. *)
Lemma doc_alter_at_appended f c p q d tag cls i ds ch :
  Document.node_at p d = Some (Element tag cls i ds ch) →
  Document.alter_at f (p ++ length ch :: q) (Document.alter_at (appendChild c) p d)
  = Document.alter_at (appendChild (alter_at f q c)) p d.
Proof.
  destruct p as [|j p]; [done|]. rewrite doc_node_at. intros Hn.
  apply docNode_inj.
  change ((j :: p) ++ length ch :: q) with (j :: (p ++ length ch :: q)).
  rewrite !doc_alter_at. exact (alter_at_appended f c (j :: p) q _ _ _ _ _ _ Hn).
Qed.

Lemma doc_node_at_appended c p q d tag cls i ds ch :
  Document.node_at p d = Some (Element tag cls i ds ch) →
  Document.node_at (p ++ length ch :: q) (Document.alter_at (appendChild c) p d)
  = node_at q c.
Proof.
  destruct p as [|j p]; [done|]. rewrite doc_node_at. intros Hn.
  change ((j :: p) ++ length ch :: q) with (j :: (p ++ length ch :: q)).
  rewrite doc_node_at, doc_alter_at.
  exact (node_at_appended c (j :: p) q _ _ _ _ _ _ Hn).
Qed.

Lemma doc_alter_at_alter_at f g p d :
  Document.alter_at g p (Document.alter_at f p d) = Document.alter_at (g ∘ f) p d.
Proof.
  destruct p as [|j p]; [done|]. apply docNode_inj.
  rewrite !doc_alter_at. apply alter_at_alter_at.
Qed.

Lemma bind_return {S A B} (m : js S A) (k : A → js S B) s a s' :
  m s = (Return a, s') → (let* x := m in k x) s = k a s'.
Proof. intros Hm. unfold bind. by rewrite Hm. Qed.

Lemma createElement_run (tag cl : string) (data : option (string * Z)) d :
  cl ≠ "" → hasSpace cl = false →
  DOM.createElement tag (Some cl) data d
  = (Return (Element tag [cl] None
               match data with Some (k, v) => [(k, pretty v)] | None => [] end []), d).
Proof.
  intros Hcl Hsp. unfold DOM.createElement.
  rewrite bool_decide_eq_false_2, Hsp by done. reflexivity.
Qed.

Lemma append_run c p d n :
  Document.node_at p d = Some n →
  DOM.append (Some p) c d
  = (Return (p ++ [childCount n])%list, Document.alter_at (appendChild c) p d).
Proof. intros Hn. unfold DOM.append. js_simpl. simpl. by rewrite Hn. Qed.

Section Board.
Context (d : Document) (p : path) (tag : string) (cls : list string)
  (i0 : option string) (ds : list (string * string)) (ch : list Node).
Hypothesis Hgame : Document.node_at p d = Some (Element tag cls i0 ds ch).

(** The page with a board of these rows appended to the node at [p]. *)
Let withBoard (rows : list Node) : Document :=
  Document.alter_at (appendChild (boardEl rows)) p d.

Lemma appendCols_run rows i cs (row : list jsval) j :
  DOM.forEach (λ (col : jsval) j,
      let* boardCol := DOM.createElement "div" (Some "col") (Some ("col", j)) in
      DOM.append (Some (p ++ [length ch; length rows])%list) boardCol ;;
      ret tt) j row (withBoard (rows ++ [rowEl i cs]))
  = (Return tt, withBoard (rows ++ [rowEl i (cs ++ colEls j row)])).
Proof.
  revert cs j. induction row as [|v row IH]; intros cs j; cbn [DOM.forEach colEls].
  - by rewrite app_nil_r.
  - erewrite bind_return; cycle 1.
    { erewrite bind_return; [|by apply createElement_run].
      erewrite bind_return; [reflexivity|].
      apply append_run. unfold withBoard.
      rewrite (doc_node_at_appended _ _ _ _ _ _ _ _ _ Hgame). simpl.
      by rewrite list_lookup_middle. }
    unfold withBoard at 1.
    rewrite (doc_alter_at_appended _ _ _ _ _ _ _ _ _ _ Hgame).
    simpl alter_at. rewrite alter_app_r_alt by lia. rewrite Nat.sub_diag. simpl alter.
    change (Document.alter_at _ p d) with (withBoard (rows ++ [rowEl i (cs ++ [colEl j])])).
    rewrite IH. by rewrite <- app_assoc.
Qed.

Lemma appendRows_run rows (b : Board) i :
  DOM.forEach (λ (row : list jsval) i,
      let* boardRow := DOM.createElement "div" (Some "row") (Some ("row", i)) in
      let* boardRow := DOM.append (Some (p ++ [length ch])%list) boardRow in
      DOM.forEach (λ (col : jsval) j,
        let* boardCol := DOM.createElement "div" (Some "col") (Some ("col", j)) in
        DOM.append (Some boardRow) boardCol ;;
        ret tt) 0 row) i b (withBoard rows)
  = (Return tt, withBoard (rows ++ rowEls i b)).
Proof.
  revert rows i. induction b as [|row b IH]; intros rows i; cbn [DOM.forEach rowEls].
  - by rewrite app_nil_r.
  - erewrite bind_return; cycle 1.
    { erewrite bind_return; [|by apply createElement_run].
      erewrite bind_return; cycle 1.
      { apply append_run. unfold withBoard.
        by rewrite (doc_node_at_appended _ _ [] _ _ _ _ _ _ Hgame). }
      unfold withBoard at 1.
      rewrite (doc_alter_at_appended _ _ _ [] _ _ _ _ _ _ Hgame).
      simpl alter_at. simpl childCount.
      change (Document.alter_at _ p d) with (withBoard (rows ++ [rowEl i []])).
      rewrite <- app_assoc. simpl app.
      apply (appendCols_run rows i [] row 0). }
    simpl app. rewrite IH. by rewrite <- app_assoc.
Qed.

End Board.

Lemma printGameBoard_missing (b : Board) d :
  Document.querySelector (ById "game") d = None →
  DOM.printGameBoard b d = (Throw TypeError, d).
Proof.
  intros Hq. unfold DOM.printGameBoard.
  erewrite bind_return; [|reflexivity].
  erewrite bind_return; [|by apply createElement_run].
  by rewrite Hq.
Qed.

Lemma printGameBoard_found (b : Board) d p :
  Document.querySelector (ById "game") d = Some p →
  DOM.printGameBoard b d
  = (Return tt, Document.alter_at (appendChild (boardEl (rowEls 0 b))) p d).
Proof.
  intros Hq. unfold DOM.printGameBoard.
  erewrite bind_return; [|reflexivity].
  erewrite bind_return; [|by apply createElement_run].
  rewrite Hq.
  destruct (doc_querySelector_node_at _ _ _ Hq)
    as (tag & cls & i & ds & ch & Hp & _ & _).
  erewrite bind_return; [|by apply append_run].
  apply (appendRows_run d p _ _ _ _ _ Hp []).
Qed.

(** X15.  On any document and for any board, [printGameBoard] throws
    TypeError and leaves the document as it is when there is no [#game]
    element; otherwise it returns, having appended to the first [#game]
    element one board element with a row element for each row of the board
    and in it an empty cell element for each cell, numbered from 0.  What
    the cells of the board hold is not looked at. *)
Theorem printGameBoard_run (b : Board) d :
  DOM.printGameBoard b d =
    match Document.querySelector (ById "game") d with
    | None => (Throw TypeError, d)
    | Some p => (Return tt, Document.alter_at (appendChild (boardEl (rowEls 0 b))) p d)
    end.
Proof.
  destruct (Document.querySelector (ById "game") d) as [p|] eqn:Hq.
  - by apply printGameBoard_found.
  - by apply printGameBoard_missing.
Qed.

Lemma printScoreBoard_missing (sc : Score) d :
  Document.querySelector (ById "game") d = None →
  DOM.printScoreBoard sc d = (Throw TypeError, d).
Proof.
  intros Hq. unfold DOM.printScoreBoard.
  erewrite bind_return; [|reflexivity].
  erewrite bind_return; [|by apply createElement_run].
  by rewrite Hq.
Qed.

Lemma printScoreBoard_found (sc : Score) d p :
  Document.querySelector (ById "game") d = Some p →
  DOM.printScoreBoard sc d = (Return tt, Document.alter_at (appendChild (scoreEl sc)) p d).
Proof.
  intros Hq. unfold DOM.printScoreBoard.
  erewrite bind_return; [|reflexivity].
  erewrite bind_return; [|by apply createElement_run].
  rewrite Hq.
  destruct (doc_querySelector_node_at _ _ _ Hq)
    as (tag & cls & i & ds & ch & Hp & _ & _).
  erewrite bind_return; [|by apply append_run].
  erewrite bind_return; [|by apply createElement_run].
  erewrite bind_return; [|by apply createElement_run].
  cbn [childCount].
  erewrite bind_return; cycle 1.
  { apply append_run. by rewrite (doc_node_at_appended _ _ [] _ _ _ _ _ _ Hp). }
  rewrite (doc_alter_at_appended _ _ _ [] _ _ _ _ _ _ Hp).
  erewrite bind_return; cycle 1.
  { apply append_run. by rewrite (doc_node_at_appended _ _ [] _ _ _ _ _ _ Hp). }
  rewrite (doc_alter_at_appended _ _ _ [] _ _ _ _ _ _ Hp).
  reflexivity.
Qed.

(** X16.  On any document and for a score whose two counts are numbers
    of the model (or are missing), [printScoreBoard] throws TypeError and
    leaves the document as it is when there is no [#game] element;
    otherwise it returns, having appended to the first [#game] element the
    score element with the two counts. *)
Theorem printScoreBoard_run (sc : Score) d :
  exact_read (sc !! "x") → exact_read (sc !! "o") →
  DOM.printScoreBoard sc d =
    match Document.querySelector (ById "game") d with
    | None => (Throw TypeError, d)
    | Some p => (Return tt, Document.alter_at (appendChild (scoreEl sc)) p d)
    end.
Proof.
  intros _ _. destruct (Document.querySelector (ById "game") d) as [p|] eqn:Hq.
  - by apply printScoreBoard_found.
  - by apply printScoreBoard_missing.
Qed.

(** The first match stays the first match when the child that holds it
    is changed in a way that keeps it a match. *)
Lemma first_match_alter (test : Node → bool) (inside : Node → option path) g l k i q :
  first_match test inside k l = Some (i :: q) →
  (∀ c, test c = true → q = [] → test (g c) = true) →
  (∀ c, test c = false → inside c = Some q →
        test (g c) = false ∧ inside (g c) = Some q) →
  (k ≤ i)%nat ∧ first_match test inside k (alter g (i - k)%nat l) = Some (i :: q).
Proof.
  intros Hfirst Htest Hinside. revert k Hfirst.
  induction l as [|c l IH]; intros k Hfirst; [done|]. simpl in Hfirst.
  destruct (test c) eqn:Hc.
  - injection Hfirst as <- <-. split; [done|]. rewrite Nat.sub_diag. simpl.
    by rewrite Htest.
  - destruct (inside c) as [q'|] eqn:Hq.
    + injection Hfirst as <- <-. split; [done|]. rewrite Nat.sub_diag. simpl.
      destruct (Hinside c Hc Hq) as [-> ->]. done.
    + destruct (IH _ Hfirst) as [Hle Hrest]. split; [lia|].
      replace (i - k)%nat with (S (i - S k)) by lia. simpl. by rewrite Hc, Hq.
Qed.

(** The element a selector finds is still the one it finds after a child
    is appended to it. *)
Lemma querySelector_appendChild sel c p n :
  querySelector sel n = Some p →
  querySelector sel (alter_at (appendChild c) p n) = Some p.
Proof.
  revert n. induction p as [|i q IH]; intros n Hn.
  - destruct n as [|tag cls i0 ds ch]; [done|].
    by apply first_match_Some in Hn as (j & x & q & _ & ? & _).
  - destruct n as [|tag cls i0 ds ch]; [done|]. simpl in *.
    destruct (first_match_alter _ _ (alter_at (appendChild c) q) _ _ _ _ Hn) as [_ E].
    + intros x Hx ->. simpl. by rewrite matches_appendChild.
    + intros x Hx Hq. split; [by rewrite matches_alter_at|by apply IH].
    + by rewrite Nat.sub_0_r in E.
Qed.

Lemma doc_querySelector_appendChild sel c p d :
  Document.querySelector sel d = Some p →
  Document.querySelector sel (Document.alter_at (appendChild c) p d) = Some p.
Proof.
  intros Hq. destruct (doc_querySelector_below _ _ _ Hq) as (j & q & ->).
  rewrite doc_querySelector in *. rewrite doc_alter_at.
  by apply querySelector_appendChild.
Qed.

Lemma startGame_missing (t : TicTacToe Document) :
  Document.querySelector (ById "game") (display t) = None →
  startGame t = (Throw TypeError, t).
Proof.
  intros Hq. unfold startGame. js_simpl.
  change (@printScoreBoard Document DOM_Display) with DOM.printScoreBoard.
  rewrite printScoreBoard_missing by done. by destruct t.
Qed.

Lemma startGame_found (t : TicTacToe Document) p :
  Document.querySelector (ById "game") (display t) = Some p →
  startGame t =
    (Return tt,
     set_display
       (Document.alter_at (λ game, appendChild (boardEl (rowEls 0 (board t)))
                            (appendChild (scoreEl (score t)) game))
          p (display t)) t).
Proof.
  intros Hq. unfold startGame. js_simpl.
  change (@printScoreBoard Document DOM_Display) with DOM.printScoreBoard.
  change (@printGameBoard Document DOM_Display) with DOM.printGameBoard.
  rewrite (printScoreBoard_found _ _ _ Hq).
  cbn [display board set_display].
  rewrite (printGameBoard_found _ _ p) by by apply doc_querySelector_appendChild.
  rewrite doc_alter_at_alter_at. by destruct t.
Qed.

(** X17.  [startGame] on any page, for a game whose two counts are
    numbers of the model: without a [#game] element it throws TypeError at
    the score board, before the game board is printed, and changes nothing;
    with one, it returns and the first [#game] element has got the score
    element and after it the board element as its last two children. *)
Theorem startGame_run (t : TicTacToe Document) :
  exact_read (score t !! "x") → exact_read (score t !! "o") →
  startGame t =
    match Document.querySelector (ById "game") (display t) with
    | None => (Throw TypeError, t)
    | Some p =>
        (Return tt,
         set_display
           (Document.alter_at (λ game, appendChild (boardEl (rowEls 0 (board t)))
                                (appendChild (scoreEl (score t)) game))
              p (display t)) t)
    end.
Proof.
  intros _ _.
  destruct (Document.querySelector (ById "game") (display t)) as [p|] eqn:Hq.
  - by apply startGame_found.
  - by apply startGame_missing.
Qed.

End Drawing.

(** ** Clearing any page *)

(** A node with every cell element emptied: an element of class [col]
    loses its children, any other element keeps its own and has them
    cleared in turn. *)
Fixpoint cleared (n : Node) : Node :=
  match n with
  | Text _ => n
  | Element tag cls i ds ch =>
      if bool_decide ("col" ∈ cls) then Element tag cls i ds []
      else Element tag cls i ds (List.map cleared ch)
  end.

(** A node with every cell element below it emptied. *)
Definition clearedBelow (n : Node) : Node :=
  match n with
  | Text _ => n
  | Element tag cls i ds ch => Element tag cls i ds (List.map cleared ch)
  end.

(** The document with every cell element emptied. *)
Definition clearedDoc (d : Document) : Document :=
  Doc (List.map cleared (childNodes d)).

Section Clearing.
#[local] Open Scope list_scope.
Implicit Types (n c : Node) (d : Document) (q : path).

(** One turn of the loop of [clearGameBoard]. *)
Let clearCell (doc : Node) (cell : path) : Node := alter_at (setTextContent "") cell doc.

Lemma clearCell_leaf tag cls i ds qs :
  foldl clearCell (Element tag cls i ds []) qs = Element tag cls i ds [].
Proof. induction qs as [|[|j q] qs IH]; simpl; auto. Qed.

Lemma clearCell_child tag cls i ds (l : list Node) (k : nat) qs :
  foldl clearCell (Element tag cls i ds l) (List.map (cons k) qs)
  = Element tag cls i ds (alter (λ c, foldl clearCell c qs) k l).
Proof.
  revert l. induction qs as [|q qs IH]; intros l; simpl.
  - by rewrite list_alter_id.
  - unfold clearCell at 2. simpl. rewrite IH, list_alter_alter_eq. done.
Qed.

Lemma cleared_no_match c :
  matches (ByClass "col") c = false → cleared c = clearedBelow c.
Proof. destruct c as [|tag cls i ds ch]; [done|]. simpl. by intros ->. Qed.

Lemma clearCell_forest tag cls i ds (seen l : list Node) :
  Forall (λ c, foldl clearCell c (querySelectorAll (ByClass "col") c) = clearedBelow c) l →
  foldl clearCell (Element tag cls i ds (seen ++ l))
    (all_matches (matches (ByClass "col")) (querySelectorAll (ByClass "col"))
       (length seen) l)
  = Element tag cls i ds (seen ++ List.map cleared l).
Proof.
  intros Hl. revert seen. induction Hl as [|c l Hc _ IH]; intros seen; [done|].
  cbn [all_matches List.map]. rewrite !foldl_app.
  match goal with
  | |- foldl _ ?X _ = _ =>
      assert (X = Element tag cls i ds ((seen ++ [cleared c]) ++ l)) as ->
  end.
  { destruct (matches (ByClass "col") c) eqn:Hm.
    - destruct c as [|tag' cls' i' ds' ch']; [done|]. simpl in Hm.
      cbn [foldl]. unfold clearCell at 2. cbn [alter_at].
      rewrite clearCell_child, list_alter_alter_eq.
      rewrite alter_app_r_alt by lia. rewrite Nat.sub_diag. simpl.
      rewrite Hm, clearCell_leaf. by rewrite <- app_assoc.
    - cbn [foldl]. rewrite clearCell_child.
      rewrite alter_app_r_alt by lia. rewrite Nat.sub_diag. simpl.
      rewrite Hc, cleared_no_match by done. by rewrite <- app_assoc. }
  specialize (IH (seen ++ [cleared c])).
  rewrite length_app in IH. simpl in IH. rewrite Nat.add_1_r in IH.
  rewrite IH. by rewrite <- app_assoc.
Qed.

Lemma clearCell_all n :
  foldl clearCell n (querySelectorAll (ByClass "col") n) = clearedBelow n.
Proof.
  induction n as [s|tag cls i ds ch IH] using Node_forest_ind; [done|].
  apply (clearCell_forest tag cls i ds [] ch IH).
Qed.

Lemma cleared_idemp n : cleared (cleared n) = cleared n.
Proof.
  induction n as [s|tag cls i ds ch IH] using Node_forest_ind; [done|]. simpl.
  destruct (bool_decide ("col" ∈ cls)) eqn:Hc; simpl; rewrite Hc; [done|].
  f_equal. rewrite List.map_map. apply List.map_ext_in.
  intros c Hin%list_elem_of_In. by apply (proj1 (Forall_forall _ _) IH).
Qed.

Lemma all_matches_below (test : Node → bool) (inside : Node → list path) k l p :
  p ∈ all_matches test inside k l → p ≠ [].
Proof.
  revert k. induction l as [|c l IH]; intros k; simpl; [by intros ?%elem_of_nil|].
  rewrite !elem_of_app. intros [Hp | [Hp | Hp]].
  - destruct (test c); [|by apply elem_of_nil in Hp].
    by apply list_elem_of_singleton in Hp as ->.
  - by apply list_elem_of_fmap in Hp as (? & -> & _).
  - by eapply IH.
Qed.

Lemma doc_foldl_alter_at f d (ps : list path) :
  Forall (λ p, p ≠ []) ps →
  docNode (foldl (λ d p, Document.alter_at f p d) d ps)
  = foldl (λ n p, alter_at f p n) (docNode d) ps.
Proof.
  intros Hps. revert d. induction Hps as [|p ps Hp _ IH]; intros d; [done|].
  destruct p as [|j p]; [done|]. cbn [foldl]. by rewrite IH, doc_alter_at.
Qed.

(** X18.  On any document [clearGameBoard] returns normally, and what it
    leaves is the document with every element of class [col] emptied, a cell
    inside another cell going with its parent; clearing a second time
    changes nothing more. *)
Theorem clearGameBoard_run d :
  DOM.clearGameBoard d = (Return tt, clearedDoc d) ∧
  DOM.clearGameBoard (clearedDoc d) = (Return tt, clearedDoc d).
Proof.
  assert (Hrun : ∀ d', DOM.clearGameBoard d' = (Return tt, clearedDoc d')).
  { intros d'. unfold DOM.clearGameBoard, DOM.getAllElements. js_simpl.
    f_equal. apply docNode_inj. rewrite doc_foldl_alter_at.
    - rewrite doc_querySelectorAll. apply clearCell_all.
    - apply Forall_forall. intros p Hp. by eapply all_matches_below. }
  split; [apply Hrun|]. rewrite Hrun. f_equal.
  unfold clearedDoc. simpl. f_equal.
  rewrite List.map_map. apply List.map_ext. apply cleared_idemp.
Qed.

End Clearing.

(** ** The script on any page *)

(** The game as the constructor leaves it, on a display. *)
Definition fresh (d : Document) : TicTacToe Document :=
  {| display := d; board := createBoard;
     players := {| mark_x := "x"; mark_o := "o" |};
     wait := 2500; waiting := false;
     score := <["o" := Num 0]> (<["x" := Num 0]> ∅);
     currentPlayer := "x"; timers := [] |}.

Section Script.

(** X19.  The script on any page: the constructor returns with the fresh
    game, whose listener is bound; then, on a page with no [#game] element
    below the document node, [startGame] throws TypeError and the page
    stays as it was, and on a page with one the script returns with the
    score element and the three by three board element appended to the
    first of them. *)
Theorem script_run (pg : Document) :
  script pg =
    match Document.querySelector (ById "game") pg with
    | None => (Throw TypeError, fresh pg)
    | Some p =>
        (Return tt,
         fresh (Document.alter_at (λ game, appendChild (boardEl (rowEls 0 createBoard))
                                    (appendChild (scoreEl (score (fresh pg))) game))
                  p pg))
    end.
Proof.
  unfold script, constructor, call. simpl.
  change {| display := pg; board := createBoard;
            players := {| mark_x := "x"; mark_o := "o" |};
            wait := 2500; waiting := false;
            score := <["o" := Num 0]> (<["x" := Num 0]> ∅);
            currentPlayer := "x"; timers := [] |} with (fresh pg).
  destruct (Document.querySelector (ById "game") pg) as [p|] eqn:Hq.
  - rewrite (startGame_found _ p) by exact Hq. reflexivity.
  - rewrite startGame_missing by exact Hq. reflexivity.
Qed.

End Script.

(** ** The view's updates on the page of a running game *)

Section Updates.
Implicit Types (sel : selector) (t : TicTacToe Document) (row col : Z).

Lemma silent_text sel s : silent sel (Text s).
Proof. done. Qed.

Lemma silent_element sel tag cls i ds ch :
  matches sel (Element tag cls i ds ch) = false →
  Forall (silent sel) ch →
  silent sel (Element tag cls i ds ch).
Proof.
  intros Hm Hch. unfold silent. simpl in *.
  by rewrite Hm, first_match_silent, all_matches_silent.
Qed.

Lemma matches_data_other k v tag cls i k' v' ch :
  (k, v) ≠ (k', v') →
  matches (ByData k v) (Element tag cls i [(k', v')] ch) = false.
Proof.
  intros Hne. simpl. apply bool_decide_eq_false_2.
  by rewrite list_elem_of_singleton.
Qed.

Lemma matches_id_other s tag cls s' ds ch :
  s ≠ s' → matches (ById s) (Element tag cls (Some s') ds ch) = false.
Proof. intros Hne. simpl. apply bool_decide_eq_false_2. congruence. Qed.

(** No element of the page carries the data attribute. *)
Ltac no_data :=
  first
    [ reflexivity
    | apply matches_data_other;
      let E := fresh in
      intros E; first [discriminate E | injection E as E; apply (inj pretty) in E; lia] ].

Ltac all_silent Hm Hmsgs tac :=
  repeat first
    [ exact I
    | apply Forall_nil
    | apply Hm; done
    | apply Hmsgs
    | apply Forall_cons; split
    | apply silent_text
    | apply silent_element; [tac|] ].

Lemma silent_messageEl sel s : sel ≠ ByClass "message" → silent sel (messageEl s).
Proof.
  intros Hsel. apply silent_element; [|by repeat constructor].
  destruct sel as [i|c|k v]; simpl; try done.
  apply bool_decide_eq_false_2. rewrite list_elem_of_singleton. congruence.
Qed.

Lemma updateBoard_off_rows tx to m msgs row col p :
  p = "x" ∨ p = "o" → quiet m →
  Forall (silent (ByData "row" (pretty row))) msgs →
  ¬ 0 ≤ row ≤ 2 →
  DOM.updateBoard row col p (drawn tx to m msgs)
  = (Throw TypeError, drawn tx to m msgs).
Proof.
  intros Hp Hm Hmsgs Hrow.
  assert (Hq : Document.querySelector (ByData "row" (pretty row)) (drawn tx to m msgs)
               = None).
  { unfold drawn, Document.querySelector. cbn [childNodes].
    apply first_match_silent. all_silent Hm Hmsgs no_data. }
  unfold DOM.updateBoard.
  erewrite bind_return;
    [|apply createElement_run; destruct Hp as [-> | ->]; done].
  cbv zeta. unfold DOM.getElement. unfold bind at 1, gets at 1. by rewrite Hq.
Qed.

Lemma updateBoard_off_columns tx to m msgs (r : nat) col p :
  p = "x" ∨ p = "o" → quiet m → (r < 3)%nat → ¬ 0 ≤ col ≤ 2 →
  DOM.updateBoard (Z.of_nat r) col p (drawn tx to m msgs)
  = (Throw TypeError, drawn tx to m msgs).
Proof.
  intros Hp Hm Hr Hcol.
  assert (Hrow : Document.querySelector (ByData "row" (pretty (Z.of_nat r)))
                   (drawn tx to m msgs)
                 = Some [0; 0; 0; 1; r]%nat).
  { destruct r as [|[|[|]]]; [| | |lia]; unfold drawn; simpl;
      repeat (rewrite ?first_match_silent by (apply Hm; done); simpl); reflexivity. }
  unfold DOM.updateBoard.
  erewrite bind_return;
    [|apply createElement_run; destruct Hp as [-> | ->]; done].
  cbv zeta. unfold DOM.getElement. unfold bind at 1, gets at 1. rewrite Hrow.
  unfold DOM.querySelectorIn. unfold bind at 1. unfold bind at 1, gets at 1.
  match goal with
  | |- context [fmap (app ?q) ?e] => assert (e = None) as ->
  end; [|reflexivity].
  destruct r as [|[|[|]]]; [| | |lia]; unfold drawn;
    cbn [id Document.node_at node_at childNodes lookup list_lookup mbind option_bind
         querySelector];
    apply first_match_silent; all_silent Hm Hm no_data.
Qed.

Lemma updateBoard_on_board tx to m msgs (r c : nat) p :
  p = "x" ∨ p = "o" → quiet m → (r < 3)%nat → (c < 3)%nat →
  DOM.updateBoard (Z.of_nat r) (Z.of_nat c) p (drawn tx to m msgs)
  = (Return tt,
     Document.alter_at (appendChild (mark p)) [0; 0; 0; 1; r; c]%nat (drawn tx to m msgs)).
Proof.
  intros Hp Hm Hr Hc. rewrite updateBoard_drawn by done. f_equal.
  destruct r as [|[|[|]]]; [| | |lia];
    (destruct c as [|[|[|]]]; [| | |lia]); reflexivity.
Qed.

(** X20.  [updateBoard] on the page of a running game, for the mark of a
    player: for a row and a column of the board it returns, having appended
    one mark element to the cell's element, whatever the cell already shows;
    for any other row or column it finds no element, throws TypeError and
    leaves the page as it is. *)
Theorem updateBoard_on_page t row col p :
  reachable t → p = "x" ∨ p = "o" →
  DOM.updateBoard row col p (display t) =
    if bool_decide (0 ≤ row ≤ 2 ∧ 0 ≤ col ≤ 2)
    then (Return tt,
          Document.alter_at (appendChild (mark p))
            [0; 0; 0; 1; Z.to_nat row; Z.to_nat col]%nat (display t))
    else (Throw TypeError, display t).
Proof.
  intros Ht%reachable_consistent Hp.
  pose proof (quiet_view _ (ok_board _ Ht)) as Hm.
  assert (∃ msgs, display t = view (board t) (score t) msgs ∧
                  ∀ k v, Forall (silent (ByData k v)) msgs) as (msgs & -> & Hmsgs).
  { pose proof (ok_display _ Ht) as Hd. destruct (waiting t).
    - destruct Hd as (_ & s & ->). eexists. split; [done|].
      intros k v. constructor; [by apply silent_messageEl|constructor].
    - destruct Hd as (_ & ->). eexists. split; [done|]. intros k v. constructor. }
  unfold view. case_bool_decide as Hin.
  - destruct Hin as [Hrow Hcol].
    rewrite <- (Z2Nat.id row), <- (Z2Nat.id col) at 1 by lia.
    apply updateBoard_on_board; (done || lia).
  - destruct (decide (0 ≤ row ≤ 2)) as [Hrow | Hrow].
    + rewrite <- (Z2Nat.id row) by lia.
      apply updateBoard_off_columns; (done || lia).
    + by apply updateBoard_off_rows.
Qed.

(** X21.  [updateScore] on the page of a running game, for a player that
    is a name (lower-case letters, digits, [-] and [_]) and a score entry
    that is a number of the model, if there is one: for ["x"] it returns
    with the text of the first score element replaced, for ["o"] with the
    text of the second, the text being the player's label and
    [currentScore[currentPlayer]]; for any other such player there is no
    score element, it throws TypeError and leaves the page as it is. *)
Theorem updateScore_on_page t (sc : Score) (p : string) :
  reachable t → isName p = true → exact_read (sc !! p) →
  let text :=
    (if bool_decide (p = "x") then "Player 1" else "Player 2")
      +:+ ": " +:+ show (sc !! p) in
  DOM.updateScore sc p (display t) =
    if bool_decide (p = "x")
    then (Return tt,
          Document.alter_at (setTextContent text) [0; 0; 0; 0; 0]%nat (display t))
    else if bool_decide (p = "o")
    then (Return tt,
          Document.alter_at (setTextContent text) [0; 0; 0; 0; 1]%nat (display t))
    else (Throw TypeError, display t).
Proof.
  intros Ht%reachable_consistent Hname _ text. subst text.
  pose proof (quiet_view _ (ok_board _ Ht)) as Hm.
  assert (∃ msgs, display t = view (board t) (score t) msgs ∧
                  ∀ s, Forall (silent (ById s)) msgs) as (msgs & -> & Hmsgs).
  { pose proof (ok_display _ Ht) as Hd. destruct (waiting t).
    - destruct Hd as (_ & s & ->). eexists. split; [done|].
      intros s'. constructor; [by apply silent_messageEl|constructor].
    - destruct Hd as (_ & ->). eexists. split; [done|]. intros s'. constructor. }
  unfold view. unfold DOM.updateScore. rewrite Hname. unfold DOM.getElement.
  unfold bind at 1, gets at 1.
  destruct (decide (p = "x")) as [-> | Hx]; [reflexivity|].
  destruct (decide (p = "o")) as [-> | Ho]; [reflexivity|].
  rewrite !bool_decide_eq_false_2 by done.
  match goal with
  | |- context [Document.querySelector ?sel ?d] =>
      assert (Document.querySelector sel d = None) as ->
  end; [|reflexivity].
  unfold drawn, Document.querySelector. cbn [childNodes]. apply first_match_silent.
  all_silent Hm (Hmsgs ("score-" +:+ p))
    ltac:(first
      [ reflexivity
      | apply matches_id_other;
        let E := fresh in
        intros E; first [discriminate E | injection E as E; first [exact (Hx E) | exact (Ho E)]] ]).
Qed.

End Updates.

(** ** The theorems at work on sample games *)

(** One move: x at (0, 0). *)
Definition game_opened : TicTacToe Document := run [Click 0 0] boot.

(** Four moves; x, to move, holds (0, 0) and (0, 1). *)
Definition game_before_win : TicTacToe Document :=
  run [Click 0 0; Click 1 0; Click 0 1; Click 1 1] boot.

(** The round x has just won with the top row. *)
Definition game_won : TicTacToe Document :=
  run [Click 0 0; Click 1 0; Click 0 1; Click 1 1; Click 0 2] boot.

(** Eight moves; x, to move, completes the left column with the last
    empty cell, (2, 0). *)
Definition game_last_cell : TicTacToe Document :=
  run [Click 0 0; Click 0 1; Click 0 2; Click 1 1;
       Click 1 0; Click 1 2; Click 2 1; Click 2 2] boot.

Lemma isGameWon_winning_lines_witness :
  length (board game_won) = 3%nat ∧ currentPlayer game_won = "x" ∧
  isGameWon 0 2 game_won = (Return true, game_won).
Proof.
  assert (Hlen : length (board game_won) = 3%nat) by (vm_compute; reflexivity).
  assert (Hp : currentPlayer game_won = "x") by (vm_compute; reflexivity).
  split; [exact Hlen|]. split; [exact Hp|].
  apply (proj2 (isGameWon_winning_lines game_won "x" Hlen Hp)
           [(0, 0); (0, 1); (0, 2)]).
  - unfold lines. apply list_elem_of_here.
  - do 2 apply list_elem_of_further. apply list_elem_of_here.
  - intros i j Hij. rewrite !elem_of_cons, elem_of_nil in Hij.
    destruct Hij as [[= -> ->] | [[= -> ->] | [[= -> ->] | []]]];
      vm_compute; reflexivity.
Defined.

Lemma clickCell_occupied_noop_witness :
  cellAt (board game_opened) 0 0 = Some (str "x") ∧ str "x" ≠ str "" ∧
  clickCell 0 0 game_opened = (Return tt, game_opened).
Proof.
  assert (Hcell : cellAt (board game_opened) 0 0 = Some (str "x"))
    by (vm_compute; reflexivity).
  assert (Hne : str "x" ≠ str "") by discriminate.
  split; [exact Hcell|]. split; [exact Hne|].
  exact (clickCell_occupied_noop game_opened 0 0 (str "x") Hcell Hne).
Defined.

Lemma clickCell_waiting_noop_witness :
  waiting game_won = true ∧ (clickCell 2 2 game_won).2 = game_won.
Proof.
  assert (Hw : waiting game_won = true) by (vm_compute; reflexivity).
  split; [exact Hw|]. exact (clickCell_waiting_noop game_won 2 2 Hw).
Defined.

Lemma clickCell_faults_outside_rows_witness :
  length (board boot) = 3%nat ∧ clickCell 3 0 boot = (Throw TypeError, boot) ∧
  clickCell (-1) 0 boot = (Throw TypeError, boot).
Proof.
  assert (Hlen : length (board boot) = 3%nat) by (vm_compute; reflexivity).
  split; [exact Hlen|].
  pose proof (proj1 (clickCell_faults_outside_rows boot 0 Hlen)) as H.
  split; [apply (H 3); lia|apply (H (-1)); lia].
Defined.

Lemma clickCell_score_witness :
  reachable game_before_win ∧ waiting game_before_win = false ∧
  cellAt (board game_before_win) 0 2 = Some (str "") ∧
  score game_before_win !! "x" = Some (Num 0) ∧
  score (clickCell 0 2 game_before_win).2 !! "x" = Some (Num 1) ∧
  score (clickCell 0 2 game_before_win).2 !! "o" = score game_before_win !! "o".
Proof.
  assert (Hr : reachable game_before_win) by (eexists; reflexivity).
  assert (Hw : waiting game_before_win = false) by (vm_compute; reflexivity).
  assert (Hcell : cellAt (board game_before_win) 0 2 = Some (str ""))
    by (vm_compute; reflexivity).
  assert (Hp : currentPlayer game_before_win = "x") by (vm_compute; reflexivity).
  split; [exact Hr|]. split; [exact Hw|]. split; [exact Hcell|].
  destruct (clickCell_score game_before_win 0 2 Hr Hw Hcell)
    as (_ & win & Hwin & Hscore).
  assert (win = true) as -> by (vm_compute in Hwin; congruence).
  rewrite Hp in Hscore. destruct Hscore as [(n & _ & Hn & Hn') Hother].
  assert (n = 0) as -> by (vm_compute in Hn; congruence).
  split; [exact Hn|]. split; [|apply Hother; discriminate].
  rewrite Hn'. vm_compute. reflexivity.
Defined.

(** The count at its limit.  In the game in which [x] has won [2^53]
    rounds and, four moves into the next, is about to win again, the
    winning click is accepted and returns, the win check returns true, and
    the count of [x], the player who moves, is [2^53] before the click and
    [2^53] after it: it has not gone up by 1. *)
Lemma clickCell_score_counterexample :
  reachable (run x_opening game_at_limit) ∧
  waiting (run x_opening game_at_limit) = false ∧
  cellAt (board (run x_opening game_at_limit)) 0 2 = Some (str "") ∧
  currentPlayer (run x_opening game_at_limit) = "x" ∧
  (clickCell 0 2 (run x_opening game_at_limit)).1 = Return tt ∧
  (isGameWon 0 2 (place 0 2 (run x_opening game_at_limit)).2).1 = Return true ∧
  score (run x_opening game_at_limit) !! "x" = Some (Num max_exact) ∧
  score (clickCell 0 2 (run x_opening game_at_limit)).2 !! "x"
    = Some (Num max_exact) ∧
  score (clickCell 0 2 (run x_opening game_at_limit)).2 !! "x"
    ≠ Some (Num (max_exact + 1)).
Proof.
  pose proof (served_limit_win game_at_limit game_at_limit_served) as H.
  cbv zeta in H.
  destruct H as (Hw & Hcell & Hp & Hret & Hwon & Hbefore & Hafter).
  split; [exact (reachable_run x_opening _ game_at_limit_reachable)|].
  split; [exact Hw|]. split; [exact Hcell|]. split; [exact Hp|].
  split; [exact Hret|]. split; [exact Hwon|]. split; [exact Hbefore|].
  split; [exact Hafter|].
  rewrite Hafter. intros E. injection E as E. lia.
Qed.

Lemma clickCell_alternates_witness :
  reachable boot ∧ waiting boot = false ∧ cellAt (board boot) 1 1 = Some (str "") ∧
  (isGameWon 1 1 (place 1 1 boot).2).1 = Return false ∧
  full (board (place 1 1 boot).2) = false ∧
  currentPlayer boot = "x" ∧ currentPlayer (clickCell 1 1 boot).2 = "o" ∧
  waiting (clickCell 1 1 boot).2 = false.
Proof.
  assert (Hr : reachable boot) by (exists []; reflexivity).
  assert (Hw : waiting boot = false) by (vm_compute; reflexivity).
  assert (Hcell : cellAt (board boot) 1 1 = Some (str "")) by (vm_compute; reflexivity).
  assert (Hlost : (isGameWon 1 1 (place 1 1 boot).2).1 = Return false)
    by (vm_compute; reflexivity).
  assert (Hfull : full (board (place 1 1 boot).2) = false) by (vm_compute; reflexivity).
  split; [exact Hr|]. split; [exact Hw|]. split; [exact Hcell|].
  split; [exact Hlost|]. split; [exact Hfull|].
  destruct (clickCell_alternates boot 1 1 Hr Hw Hcell Hlost Hfull)
    as [[[Hx Ho] | [Ho _]] Hw'].
  - split; [exact Hx|]. split; [exact Ho|exact Hw'].
  - vm_compute in Ho. discriminate Ho.
Defined.


Lemma reset_keeps_last_mover_witness :
  reachable game_won ∧ waiting game_won = true ∧
  board (handle Timeout game_won) = createBoard ∧
  waiting (handle Timeout game_won) = false ∧
  currentPlayer (handle Timeout game_won) = currentPlayer game_won ∧
  score (handle Timeout game_won) = score game_won ∧
  currentPlayer (handle Timeout game_won) ≠ currentPlayer (switchPlayer game_won).2.
Proof.
  assert (Hr : reachable game_won) by (eexists; reflexivity).
  assert (Hw : waiting game_won = true) by (vm_compute; reflexivity).
  split; [exact Hr|]. split; [exact Hw|].
  destruct (reset_keeps_last_mover game_won Hr Hw)
    as (_ & _ & Hb & _ & Hw' & _ & _ & Hp & Hs & _ & Hlast).
  split; [exact Hb|]. split; [exact Hw'|]. split; [exact Hp|]. split; [exact Hs|].
  destruct Hlast as (t0 & row & col & _ & _ & _ & _ & _ & _ & _ & _ & Hnext).
  exact Hnext.
Defined.

(** The player after the reset.  [x], to move, wins the round with the
    click on (0, 2); had the round gone on, [switchPlayer] would have passed
    the turn to [o].  After the reset the current player is [x], the player
    who made the last move, and not [o], the player who would have moved
    next. *)
Lemma reset_keeps_last_mover_counterexample :
  reachable game_before_win ∧ waiting game_before_win = false ∧
  currentPlayer game_before_win = "x" ∧
  cellAt (board game_before_win) 0 2 = Some (str "") ∧
  handle (Click 0 2) game_before_win = game_won ∧
  cellAt (board game_won) 0 2 = Some (str "x") ∧
  waiting game_won = true ∧
  currentPlayer (switchPlayer game_won).2 = "o" ∧
  opponent (currentPlayer game_before_win) = "o" ∧
  currentPlayer (handle Timeout game_won) = "x" ∧
  currentPlayer (handle Timeout game_won) ≠ currentPlayer (switchPlayer game_won).2.
Proof.
  split; [eexists; reflexivity|].
  repeat split; try (vm_compute; reflexivity).
  vm_compute. discriminate.
Qed.

(** ** The further theorems at work *)

(** A page with no [#game] element. *)
Definition blank : Document :=
  Doc [Element "html" [] None [] [Element "body" [] None [] []]].

Lemma clickCell_outside_columns_witness :
  index (board boot) 0 = Some [str ""; str ""; str ""] ∧
  ¬ (0 ≤ 5 < Z.of_nat (length [str ""; str ""; str ""])) ∧
  clickCell 0 5 boot = (Return tt, boot).
Proof.
  assert (Hr : index (board boot) 0 = Some [str ""; str ""; str ""])
    by (vm_compute; reflexivity).
  assert (Hc : ¬ (0 ≤ 5 < Z.of_nat (length [str ""; str ""; str ""])))
    by (simpl; lia).
  split; [exact Hr|]. split; [exact Hc|].
  exact (clickCell_outside_columns boot 0 5 _ Hr Hc).
Defined.

Lemma clickCell_failed_draw_witness :
  waiting (fresh page) = false ∧
  cellAt (board (fresh page)) 0 0 = Some (str "") ∧
  updateBoard 0 0 (currentPlayer (fresh page)) (display (fresh page))
    = (Throw TypeError, page) ∧
  (clickCell 0 0 (fresh page)).1 = Throw TypeError ∧
  cellAt (board (clickCell 0 0 (fresh page)).2) 0 0 = Some (str "x") ∧
  clickCell 0 0 (clickCell 0 0 (fresh page)).2
    = (Return tt, (clickCell 0 0 (fresh page)).2).
Proof.
  assert (Hw : waiting (fresh page) = false) by reflexivity.
  assert (Hcell : cellAt (board (fresh page)) 0 0 = Some (str ""))
    by (vm_compute; reflexivity).
  assert (Hdraw : updateBoard 0 0 (currentPlayer (fresh page)) (display (fresh page))
                  = (Throw TypeError, page)) by (vm_compute; reflexivity).
  split; [exact Hw|]. split; [exact Hcell|]. split; [exact Hdraw|].
  destruct (clickCell_failed_draw (fresh page) 0 0 TypeError page Hw Hcell Hdraw)
    as (Hthrow & Hnow & _ & _ & _ & _ & _ & Hagain).
  split; [exact Hthrow|]. split; [exact Hnow|]. apply Hagain. discriminate.
Defined.

Lemma gameOver_failed_message_witness :
  printMessage None (display (fresh blank)) = (Throw TypeError, blank) ∧
  (gameOver None (fresh blank)).1 = Throw TypeError ∧
  waiting (gameOver None (fresh blank)).2 = true ∧
  timers (gameOver None (fresh blank)).2 = [].
Proof.
  assert (Hmsg : printMessage None (display (fresh blank)) = (Throw TypeError, blank))
    by (vm_compute; reflexivity).
  split; [exact Hmsg|].
  destruct (gameOver_failed_message (fresh blank) None TypeError blank Hmsg)
    as (Hthrow & Hw & Hts & _).
  split; [exact Hthrow|]. split; [exact Hw|exact Hts].
Defined.

Lemma switchPlayer_twice_witness :
  (currentPlayer boot = mark_x (players boot) ∨ currentPlayer boot = mark_o (players boot)) ∧
  (switchPlayer ;; switchPlayer) boot = (Return tt, boot).
Proof.
  assert (Hp : currentPlayer boot = mark_x (players boot)
               ∨ currentPlayer boot = mark_o (players boot))
    by (left; vm_compute; reflexivity).
  split; [exact Hp|]. exact (switchPlayer_twice boot Hp).
Defined.

Lemma reset_failed_clear_witness :
  clearMessage (display boot) = (Throw TypeError, display boot) ∧
  (onTimeout boot).1 = Throw TypeError ∧
  board (onTimeout boot).2 = board boot ∧
  waiting (onTimeout boot).2 = waiting boot.
Proof.
  assert (Hclear : clearMessage (display boot) = (Throw TypeError, display boot))
    by (vm_compute; reflexivity).
  split; [exact Hclear|].
  destruct (reset_failed_clear boot TypeError (display boot) Hclear)
    as (Hthrow & Hb & Hw & _).
  split; [exact Hthrow|]. split; [exact Hb|exact Hw].
Defined.

Lemma reachable_state_witness :
  reachable game_opened ∧
  players game_opened = {| mark_x := "x"; mark_o := "o" |} ∧
  wait game_opened = 2500 ∧
  cellAt (board game_opened) 3 0 = None.
Proof.
  assert (Hr : reachable game_opened) by (eexists; reflexivity).
  split; [exact Hr|].
  destruct (reachable_state game_opened Hr) as (_ & Hout & Hps & Hwt & _).
  split; [exact Hps|]. split; [exact Hwt|]. apply Hout. lia.
Defined.

Lemma reachable_document_witness :
  reachable game_won ∧ waiting game_won = true ∧
  length (messages (display game_won)) = 1%nat ∧ timers game_won = [2500].
Proof.
  assert (Hr : reachable game_won) by (eexists; reflexivity).
  assert (Hw : waiting game_won = true) by (vm_compute; reflexivity).
  split; [exact Hr|]. split; [exact Hw|].
  destruct (reachable_document game_won Hr) as (_ & Hlen & Hts).
  rewrite Hw in Hlen, Hts. split; [exact Hlen|exact Hts].
Defined.

Lemma handlers_return_witness :
  reachable game_before_win ∧ (clickCell 0 7 game_before_win).1 = Return tt.
Proof.
  assert (Hr : reachable game_before_win) by (eexists; reflexivity).
  split; [exact Hr|].
  apply (proj1 (handlers_return game_before_win Hr)). lia.
Defined.

Lemma playing_no_line_witness :
  reachable game_before_win ∧ waiting game_before_win = false ∧
  hasLine (board game_before_win) "x" = false ∧
  hasLine (board game_before_win) "o" = false.
Proof.
  assert (Hr : reachable game_before_win) by (eexists; reflexivity).
  assert (Hw : waiting game_before_win = false) by (vm_compute; reflexivity).
  split; [exact Hr|]. split; [exact Hw|].
  exact (playing_no_line game_before_win Hr Hw).
Defined.

Lemma round_over_result_witness :
  reachable game_won ∧ waiting game_won = true ∧
  hasLine (board game_won) (opponent (currentPlayer game_won)) = false ∧
  hasLine (board game_won) (currentPlayer game_won) = true ∧
  messages (display game_won) = [messageText (Some (currentPlayer game_won))].
Proof.
  assert (Hr : reachable game_won) by (eexists; reflexivity).
  assert (Hw : waiting game_won = true) by (vm_compute; reflexivity).
  split; [exact Hr|]. split; [exact Hw|].
  destruct (round_over_result game_won Hr Hw) as [Hother [Hwon | (Hnone & _)]].
  - split; [exact Hother|exact Hwon].
  - vm_compute in Hnone. discriminate Hnone.
Defined.

Lemma turns_alternate_witness :
  reachable game_opened ∧ waiting game_opened = false ∧
  (count (currentPlayer game_opened) (board game_opened)
   ≤ count (opponent (currentPlayer game_opened)) (board game_opened)
   ≤ count (currentPlayer game_opened) (board game_opened) + 1)%nat.
Proof.
  assert (Hr : reachable game_opened) by (eexists; reflexivity).
  assert (Hw : waiting game_opened = false) by (vm_compute; reflexivity).
  split; [exact Hr|]. split; [exact Hw|].
  pose proof (turns_alternate game_opened Hr) as Hturns. cbv zeta in Hturns.
  rewrite Hw in Hturns. exact Hturns.
Defined.

Lemma playing_has_free_cell_witness :
  reachable game_last_cell ∧ waiting game_last_cell = false ∧
  ∃ row col, 0 ≤ row ≤ 2 ∧ 0 ≤ col ≤ 2 ∧
             cellAt (board game_last_cell) row col = Some (str "").
Proof.
  assert (Hr : reachable game_last_cell) by (eexists; reflexivity).
  assert (Hw : waiting game_last_cell = false) by (vm_compute; reflexivity).
  split; [exact Hr|]. split; [exact Hw|].
  exact (playing_has_free_cell game_last_cell Hr Hw).
Defined.

Lemma printScoreBoard_run_witness :
  exact_read (score boot !! "x") ∧ exact_read (score boot !! "o") ∧
  DOM.printScoreBoard (score boot) blank = (Throw TypeError, blank).
Proof.
  assert (Hx : exact_read (score boot !! "x")) by (vm_compute; split; discriminate).
  assert (Ho : exact_read (score boot !! "o")) by (vm_compute; split; discriminate).
  split; [exact Hx|]. split; [exact Ho|].
  exact (printScoreBoard_run (score boot) blank Hx Ho).
Defined.

Lemma startGame_run_witness :
  exact_read (score (fresh blank) !! "x") ∧ exact_read (score (fresh blank) !! "o") ∧
  startGame (fresh blank) = (Throw TypeError, fresh blank).
Proof.
  assert (Hx : exact_read (score (fresh blank) !! "x"))
    by (vm_compute; split; discriminate).
  assert (Ho : exact_read (score (fresh blank) !! "o"))
    by (vm_compute; split; discriminate).
  split; [exact Hx|]. split; [exact Ho|].
  exact (startGame_run (fresh blank) Hx Ho).
Defined.

Lemma updateBoard_on_page_witness :
  reachable game_opened ∧ ("x" = "x" ∨ "x" = "o") ∧
  DOM.updateBoard 0 3 "x" (display game_opened)
    = (Throw TypeError, display game_opened).
Proof.
  assert (Hr : reachable game_opened) by (eexists; reflexivity).
  assert (Hp : "x" = "x" ∨ "x" = "o") by (left; reflexivity).
  split; [exact Hr|]. split; [exact Hp|].
  pose proof (updateBoard_on_page game_opened 0 3 "x" Hr Hp) as Hrun.
  rewrite bool_decide_eq_false_2 in Hrun by lia. exact Hrun.
Defined.

Lemma updateScore_on_page_witness :
  reachable boot ∧ isName "z" = true ∧ exact_read (score boot !! "z") ∧
  DOM.updateScore (score boot) "z" (display boot) = (Throw TypeError, display boot).
Proof.
  assert (Hr : reachable boot) by (exists []; reflexivity).
  assert (Hname : isName "z" = true) by reflexivity.
  assert (Hex : exact_read (score boot !! "z")) by (vm_compute; exact I).
  split; [exact Hr|]. split; [exact Hname|]. split; [exact Hex|].
  pose proof (updateScore_on_page boot (score boot) "z" Hr Hname Hex) as Hrun.
  cbv zeta in Hrun. rewrite !bool_decide_eq_false_2 in Hrun by discriminate.
  exact Hrun.
Defined.
